(** * Memory lifetime verifier of SIL (lib/SIL/MemoryLifetime.cpp)

    A shallow embedding of the three components of the verifier:
    - [MemoryLocations]: the table of tracked memory locations and the
      analysis which builds it from the uses of a root address;
    - [MemoryDataflow]: block states, reachability and the forward solver;
    - [MemoryLifetimeVerifier]: gen/kill summaries, the replay of a block
      and the checks at block boundaries and function exits.

    Bit vectors ([SmallBitVector]) are natural numbers in binary ([N]): bit
    [i] of a set is [N.testbit _ i], [|=] is [N.lor], [&=] is [N.land],
    [reset(RHS)] is [N.ldiff] and [^] is [N.lxor].  A vector of [n] bits
    with all bits set is [N.ones n]. *)

From stdpp Require Import base option list gmap strings.
From Stdlib Require Import NArith ZArith Lia.

Set Warnings "-register-all".

Local Open Scope N_scope.
Local Open Scope nat_scope.

(** ** The SIL interface used by the verifier *)

(** Identity of a value (the [SILValue] pointer) and of a basic block (its
    position in the function). *)
Abbreviation ValueId := nat (only parsing).
Abbreviation BlockId := nat (only parsing).

Abbreviation Bits := N (only parsing).

Definition INT_MAX : Z := 2147483647%Z.

Inductive SILArgumentConvention :=
  | Indirect_In
  | Indirect_In_Constant
  | Indirect_In_Guaranteed
  | Indirect_Inout
  | Indirect_InoutAliasable
  | Indirect_Out
  | Direct_Owned
  | Direct_Unowned
  | Direct_Deallocating
  | Direct_Guaranteed.

Inductive LoadOwnershipQualifier :=
  | LoadUnqualified | LoadTake | LoadCopy | LoadTrivial.

Inductive StoreOwnershipQualifier :=
  | StoreUnqualified | StoreInit | StoreAssign | StoreTrivial.

(** What [initFieldsCounter] asks of a type: whether it is a nominal type
    (with its resilience and the types of its stored properties) or a
    tuple. *)
Inductive SILType :=
  | NominalType (isResilient : bool) (storedProperties : list SILType)
  | TupleType (elements : list SILType)
  | BuiltinType (name : nat).

(** The kind of an instruction as seen from a use ([user->getKind()]),
    with the payload the analysis reads from the casted instruction. *)
Module SILInstructionKind.
Inductive t :=
  | StructElementAddrInst (getFieldNo : nat)
  | TupleElementAddrInst (getFieldNo : nat)
  | BeginAccessInst
  | StoreInst (getOwnershipQualifier : StoreOwnershipQualifier)
  | LoadInst
  | EndAccessInst
  | LoadBorrowInst
  | DestroyAddrInst
  | ApplyInst
  | TryApplyInst
  | DebugValueAddrInst
  | CopyAddrInst
  | YieldInst
  | DeallocStackInst
  | AllocStackInst
  | SILFunctionArgument
  | Other (name : nat).
End SILInstructionKind.

(** A value together with its def-use chain: [getUses] lists the users of
    the value, one entry per use, each user being an instruction which (when
    it is a single-value instruction) has uses of its own. *)
Inductive SILNode := mkNode {
  getKind : SILInstructionKind.t;
  getId : ValueId;
  getParent : BlockId;
  getType : SILType;
  getUses : list SILNode
}.

(** A value as an operand: its identity and, for a [begin_access], the
    operand of that instruction (all that [getBaseValue] looks at). *)
Inductive SILValue :=
  | Value (id : ValueId)
  | BeginAccess (id : ValueId) (getOperand : SILValue).

Record Operand := mkOperand {
  get : SILValue;
  (** [Some c] for an argument operand of an apply site or a yield, with
      its convention; [None] for the other operands (the callee). *)
  getArgumentConvention : option SILArgumentConvention
}.

(** The instructions of a block, as the verifier switches on them. *)
Inductive SILInstruction :=
  | LoadInst (q : LoadOwnershipQualifier) (operand : SILValue)
  | StoreInst (q : StoreOwnershipQualifier) (dest : SILValue)
  | CopyAddrInst (src dest : SILValue)
                 (isTakeOfSrc isInitializationOfDest : bool)
  | DestroyAddrInst (operand : SILValue)
  | EndBorrowInst (getSingleOriginalValue : option SILValue)
  | ApplyInst (getAllOperands : list Operand)
  | TryApplyInst (getAllOperands : list Operand) (getNormalBB getErrorBB : BlockId)
  | YieldInst (getAllOperands : list Operand) (getResumeBB getUnwindBB : BlockId)
  | DebugValueAddrInst (operand : SILValue)
  | DeallocStackInst (operand : SILValue)
  | AllocStackInst (hasDynamicLifetime : bool) (ASI : SILNode)
  | ReturnInst
  | UnwindInst
  | ThrowInst
  | OtherInst (successors : list BlockId).

Record SILFunctionArgument := mkArg {
  argValue : SILNode;
  getArgumentConventionOfArg : SILArgumentConvention
}.

Record SILBasicBlock := mkBlock {
  instructions : list SILInstruction
}.

(** The entry block is block 0. *)
Record SILFunction := mkFunction {
  getArguments : list SILFunctionArgument;
  blocks : list SILBasicBlock
}.

Definition getTerminator (BB : SILBasicBlock) : option SILInstruction :=
  last (instructions BB).

Definition getSuccessors (I : SILInstruction) : list BlockId :=
  match I with
  | TryApplyInst _ normalBB errorBB => [normalBB; errorBB]
  | YieldInst _ resumeBB unwindBB => [resumeBB; unwindBB]
  | OtherInst succs => succs
  | _ => []
  end.

Definition getSuccessorBlocks (BB : SILBasicBlock) : list BlockId :=
  match getTerminator BB with
  | Some term => getSuccessors term
  | None => []
  end.

(** The predecessor list of block [b]: one entry per successor edge into
    [b], in block order. *)
Definition getPredecessorBlocks (function : SILFunction) (b : BlockId)
  : list BlockId :=
  concat (imap (fun p BB =>
                  omap (fun s => if decide (s = b) then Some p else None)
                       (getSuccessorBlocks BB))
               (blocks function)).

Definition getSinglePredecessorBlock (function : SILFunction) (b : BlockId)
  : option BlockId :=
  match getPredecessorBlocks function b with
  | [pred] => Some pred
  | _ => None
  end.

Definition isFunctionExiting (term : SILInstruction) : bool :=
  match term with
  | ReturnInst | ThrowInst | UnwindInst => true
  | _ => false
  end.

(** ** MemoryLocations *)

(** Enlarge the bitset if needed to set the bit with [idx]. *)
Definition setBitAndResize (bits : Bits) (idx : nat) : Bits :=
  N.setbit bits (N.of_nat idx).

Definition isDeallocStackInst (user : SILNode) : bool :=
  match getKind user with
  | SILInstructionKind.DeallocStackInst => true
  | _ => false
  end.

(** The loop of [allUsesInSameBlock]: [None] is the early [return false],
    [Some n] the value of [numDeallocStacks] at the end of the loop. *)
Fixpoint countDeallocStacks (BB : BlockId) (uses : list SILNode)
    (numDeallocStacks : nat) : option nat :=
  match uses with
  | [] => Some numDeallocStacks
  | user :: rest =>
      if isDeallocStackInst user then
        if decide (getParent user = BB) then
          countDeallocStacks BB rest (S numDeallocStacks)
        else None
      else countDeallocStacks BB rest numDeallocStacks
  end.

(** The assertion [numDeallocStacks <= 1] is an [assert]: without it the
    function returns [numDeallocStacks == 1]. *)
Definition allUsesInSameBlock (ASI : SILNode) : bool :=
  match countDeallocStacks (getParent ASI) (getUses ASI) 0 with
  | None => false
  | Some numDeallocStacks => bool_decide (numDeallocStacks = 1)
  end.

Record Location := mkLocation {
  representativeValue : SILNode;
  subLocations : Bits;
  selfAndParents : Bits;
  parentIdx : Z;
  (** Negative as long as [initFieldsCounter] has not computed it. *)
  numFieldsNotCoveredBySubfields : Z
}.

(** The constructor [Location(val, index, parentIdx)]. *)
Definition newLocation (val : SILNode) (index : nat) (parentIdx : Z)
  : Location :=
  {| representativeValue := val;
     subLocations := setBitAndResize 0%N index;
     selfAndParents := setBitAndResize 0%N index;
     parentIdx := parentIdx;
     numFieldsNotCoveredBySubfields := (-1)%Z |}.

Definition setSubLocations (bits : Bits) (loc : Location) : Location :=
  {| representativeValue := representativeValue loc;
     subLocations := bits;
     selfAndParents := selfAndParents loc;
     parentIdx := parentIdx loc;
     numFieldsNotCoveredBySubfields := numFieldsNotCoveredBySubfields loc |}.

Definition setSelfAndParents (bits : Bits) (loc : Location) : Location :=
  {| representativeValue := representativeValue loc;
     subLocations := subLocations loc;
     selfAndParents := bits;
     parentIdx := parentIdx loc;
     numFieldsNotCoveredBySubfields := numFieldsNotCoveredBySubfields loc |}.

Definition setNumFields (n : Z) (loc : Location) : Location :=
  {| representativeValue := representativeValue loc;
     subLocations := subLocations loc;
     selfAndParents := selfAndParents loc;
     parentIdx := parentIdx loc;
     numFieldsNotCoveredBySubfields := n |}.

Record MemoryLocations := mkLocations {
  locations : list Location;
  addr2LocIdx : gmap ValueId nat;
  singleBlockLocations : list SILNode
}.

Definition valueId (v : SILValue) : ValueId :=
  match v with
  | Value id => id
  | BeginAccess id _ => id
  end.

Fixpoint getBaseValue (addr : SILValue) : SILValue :=
  match addr with
  | BeginAccess _ operand => getBaseValue operand
  | Value _ => addr
  end.

Definition getLocationIdx (L : MemoryLocations) (addr : SILValue) : Z :=
  match addr2LocIdx L !! valueId (getBaseValue addr) with
  | None => (-1)%Z
  | Some idx => Z.of_nat idx
  end.

Definition clear (L : MemoryLocations) : MemoryLocations :=
  {| locations := [];
     addr2LocIdx := ∅;
     singleBlockLocations := singleBlockLocations L |}.

(** The loop
    [do { Location &loc = locations[idx]; ...; idx = loc.parentIdx; }
     while (idx >= 0)]
    which applies [f] to the location [idx] and to all its parents.  A
    parent has a smaller index than its child in every table the analysis
    builds, so [S idx] rounds are enough. *)
Fixpoint updateSelfAndParents (f : Location → Location) (fuel idx : nat)
    (locs : list Location) : list Location :=
  match fuel with
  | O => locs
  | S fuel' =>
      match locs !! idx with
      | None => locs
      | Some loc =>
          let locs' := <[idx := f loc]> locs in
          if (0 <=? parentIdx loc)%Z
          then updateSelfAndParents f fuel' (Z.to_nat (parentIdx loc)) locs'
          else locs'
      end
  end.

(** The state the recursive analysis of one root works on: the table and
    the two by-reference arguments. *)
Record Analysis := mkAnalysis {
  table : MemoryLocations;
  collectedVals : list SILNode;
  subLocationMap : gmap (nat * nat) nat
}.

(** A [for] loop over the uses whose body may [return false]. *)
Fixpoint forEachUse {A S : Type} (body : A → S → bool * S)
    (uses : list A) (st : S) : bool * S :=
  match uses with
  | [] => (true, st)
  | use :: rest =>
      let '(ok, st') := body use st in
      if ok then forEachUse body rest st' else (false, st')
  end.

Section Locations.

(** [MemoryLocations::shouldTrackLocation(type, function)], declared in
    the header. *)
Variable shouldTrackLocation : SILType → bool.

Definition countTrackedFields (fields : list SILType) : Z :=
  fold_left (fun n fieldTy =>
               if shouldTrackLocation fieldTy then (n + 1)%Z else n)
            fields 0%Z.

(** [castTo<TupleType>] asserts that a type which is not nominal is a
    tuple; a type which is neither has no elements to count. *)
Definition initFieldsCounter (loc : Location) : Location :=
  if (0 <=? numFieldsNotCoveredBySubfields loc)%Z then loc
  else
    match getType (representativeValue loc) with
    | NominalType isResilient storedProperties =>
        if isResilient then setNumFields INT_MAX loc
        else setNumFields (countTrackedFields storedProperties) loc
    | TupleType elements =>
        setNumFields (countTrackedFields elements) loc
    | BuiltinType _ => setNumFields 0%Z loc
    end.

(** The body of [if (subLocIdx == 0)] in [analyzeAddrProjection], after
    [subLocIdx = locations.size()]: it registers the new sub-location and
    updates the bookkeeping of its parents.  [parentLoc] is the entry of
    the table at [parentLocIdx], before and after the [push_back]. *)
Definition registerSubLocation (projection : SILNode)
    (parentLocIdx subLocIdx : nat) (locs : list Location)
  : list Location :=
  match locs !! parentLocIdx with
  | None => locs
  | Some parentLoc =>
      let sub := newLocation projection subLocIdx (Z.of_nat parentLocIdx) in
      let locs1 :=
        locs ++ [setSelfAndParents
                   (N.lor (selfAndParents sub) (selfAndParents parentLoc))
                   sub] in
      let locs2 :=
        updateSelfAndParents
          (fun loc => setSubLocations
                        (setBitAndResize (subLocations loc) subLocIdx) loc)
          (S parentLocIdx) parentLocIdx locs1 in
      let locs3 := alter initFieldsCounter parentLocIdx locs2 in
      let locs4 :=
        alter (fun loc => setNumFields
                            (numFieldsNotCoveredBySubfields loc - 1)%Z loc)
              parentLocIdx locs3 in
      match locs4 !! parentLocIdx with
      | Some parentLoc' =>
          if (numFieldsNotCoveredBySubfields parentLoc' =? 0)%Z then
            updateSelfAndParents
              (fun loc => setSubLocations
                            (N.clearbit (subLocations loc)
                                        (N.of_nat parentLocIdx)) loc)
              (S parentLocIdx) parentLocIdx locs4
          else locs4
      | None => locs4
      end
  end.

(** The state after [subLocIdx = locations.size()] and the body of
    [if (subLocIdx == 0)]. *)
Definition withSubLocation (projection : SILNode)
    (parentLocIdx fieldNr subLocIdx : nat) (st : Analysis) : Analysis :=
  {| table :=
       {| locations :=
            registerSubLocation projection parentLocIdx subLocIdx
                                (locations (table st));
          addr2LocIdx := addr2LocIdx (table st);
          singleBlockLocations := singleBlockLocations (table st) |};
     collectedVals := collectedVals st;
     subLocationMap :=
       <[(parentLocIdx, fieldNr) := subLocIdx]> (subLocationMap st) |}.

(** The state after [addr2LocIdx[projection] = subLocIdx] and
    [collectedVals.push_back(projection)]. *)
Definition withCollectedVal (projection : SILNode) (subLocIdx : nat)
    (st : Analysis) : Analysis :=
  {| table :=
       {| locations := locations (table st);
          addr2LocIdx :=
            <[getId projection := subLocIdx]> (addr2LocIdx (table st));
          singleBlockLocations := singleBlockLocations (table st) |};
     collectedVals := collectedVals st ++ [projection];
     subLocationMap := subLocationMap st |}.

(** [analyzeUses] is the recursive call
    [analyzeLocationUsesRecursively(projection, ...)]. *)
Definition analyzeAddrProjection
    (analyzeUses : nat → Analysis → bool * Analysis)
    (projection : SILNode) (parentLocIdx fieldNr : nat) (st : Analysis)
  : bool * Analysis :=
  if negb (shouldTrackLocation (getType projection)) then (true, st)
  else
    let found := default 0 (subLocationMap st !! (parentLocIdx, fieldNr)) in
    let '(subLocIdx, st1) :=
      if decide (found = 0) then
        let subLocIdx := length (locations (table st)) in
        (subLocIdx,
         withSubLocation projection parentLocIdx fieldNr subLocIdx st)
      else (found, st) in
    let '(ok, st2) := analyzeUses subLocIdx st1 in
    if negb ok then (false, st2)
    else (true, withCollectedVal projection subLocIdx st2).

(** The body of the loop over the uses of [V]; [analyzeUsesOf user] is
    the recursive call on the uses of the user. *)
Definition analyzeUse
    (analyzeUsesOf : SILNode → nat → Analysis → bool * Analysis)
    (locIdx : nat) (user : SILNode) (st : Analysis) : bool * Analysis :=
  match getKind user with
  | SILInstructionKind.StructElementAddrInst fieldNo =>
      analyzeAddrProjection (analyzeUsesOf user) user locIdx fieldNo st
  | SILInstructionKind.TupleElementAddrInst fieldNo =>
      analyzeAddrProjection (analyzeUsesOf user) user locIdx fieldNo st
  | SILInstructionKind.BeginAccessInst =>
      analyzeUsesOf user locIdx st
  | SILInstructionKind.StoreInst q =>
      match q with
      | StoreTrivial => (false, st)
      | _ => (true, st)
      end
  | SILInstructionKind.LoadInst
  | SILInstructionKind.EndAccessInst
  | SILInstructionKind.LoadBorrowInst
  | SILInstructionKind.DestroyAddrInst
  | SILInstructionKind.ApplyInst
  | SILInstructionKind.TryApplyInst
  | SILInstructionKind.DebugValueAddrInst
  | SILInstructionKind.CopyAddrInst
  | SILInstructionKind.YieldInst
  | SILInstructionKind.DeallocStackInst => (true, st)
  | _ => (false, st)
  end.

Fixpoint analyzeLocationUsesRecursively (V : SILNode) (locIdx : nat)
    (st : Analysis) {struct V} : bool * Analysis :=
  forEachUse (analyzeUse analyzeLocationUsesRecursively locIdx)
             (getUses V) st.

(** The state after [locations.push_back(Location(loc, currentLocIdx))],
    with the two local variables of [analyzeLocation]. *)
Definition withRootLocation (loc : SILNode) (L : MemoryLocations)
  : Analysis :=
  {| table :=
       {| locations :=
            locations L ++ [newLocation loc (length (locations L)) (-1)%Z];
          addr2LocIdx := addr2LocIdx L;
          singleBlockLocations := singleBlockLocations L |};
     collectedVals := [];
     subLocationMap := ∅ |}.

Definition analyzeLocation (loc : SILNode) (L : MemoryLocations)
  : MemoryLocations :=
  if negb (shouldTrackLocation (getType loc)) then L
  else
    let currentLocIdx := length (locations L) in
    let '(ok, st) :=
      analyzeLocationUsesRecursively loc currentLocIdx
                                     (withRootLocation loc L) in
    if negb ok then
      {| locations := take currentLocIdx (locations (table st));
         addr2LocIdx :=
           foldl (fun m V => delete (getId V) m)
                 (addr2LocIdx (table st)) (collectedVals st);
         singleBlockLocations := singleBlockLocations (table st) |}
    else
      {| locations := locations (table st);
         addr2LocIdx :=
           <[getId loc := currentLocIdx]> (addr2LocIdx (table st));
         singleBlockLocations := singleBlockLocations (table st) |}.

(** The body of the loop over the function arguments. *)
Definition analyzeArgument (L : MemoryLocations)
    (funcArg : SILFunctionArgument) : MemoryLocations :=
  match getArgumentConventionOfArg funcArg with
  | Indirect_In
  | Indirect_In_Constant
  | Indirect_In_Guaranteed
  | Indirect_Inout
  | Indirect_Out => analyzeLocation (argValue funcArg) L
  | _ => L
  end.

(** The body of the loop over the instructions of the function. *)
Definition analyzeInstruction (L : MemoryLocations) (I : SILInstruction)
  : MemoryLocations :=
  match I with
  | AllocStackInst hasDynamicLifetime ASI =>
      if negb hasDynamicLifetime then
        if allUsesInSameBlock ASI then
          {| locations := locations L;
             addr2LocIdx := addr2LocIdx L;
             singleBlockLocations := singleBlockLocations L ++ [ASI] |}
        else analyzeLocation ASI L
      else L
  | _ => L
  end.

Definition analyzeLocations (function : SILFunction) (L : MemoryLocations)
  : MemoryLocations :=
  let L1 := foldl analyzeArgument L (getArguments function) in
  foldl (fun L BB => foldl analyzeInstruction L (instructions BB))
        L1 (blocks function).

(** The walk over the collected single-block locations.  The handler is
    applied to the table as it is when the handler is called; the results
    of its calls are returned in order. *)
Fixpoint handleSingleBlockLocationsLoop {R : Type}
    (handlerFunc : MemoryLocations → BlockId → R)
    (SVIs : list SILNode) (currentBlock : option BlockId)
    (L : MemoryLocations) : list R * (option BlockId * MemoryLocations) :=
  match SVIs with
  | [] => ([], (currentBlock, L))
  | SVI :: rest =>
      let '(out, L1) :=
        match currentBlock with
        | Some block =>
            if decide (getParent SVI ≠ block)
            then ([handlerFunc L block], clear L)
            else ([], L)
        | None => ([], L)
        end in
      let '(outs, final) :=
        handleSingleBlockLocationsLoop
          handlerFunc rest (Some (getParent SVI)) (analyzeLocation SVI L1) in
      (out ++ outs, final)
  end.

Definition handleSingleBlockLocations {R : Type}
    (handlerFunc : MemoryLocations → BlockId → R) (L : MemoryLocations)
  : list R * MemoryLocations :=
  let '(out, (currentBlock, L1)) :=
    handleSingleBlockLocationsLoop
      handlerFunc (singleBlockLocations L) None (clear L) in
  match currentBlock with
  | Some block => (out ++ [handlerFunc L1 block], clear L1)
  | None => (out, clear L1)
  end.

End Locations.

(** Modelled from the spec: the accessors of the table which are defined in
    the header MemoryLifetime.h.  [getLocation] resolves an address to its
    location, or to none if it is not tracked; [setBits] ORs and [clearBits]
    AND-NOTs the [subLocations] of the location of [addr] into/out of
    [bits]. *)
Definition getNumLocations (L : MemoryLocations) : nat :=
  length (locations L).

Definition getLocation (L : MemoryLocations) (addr : SILValue)
  : option Location :=
  let locIdx := getLocationIdx L addr in
  if (0 <=? locIdx)%Z then locations L !! Z.to_nat locIdx else None.

Definition setBits (L : MemoryLocations) (bits : Bits) (addr : SILValue)
  : Bits :=
  match getLocation L addr with
  | Some loc => N.lor bits (subLocations loc)
  | None => bits
  end.

Definition clearBits (L : MemoryLocations) (bits : Bits) (addr : SILValue)
  : Bits :=
  match getLocation L addr with
  | Some loc => N.ldiff bits (subLocations loc)
  | None => bits
  end.

(** ** MemoryDataflow *)

(** The state of block [i] is [blockStates !! i]: the constructor creates
    one state per block, in block order, and [block2State] maps a block to
    it. *)
Record BlockState := mkBlockState {
  entrySet : Bits;
  genSet : Bits;
  killSet : Bits;
  exitSet : Bits;
  reachableFromEntry : bool;
  exitReachable : bool
}.

Definition setEntrySet (bits : Bits) (st : BlockState) : BlockState :=
  {| entrySet := bits; genSet := genSet st; killSet := killSet st;
     exitSet := exitSet st; reachableFromEntry := reachableFromEntry st;
     exitReachable := exitReachable st |}.

Definition setGenSet (bits : Bits) (st : BlockState) : BlockState :=
  {| entrySet := entrySet st; genSet := bits; killSet := killSet st;
     exitSet := exitSet st; reachableFromEntry := reachableFromEntry st;
     exitReachable := exitReachable st |}.

Definition setKillSet (bits : Bits) (st : BlockState) : BlockState :=
  {| entrySet := entrySet st; genSet := genSet st; killSet := bits;
     exitSet := exitSet st; reachableFromEntry := reachableFromEntry st;
     exitReachable := exitReachable st |}.

Definition setExitSet (bits : Bits) (st : BlockState) : BlockState :=
  {| entrySet := entrySet st; genSet := genSet st; killSet := killSet st;
     exitSet := bits; reachableFromEntry := reachableFromEntry st;
     exitReachable := exitReachable st |}.

Definition setReachableFromEntry (st : BlockState) : BlockState :=
  {| entrySet := entrySet st; genSet := genSet st; killSet := killSet st;
     exitSet := exitSet st; reachableFromEntry := true;
     exitReachable := exitReachable st |}.

(** Modelled from the spec: [BlockState::genBits] and [killBits] of the
    header MemoryLifetime.h.  The gen set records the locations the block
    initializes and the kill set those it de-initializes, the later effect
    on a location replacing the earlier one. *)
Definition genBits (state : BlockState) (addr : SILValue)
    (locs : MemoryLocations) : BlockState :=
  match getLocation locs addr with
  | Some loc =>
      setGenSet (N.lor (genSet state) (subLocations loc))
                (setKillSet (N.ldiff (killSet state) (subLocations loc)) state)
  | None => state
  end.

Definition killBits (state : BlockState) (addr : SILValue)
    (locs : MemoryLocations) : BlockState :=
  match getLocation locs addr with
  | Some loc =>
      setKillSet (N.lor (killSet state) (subLocations loc))
                 (setGenSet (N.ldiff (genSet state) (subLocations loc)) state)
  | None => state
  end.

(** The constructor: one state per block, every set resized to [numBits]
    cleared bits. *)
Definition MemoryDataflow (function : SILFunction) (numLocations : nat)
  : list BlockState :=
  map (fun _ => {| entrySet := 0%N; genSet := 0%N; killSet := 0%N;
                   exitSet := 0%N; reachableFromEntry := false;
                   exitReachable := false |})
      (blocks function).

(** The loop over the successors of the popped block. *)
Definition markSuccessors (succs : list BlockId)
    (acc : list BlockId * list BlockState) : list BlockId * list BlockState :=
  foldl (fun '(workList, states) succ =>
           match states !! succ with
           | Some succState =>
               if negb (reachableFromEntry succState)
               then (succ :: workList,
                     <[succ := setReachableFromEntry succState]> states)
               else (workList, states)
           | None => (workList, states)
           end)
        acc succs.

(** The work list is a stack whose top is the head of the list.  Every
    block is pushed at most once, so as many rounds as there are blocks
    empty the work list. *)
Fixpoint entryReachabilityLoop (function : SILFunction) (fuel : nat)
    (workList : list BlockId) (states : list BlockState) : list BlockState :=
  match fuel with
  | O => states
  | S fuel' =>
      match workList with
      | [] => states
      | state :: workList' =>
          let succs :=
            match blocks function !! state with
            | Some BB => getSuccessorBlocks BB
            | None => []
            end in
          let '(workList'', states') :=
            markSuccessors succs (workList', states) in
          entryReachabilityLoop function fuel' workList'' states'
      end
  end.

Definition entryReachabilityAnalysis (function : SILFunction)
    (states : list BlockState) : list BlockState :=
  match states !! 0 with
  | Some entryState =>
      entryReachabilityLoop function (length states) [0]
        (<[0 := setReachableFromEntry entryState]> states)
  | None => states
  end.

(** The loop over the predecessors:
    [bits &= block2State[pred]->exitSet]. *)
Definition intersectExitSets (states : list BlockState) (bits : Bits)
    (preds : list BlockId) : Bits :=
  foldl (fun bits pred =>
           match states !! pred with
           | Some predState => N.land bits (exitSet predState)
           | None => bits
           end)
        bits preds.

(** The body of the loop over the block states in one round of
    [solveDataflowForward], for the block [idx]. *)
Definition solveBlockForward (function : SILFunction) (firstRound : bool)
    (acc : bool * list BlockState) (idx : BlockId) : bool * list BlockState :=
  let '(changed, states) := acc in
  match states !! idx with
  | None => acc
  | Some st =>
      let bits :=
        intersectExitSets states (entrySet st)
                          (getPredecessorBlocks function idx) in
      if firstRound || negb (bits =? entrySet st)%N then
        (true,
         <[idx := setExitSet (N.ldiff (N.lor bits (genSet st)) (killSet st))
                             (setEntrySet bits st)]> states)
      else (changed, states)
  end.

(** One round of the [do ... while (changed)] loop. *)
Definition solveRoundForward (function : SILFunction) (firstRound : bool)
    (states : list BlockState) : bool * list BlockState :=
  foldl (solveBlockForward function firstRound) (false, states)
        (seq 0 (length states)).

(** The [do ... while (changed)] loop, for at most [fuel] rounds. *)
Fixpoint solveDataflowForwardLoop (function : SILFunction) (fuel : nat)
    (firstRound : bool) (states : list BlockState)
  : option (list BlockState) :=
  match fuel with
  | O => None
  | S fuel' =>
      let '(changed, states') :=
        solveRoundForward function firstRound states in
      if changed
      then solveDataflowForwardLoop function fuel' false states'
      else Some states'
  end.

(** Number of bits set in a bit vector. *)
Fixpoint popcountPos (p : positive) : nat :=
  match p with
  | xH => 1
  | xO p' => popcountPos p'
  | xI p' => S (popcountPos p')
  end.

Definition popcount (bits : Bits) : nat :=
  match bits with
  | N0 => 0
  | Npos p => popcountPos p
  end.

Definition sumEntryBits (states : list BlockState) : nat :=
  foldr (fun st n => popcount (entrySet st) + n) 0 states.

(** The solver, run for as many rounds as the loop can take: the first
    round, one round for every bit which can still be cleared in an entry
    set, and the last round which changes nothing. *)
Definition solveDataflowForward (function : SILFunction)
    (states : list BlockState) : option (list BlockState) :=
  solveDataflowForwardLoop function (2 + sumEntryBits states) true states.

(** ** MemoryLifetimeVerifier *)

(** An instruction is identified by its block and its position in the
    block. *)
Definition InstructionId : Type := BlockId * nat.

(** One verification failure, as [require] prints it: the complaint, the
    index of the memory location ([-1] if there is none) and the
    instruction. *)
Record Failure := mkFailure {
  complaint : string;
  locationIdx : Z;
  where_ : InstructionId
}.

Fixpoint findFirstPos (p : positive) : nat :=
  match p with
  | xO p' => S (findFirstPos p')
  | _ => 0
  end.

(** [SmallBitVector::find_first]: the index of the first set bit, [-1] if
    there is none. *)
Definition find_first (bits : Bits) : Z :=
  match bits with
  | N0 => (-1)%Z
  | Npos p => Z.of_nat (findFirstPos p)
  end.

(** [SmallBitVector::none]. *)
Definition none (bits : Bits) : bool := (bits =? 0)%N.

(** Issue an error if [condition] is false.  The verifier state does not
    depend on the outcome of [require]; the failures are collected in the
    order in which they are issued (the behaviour with
    [DontAbortOnMemoryLifetimeErrors]).  Without that option the process
    is aborted at the first failure, see [abortOnFirstFailure]. *)
Definition require (condition : bool) (complaint : string)
    (locationIdx : Z) (where_ : InstructionId) : list Failure :=
  if condition then []
  else [{| complaint := complaint; locationIdx := locationIdx;
           where_ := where_ |}].

(** Issue an error if any bit in [wrongBits] is set. *)
Definition requireBits (wrongBits : Bits) (complaint : string)
    (where_ : InstructionId) : list Failure :=
  require (none wrongBits) complaint (find_first wrongBits) where_.

(** What remains of the collected failures when the first one aborts. *)
Definition abortOnFirstFailure (failures : list Failure) : option Failure :=
  head failures.

Definition isIndirectOut (op : Operand) : bool :=
  match getArgumentConvention op with
  | Some Indirect_Out => true
  | _ => false
  end.

Section Verifier.

Variable function : SILFunction.
Variable locations_ : MemoryLocations.

Definition requireBitsClear (bits : Bits) (addr : SILValue)
    (where_ : InstructionId) : list Failure :=
  match getLocation locations_ addr with
  | Some loc =>
      requireBits (N.land bits (subLocations loc))
                  "memory is initialized, but shouldn't" where_
  | None => []
  end.

Definition requireBitsSet (bits : Bits) (addr : SILValue)
    (where_ : InstructionId) : list Failure :=
  match getLocation locations_ addr with
  | Some loc =>
      requireBits (N.ldiff (subLocations loc) bits)
                  "memory is not initialized, but should" where_
  | None => []
  end.

(** The loop over the operands of the [try_apply] in
    [setBitsOfPredecessor]. *)
Definition setBitsOfOutOperands (bits : Bits) (allOperands : list Operand)
  : Bits :=
  foldl (fun bits op =>
           if isIndirectOut op then setBits locations_ bits (get op)
           else bits)
        bits allOperands.

(** Handles locations of the predecessor's terminator, which are only
    valid in [block]. *)
Definition setBitsOfPredecessor (bits : Bits) (block : BlockId) : Bits :=
  match getSinglePredecessorBlock function block with
  | None => bits
  | Some pred =>
      match blocks function !! pred ≫= getTerminator with
      | Some (TryApplyInst allOperands normalBB _) =>
          if decide (normalBB = block)
          then setBitsOfOutOperands bits allOperands
          else bits
      | _ => bits
      end
  end.

Definition setFuncOperandBits (state : BlockState) (op : Operand)
    (convention : SILArgumentConvention) (isTryApply : bool)
  : BlockState :=
  match convention with
  | Indirect_In
  | Indirect_In_Constant => killBits state (get op) locations_
  | Indirect_Out =>
      if negb isTryApply then genBits state (get op) locations_
      else state
  | Indirect_In_Guaranteed
  | Indirect_Inout
  | Indirect_InoutAliasable
  | Direct_Owned
  | Direct_Unowned
  | Direct_Deallocating
  | Direct_Guaranteed => state
  end.

(** The body of the loop over the operands of an apply site or of a
    yield: only the argument operands are looked at. *)
Definition setOperandBits (isTryApply : bool) (state : BlockState)
    (op : Operand) : BlockState :=
  match getArgumentConvention op with
  | Some convention => setFuncOperandBits state op convention isTryApply
  | None => state
  end.

Definition setFuncOperandsBits (state : BlockState)
    (allOperands : list Operand) (isTryApply : bool) : BlockState :=
  foldl (setOperandBits isTryApply) state allOperands.

(** The body of the loop over the instructions in
    [initDataflowInBlock]. *)
Definition initDataflowInInstruction (state : BlockState)
    (I : SILInstruction) : BlockState :=
  match I with
  | LoadInst q operand =>
      match q with
      | LoadTake => killBits state operand locations_
      | _ => state
      end
  | StoreInst _ dest => genBits state dest locations_
  | CopyAddrInst src dest isTakeOfSrc isInitializationOfDest =>
      let state1 :=
        if isTakeOfSrc then killBits state src locations_ else state in
      if isInitializationOfDest then genBits state1 dest locations_
      else state1
  | DestroyAddrInst operand => killBits state operand locations_
  | ApplyInst allOperands => setFuncOperandsBits state allOperands false
  | TryApplyInst allOperands _ _ =>
      setFuncOperandsBits state allOperands true
  | YieldInst allOperands _ _ =>
      setFuncOperandsBits state allOperands false
  | _ => state
  end.

Definition instructionsOf (block : BlockId) : list SILInstruction :=
  match blocks function !! block with
  | Some BB => instructions BB
  | None => []
  end.

(** Initializes the data flow bits sets in the block state for a single
    block. *)
Definition initDataflowInBlock (block : BlockId) (state : BlockState)
  : BlockState :=
  foldl initDataflowInInstruction
        (setGenSet (setBitsOfPredecessor (genSet state) block) state)
        (instructionsOf block).

Definition isNotIndirectOut (funcArg : SILFunctionArgument) : bool :=
  match getArgumentConventionOfArg funcArg with
  | Indirect_Out => false
  | _ => true
  end.

Definition asValue (arg : SILFunctionArgument) : SILValue :=
  Value (getId (argValue arg)).

(** The entry set of the function entry block. *)
Definition entryBits : Bits :=
  foldl (fun bits funcArg =>
           if isNotIndirectOut funcArg
           then setBits locations_ bits (asValue funcArg)
           else bits)
        0%N (getArguments function).

(** Initializes the data flow bits sets in the block states for all
    blocks.  The sets have [getNumLocations] bits. *)
Definition initDataflow (dataFlow : list BlockState) : list BlockState :=
  imap (fun block st =>
          let st1 :=
            if decide (block = 0) then setEntrySet entryBits st
            else setEntrySet (N.ones (N.of_nat (getNumLocations locations_)))
                             st in
          let st2 :=
            setExitSet (N.ones (N.of_nat (getNumLocations locations_)))
                       st1 in
          if reachableFromEntry st2 then initDataflowInBlock block st2
          else st2)
       dataFlow.

(** Check a function argument against the current live [bits] at the
    function call. *)
Definition checkFuncArgument (bits : Bits) (argumentOp : Operand)
    (argumentConvention : SILArgumentConvention)
    (applyInst : InstructionId) : Bits * list Failure :=
  match argumentConvention with
  | Indirect_In
  | Indirect_In_Constant =>
      (clearBits locations_ bits (get argumentOp),
       requireBitsSet bits (get argumentOp) applyInst)
  | Indirect_Out =>
      (setBits locations_ bits (get argumentOp),
       requireBitsClear bits (get argumentOp) applyInst)
  | Indirect_In_Guaranteed
  | Indirect_Inout
  | Indirect_InoutAliasable =>
      (bits, requireBitsSet bits (get argumentOp) applyInst)
  | Direct_Owned
  | Direct_Unowned
  | Direct_Deallocating
  | Direct_Guaranteed => (bits, [])
  end.

(** The body of the loop over the operands of an apply site or of a
    yield: only the argument operands are checked. *)
Definition checkOperand (applyInst : InstructionId)
    (acc : Bits * list Failure) (op : Operand) : Bits * list Failure :=
  let '(bits, failures) := acc in
  match getArgumentConvention op with
  | Some convention =>
      let '(bits', failures') :=
        checkFuncArgument bits op convention applyInst in
      (bits', failures ++ failures')
  | None => (bits, failures)
  end.

Definition checkFuncArguments (bits : Bits) (allOperands : list Operand)
    (applyInst : InstructionId) : Bits * list Failure :=
  foldl (checkOperand applyInst) (bits, []) allOperands.

(** The body of the loop over the instructions in [checkBlock]: the new
    bits and the failures issued at the instruction [I]. *)
Definition checkInstruction (bits : Bits) (I : SILInstruction)
    (where_ : InstructionId) : Bits * list Failure :=
  match I with
  | LoadInst q operand =>
      (match q with
       | LoadTake => clearBits locations_ bits operand
       | _ => bits
       end,
       requireBitsSet bits operand where_)
  | StoreInst q dest =>
      match q with
      | StoreInit =>
          (setBits locations_ bits dest, requireBitsClear bits dest where_)
      | StoreAssign => (bits, requireBitsSet bits dest where_)
      | StoreTrivial => (setBits locations_ bits dest, [])
      | StoreUnqualified => (bits, [])
      end
  | CopyAddrInst src dest isTakeOfSrc isInitializationOfDest =>
      let failures1 := requireBitsSet bits src where_ in
      let bits1 :=
        if isTakeOfSrc then clearBits locations_ bits src else bits in
      if isInitializationOfDest then
        (setBits locations_ bits1 dest,
         failures1 ++ requireBitsClear bits1 dest where_)
      else (bits1, failures1 ++ requireBitsSet bits1 dest where_)
  | DestroyAddrInst opVal =>
      (clearBits locations_ bits opVal, requireBitsSet bits opVal where_)
  | EndBorrowInst singleOriginalValue =>
      match singleOriginalValue with
      | Some orig => (bits, requireBitsSet bits orig where_)
      | None => (bits, [])
      end
  | ApplyInst allOperands => checkFuncArguments bits allOperands where_
  | TryApplyInst allOperands _ _ =>
      checkFuncArguments bits allOperands where_
  | YieldInst allOperands _ _ =>
      checkFuncArguments bits allOperands where_
  | DebugValueAddrInst operand =>
      (bits, requireBitsSet bits operand where_)
  | DeallocStackInst operand =>
      (bits, requireBitsClear bits operand where_)
  | _ => (bits, [])
  end.

(** The loop over the instructions of [block], from position [pos]. *)
Fixpoint checkInstructions (block : BlockId) (pos : nat)
    (insts : list SILInstruction) (bits : Bits) : Bits * list Failure :=
  match insts with
  | [] => (bits, [])
  | inst :: rest =>
      let '(bits1, failures1) := checkInstruction bits inst (block, pos) in
      let '(bits2, failures2) :=
        checkInstructions block (S pos) rest bits1 in
      (bits2, failures1 ++ failures2)
  end.

(** Check all instructions in [block], starting with [bits] as entry
    set. *)
Definition checkBlock (block : BlockId) (bits : Bits)
  : Bits * list Failure :=
  checkInstructions block 0 (instructionsOf block)
                    (setBitsOfPredecessor bits block).

(** The bits which are required to be set at function exits. *)
Definition expectedReturnBits : Bits :=
  foldl (fun bits funcArg =>
           match getArgumentConventionOfArg funcArg with
           | Indirect_Inout
           | Indirect_In_Guaranteed
           | Indirect_Out => setBits locations_ bits (asValue funcArg)
           | _ => bits
           end)
        0%N (getArguments function).

Definition expectedThrowBits : Bits :=
  foldl (fun bits funcArg =>
           match getArgumentConventionOfArg funcArg with
           | Indirect_Inout
           | Indirect_In_Guaranteed =>
               setBits locations_ bits (asValue funcArg)
           | _ => bits
           end)
        0%N (getArguments function).

(** The position of the terminator of [block]. *)
Definition terminatorOf (block : BlockId) : InstructionId :=
  (block, pred (length (instructionsOf block))).

(** The check for a mismatch in location lifetime at the merge point, for
    one predecessor of [block]. *)
Definition checkPredecessor (dataFlow : list BlockState)
    (block : BlockId) (st : BlockState) (pred : BlockId) : list Failure :=
  match dataFlow !! pred with
  | Some predState =>
      if reachableFromEntry predState then
        requireBits (N.lxor (entrySet st) (exitSet predState))
                    "lifetime mismatch in predecessors" (block, 0)
      else []
  | None => []
  end.

(** The loop over the predecessors of [block]. *)
Definition checkPredecessors (dataFlow : list BlockState)
    (block : BlockId) (st : BlockState) : list Failure :=
  flat_map (checkPredecessor dataFlow block st)
           (getPredecessorBlocks function block).

(** The check of the bits at function exit. *)
Definition checkFunctionExit (block : BlockId) (st : BlockState)
  : list Failure :=
  let term := terminatorOf block in
  match last (instructionsOf block) with
  | Some ReturnInst
  | Some UnwindInst =>
      requireBits (N.ldiff expectedReturnBits (exitSet st))
        "indirect argument is not alive at function return" term
      ++ requireBits (N.ldiff (exitSet st) expectedReturnBits)
           "memory is initialized at function return but shouldn't" term
  | Some ThrowInst =>
      requireBits (N.ldiff expectedThrowBits (exitSet st))
        "indirect argument is not alive at throw" term
      ++ requireBits (N.ldiff (exitSet st) expectedThrowBits)
           "memory is initialized at throw but shouldn't" term
  | _ => []
  end.

(** The body of the loop over the block states in [checkFunction]. *)
Definition checkFunctionInBlock (dataFlow : list BlockState)
    (block : BlockId) (st : BlockState) : list Failure :=
  if negb (reachableFromEntry st) then []
  else
    (checkBlock block (entrySet st)).2
    ++ checkPredecessors dataFlow block st
    ++ checkFunctionExit block st.

(** Perform all checks in the function after the data flow has been
    computed. *)
Definition checkFunction (dataFlow : list BlockState) : list Failure :=
  concat (imap (checkFunctionInBlock dataFlow) dataFlow).

(** The assertion of [checkFunction] on the replayed bits of a block. *)
Definition replayAgreesWithExitSet (block : BlockId) (st : BlockState)
  : bool :=
  ((checkBlock block (entrySet st)).1 =? exitSet st)%N
  || match last (instructionsOf block) with
     | Some (TryApplyInst _ _ _) => true
     | _ => false
     end.

End Verifier.

Section Verify.

Variable shouldTrackLocation : SILType → bool.

Definition emptyLocations : MemoryLocations :=
  {| locations := []; addr2LocIdx := ∅; singleBlockLocations := [] |}.

(** First step of [verify]: the memory locations which (potentially) span
    multiple blocks. *)
Definition verifyMultiBlock (function : SILFunction)
    (L : MemoryLocations) : list Failure :=
  if decide (0 < getNumLocations L) then
    let dataFlow0 := MemoryDataflow function (getNumLocations L) in
    let dataFlow1 := entryReachabilityAnalysis function dataFlow0 in
    let dataFlow2 := initDataflow function L dataFlow1 in
    match solveDataflowForward function dataFlow2 with
    | Some dataFlow3 => checkFunction function L dataFlow3
    | None => []
    end
  else [].

(** The handler of the second step: the final bits (on which the handler
    asserts [bits.none()]) and the failures. *)
Definition singleBlockHandler (function : SILFunction)
    (L : MemoryLocations) (block : BlockId) : Bits * list Failure :=
  checkBlock function L block 0%N.

(** The main entry point to verify the lifetime of all memory locations
    in the function. *)
Definition verify (function : SILFunction) : list Failure :=
  let L := analyzeLocations shouldTrackLocation function emptyLocations in
  let failures1 := verifyMultiBlock function L in
  let '(handled, _) :=
    handleSingleBlockLocations shouldTrackLocation
                               (singleBlockHandler function) L in
  failures1 ++ flat_map snd handled.

End Verify.

(** ** The backward reachability analysis of MemoryDataflow *)

Definition setExitReachable (st : BlockState) : BlockState :=
  {| entrySet := entrySet st; genSet := genSet st; killSet := killSet st;
     exitSet := exitSet st; reachableFromEntry := reachableFromEntry st;
     exitReachable := true |}.

(** [state.block->getTerminator()->isFunctionExiting()]. *)
Definition hasFunctionExitingTerminator (function : SILFunction)
    (block : BlockId) : bool :=
  match blocks function !! block ≫= getTerminator with
  | Some term => isFunctionExiting term
  | None => false
  end.

(** The first loop of [exitReachableAnalysis], over the block states: the
    blocks with a function-exiting terminator are marked and pushed. *)
Definition markExitingBlocks (function : SILFunction)
    (states : list BlockState) : list BlockId * list BlockState :=
  foldl (fun '(workList, states) block =>
           match states !! block with
           | Some state =>
               if hasFunctionExitingTerminator function block
               then (block :: workList,
                     <[block := setExitReachable state]> states)
               else (workList, states)
           | None => (workList, states)
           end)
        ([], states) (seq 0 (length states)).

(** The loop over the predecessors of the popped block. *)
Definition markPredecessors (preds : list BlockId)
    (acc : list BlockId * list BlockState) : list BlockId * list BlockState :=
  foldl (fun '(workList, states) pred =>
           match states !! pred with
           | Some predState =>
               if negb (exitReachable predState)
               then (pred :: workList,
                     <[pred := setExitReachable predState]> states)
               else (workList, states)
           | None => (workList, states)
           end)
        acc preds.

(** The work list loop of [exitReachableAnalysis]; as in
    [entryReachabilityLoop] every block is pushed at most once. *)
Fixpoint exitReachableLoop (function : SILFunction) (fuel : nat)
    (workList : list BlockId) (states : list BlockState) : list BlockState :=
  match fuel with
  | O => states
  | S fuel' =>
      match workList with
      | [] => states
      | state :: workList' =>
          let '(workList'', states') :=
            markPredecessors (getPredecessorBlocks function state)
                             (workList', states) in
          exitReachableLoop function fuel' workList'' states'
      end
  end.

Definition exitReachableAnalysis (function : SILFunction)
    (states : list BlockState) : list BlockState :=
  let '(workList, states') := markExitingBlocks function states in
  exitReachableLoop function (length states) workList states'.

(** ** The backward solver of MemoryDataflow *)

(** The loop over the successors:
    [bits &= block2State[succ]->entrySet]. *)
Definition intersectEntrySets (states : list BlockState) (bits : Bits)
    (succs : list BlockId) : Bits :=
  foldl (fun bits succ =>
           match states !! succ with
           | Some succState => N.land bits (entrySet succState)
           | None => bits
           end)
        bits succs.

(** The body of the loop over the block states in one round of
    [solveDataflowBackward], for the block [idx]. *)
Definition solveBlockBackward (function : SILFunction) (firstRound : bool)
    (acc : bool * list BlockState) (idx : BlockId) : bool * list BlockState :=
  let '(changed, states) := acc in
  match states !! idx with
  | None => acc
  | Some st =>
      let succs :=
        match blocks function !! idx with
        | Some BB => getSuccessorBlocks BB
        | None => []
        end in
      let bits := intersectEntrySets states (exitSet st) succs in
      if firstRound || negb (bits =? exitSet st)%N then
        (true,
         <[idx := setEntrySet (N.ldiff (N.lor bits (genSet st)) (killSet st))
                              (setExitSet bits st)]> states)
      else (changed, states)
  end.

(** One round of the [do ... while (changed)] loop, over
    [llvm::reverse(blockStates)]. *)
Definition solveRoundBackward (function : SILFunction) (firstRound : bool)
    (states : list BlockState) : bool * list BlockState :=
  foldl (solveBlockBackward function firstRound) (false, states)
        (reverse (seq 0 (length states))).

(** The [do ... while (changed)] loop, for at most [fuel] rounds. *)
Fixpoint solveDataflowBackwardLoop (function : SILFunction) (fuel : nat)
    (firstRound : bool) (states : list BlockState)
  : option (list BlockState) :=
  match fuel with
  | O => None
  | S fuel' =>
      let '(changed, states') :=
        solveRoundBackward function firstRound states in
      if changed
      then solveDataflowBackwardLoop function fuel' false states'
      else Some states'
  end.

Definition sumExitBits (states : list BlockState) : nat :=
  foldr (fun st n => popcount (exitSet st) + n) 0 states.

(** The solver, run for as many rounds as the loop can take: the first
    round, one round for every bit which can still be cleared in an exit
    set, and the last round which changes nothing. *)
Definition solveDataflowBackward (function : SILFunction)
    (states : list BlockState) : option (list BlockState) :=
  solveDataflowBackwardLoop function (2 + sumExitBits states) true states.

(** ** Properties of the bit sets and of the solver *)

(** Inclusion of bit sets. *)
Definition subBits (a b : Bits) : Prop :=
  ∀ i, N.testbit a i = true → N.testbit b i = true.

(** The transfer function of a block: [(bits | genSet) - killSet]. *)
Definition transfer (st : BlockState) (bits : Bits) : Bits :=
  N.ldiff (N.lor bits (genSet st)) (killSet st).

(** The update of a block state by the solver. *)
Definition updateBlock (st : BlockState) (bits : Bits) : BlockState :=
  setExitSet (transfer st bits) (setEntrySet bits st).

(** The exit set is the transfer of the entry set. *)
Definition exitEq (st : BlockState) : Prop :=
  exitSet st = N.ldiff (N.lor (entrySet st) (genSet st)) (killSet st).

(** What the solver keeps true of the state [st] of block [b] in
    [states]. *)
Definition blockInv (function : SILFunction) (numBits : nat)
    (states0 states : list BlockState) (b : BlockId)
    (st : BlockState) : Prop :=
  (∃ st0, states0 !! b = Some st0
          ∧ genSet st = genSet st0 ∧ killSet st = killSet st0
          ∧ subBits (entrySet st) (entrySet st0)
          ∧ (b = 0 → getPredecessorBlocks function 0 = [] →
             entrySet st = entrySet st0))
  ∧ subBits (entrySet st) (N.ones (N.of_nat numBits))
  ∧ subBits (transfer st (entrySet st)) (exitSet st)
  ∧ (b ≠ 0 → ∀ i, (i < N.of_nat numBits)%N →
       (∀ p ps, p ∈ getPredecessorBlocks function b →
                states !! p = Some ps → N.testbit (exitSet ps) i = true) →
       N.testbit (entrySet st) i = true).

Definition solverInv (function : SILFunction) (numBits : nat)
    (states0 states : list BlockState) : Prop :=
  ∀ b st, states !! b = Some st → blockInv function numBits states0 states b st.


(** ** Properties of the failures of the verifier *)

(** The complaints of [requireBitsClear] and [requireBitsSet]. *)
Definition isBlockComplaint (c : string) : Prop :=
  c = "memory is initialized, but shouldn't"
  ∨ c = "memory is not initialized, but should".

(** A failure with the complaint [c] is signalled at the instruction [w]. *)
Definition signalled (failures : list Failure) (c : string)
    (w : InstructionId) : Prop :=
  ∃ failure, failure ∈ failures ∧ complaint failure = c ∧ where_ failure = w.

(** The conventions of the arguments which are expected to be alive at a
    return and at a throw. *)
Definition expectedAtReturn (funcArg : SILFunctionArgument) : Prop :=
  getArgumentConventionOfArg funcArg = Indirect_Inout
  ∨ getArgumentConventionOfArg funcArg = Indirect_In_Guaranteed
  ∨ getArgumentConventionOfArg funcArg = Indirect_Out.

Definition expectedAtThrow (funcArg : SILFunctionArgument) : Prop :=
  getArgumentConventionOfArg funcArg = Indirect_Inout
  ∨ getArgumentConventionOfArg funcArg = Indirect_In_Guaranteed.

(** The bits of the locations of the tracked arguments in [args] which
    satisfy [wanted]. *)
Definition bitOfArguments (L : MemoryLocations)
    (wanted : SILFunctionArgument → Prop) (args : list SILFunctionArgument)
    (i : N) : Prop :=
  ∃ funcArg loc,
    funcArg ∈ args ∧ wanted funcArg
    ∧ getLocation L (asValue funcArg) = Some loc
    ∧ N.testbit (subLocations loc) i = true.


(** The arguments which are alive at the function entry. *)
Definition notOut (funcArg : SILFunctionArgument) : Prop :=
  getArgumentConventionOfArg funcArg ≠ Indirect_Out.

(** The entry and exit sets are not touched by the gen/kill summary. *)
Definition sameEntryExit (st st' : BlockState) : Prop :=
  entrySet st' = entrySet st ∧ exitSet st' = exitSet st
  ∧ reachableFromEntry st' = reachableFromEntry st.


(** ** Properties of the location analysis *)

(** The kinds of the uses which are accepted without creating a location:
    loads, stores which are not trivially qualified, copies, destroys, the
    end of an access scope, arguments of calls and yields, and debug values
    and the deallocation of the stack location. *)
Definition isPlainKind (kind : SILInstructionKind.t) : bool :=
  match kind with
  | SILInstructionKind.StoreInst StoreTrivial => false
  | SILInstructionKind.StoreInst _
  | SILInstructionKind.LoadInst
  | SILInstructionKind.EndAccessInst
  | SILInstructionKind.LoadBorrowInst
  | SILInstructionKind.DestroyAddrInst
  | SILInstructionKind.ApplyInst
  | SILInstructionKind.TryApplyInst
  | SILInstructionKind.DebugValueAddrInst
  | SILInstructionKind.CopyAddrInst
  | SILInstructionKind.YieldInst
  | SILInstructionKind.DeallocStackInst => true
  | _ => false
  end.

Definition isBeginAccess (kind : SILInstructionKind.t) : bool :=
  match kind with
  | SILInstructionKind.BeginAccessInst => true
  | _ => false
  end.

Definition isProjection (kind : SILInstructionKind.t) : bool :=
  match kind with
  | SILInstructionKind.StructElementAddrInst _
  | SILInstructionKind.TupleElementAddrInst _ => true
  | _ => false
  end.

(** The field which a projection projects. *)
Definition projectedField (kind : SILInstructionKind.t) : option nat :=
  match kind with
  | SILInstructionKind.StructElementAddrInst fieldNo
  | SILInstructionKind.TupleElementAddrInst fieldNo => Some fieldNo
  | _ => None
  end.

(** The kinds of the uses which make a root unanalyzable: every kind which
    is not accepted and neither opens an access scope nor projects a
    field. *)
Definition isUnanalyzableKind (kind : SILInstructionKind.t) : bool :=
  negb (isPlainKind kind || isBeginAccess kind || isProjection kind).

(** A use which is accepted without creating a location: a plain use, or a
    [begin_access] of which all uses are accepted. *)
Inductive acceptedUse : SILNode → Prop :=
  | accepted_plain user :
      isPlainKind (getKind user) = true → acceptedUse user
  | accepted_access user :
      isBeginAccess (getKind user) = true →
      Forall acceptedUse (getUses user) → acceptedUse user.

(** [visitedUse V user]: [user] is a use of [V], or of an access scope or
    of a projection of [V]. *)
Inductive visitedUse : SILNode → SILNode → Prop :=
  | visited_use V user : user ∈ getUses V → visitedUse V user
  | visited_below V inner user :
      inner ∈ getUses V →
      isBeginAccess (getKind inner) = true
      ∨ isProjection (getKind inner) = true →
      visitedUse inner user → visitedUse V user.

(** [ancestorOrSelf locs a i]: the location [a] is the location [i] or one
    of its transitive parents. *)
Inductive ancestorOrSelf (locs : list Location) : nat → nat → Prop :=
  | ancestor_self i : ancestorOrSelf locs i i
  | ancestor_parent a i loc parent :
      locs !! i = Some loc →
      parentIdx loc = Z.of_nat parent →
      ancestorOrSelf locs a parent →
      ancestorOrSelf locs a i.

(** The parent of a location comes before the location in the table. *)
Definition parentsFirst (locs : list Location) : Prop :=
  ∀ i loc, locs !! i = Some loc → (parentIdx loc < Z.of_nat i)%Z.


Section ProjectionBookkeeping.

Variable shouldTrackLocation : SILType → bool.

(** The number of fields which [initFieldsCounter] computes for a type. *)
Definition numFields (type : SILType) : Z :=
  match type with
  | NominalType true _ => INT_MAX
  | NominalType false storedProperties =>
      countTrackedFields shouldTrackLocation storedProperties
  | TupleType elements => countTrackedFields shouldTrackLocation elements
  | BuiltinType _ => 0%Z
  end.

(** The counter of the parent after [initFieldsCounter] and the
    decrement. *)
Definition counterAfterProjection (parentLoc : Location) : Z :=
  ((if (0 <=? numFieldsNotCoveredBySubfields parentLoc)%Z
    then numFieldsNotCoveredBySubfields parentLoc
    else numFields (getType (representativeValue parentLoc))) - 1)%Z.

(** The [subLocations] of the parent and of its parents after the
    registration of the sub-location [subLocIdx]. *)
Definition subLocationsAfterProjection (parentLoc : Location)
    (parentLocIdx subLocIdx : nat) (bits : Bits) : Bits :=
  if (counterAfterProjection parentLoc =? 0)%Z
  then N.clearbit (setBitAndResize bits subLocIdx) (N.of_nat parentLocIdx)
  else setBitAndResize bits subLocIdx.

End ProjectionBookkeeping.

(** The state of the analysis of the root [root] is well formed: parents
    come first, the root has no parent, the locations after the root have
    their parent at or after the root, and the sub-location map names locations after the root. *)
Definition wfRoot (root : nat) (st : Analysis) : Prop :=
  let locs := locations (table st) in
  parentsFirst locs
  ∧ (∃ loc, locs !! root = Some loc ∧ (parentIdx loc < 0)%Z)
  ∧ (∀ i loc, locs !! i = Some loc → root < i →
              (Z.of_nat root ≤ parentIdx loc)%Z)
  ∧ (∀ key idx, subLocationMap st !! key = Some idx →
                root < idx < length locs).

(** What the analysis of the root [root] leaves untouched: the locations
    before the root, the single-block locations, and the entries of the
    address map of the values which it has not collected. *)
Definition extendsRoot (root : nat) (st st' : Analysis) : Prop :=
  take root (locations (table st')) = take root (locations (table st))
  ∧ length (locations (table st)) ≤ length (locations (table st'))
  ∧ singleBlockLocations (table st') = singleBlockLocations (table st)
  ∧ ∃ new,
      collectedVals st' = collectedVals st ++ new
      ∧ ∀ id, id ∉ getId <$> new →
              addr2LocIdx (table st') !! id = addr2LocIdx (table st) !! id.

(** The result of the analysis of the uses of the root [loc] in
    [analyzeLocation]: [false] makes [analyzeLocation] discard the root. *)
Definition analyzable (shouldTrackLocation : SILType → bool)
    (loc : SILNode) (L : MemoryLocations) : bool :=
  (analyzeLocationUsesRecursively shouldTrackLocation loc
     (length (locations L)) (withRootLocation loc L)).1.


(** ** Properties of the single-block locations *)

(** The number of the uses which are deallocations of the stack
    location. *)
Definition numDeallocStacks (uses : list SILNode) : nat :=
  length (filter (fun user => isDeallocStackInst user = true) uses).

(** Every deallocation among the uses is in the block [BB]. *)
Definition deallocStacksIn (BB : BlockId) (uses : list SILNode) : Prop :=
  Forall (fun user => isDeallocStackInst user = true → getParent user = BB)
         uses.


(** The number of the sub-locations of the location [p] in the table. *)
Definition numChildren (locs : list Location) (p : nat) : nat :=
  length (filter (fun parent => parent = Z.of_nat p) (parentIdx <$> locs)).

(** The bookkeeping of the location [p]: as long as fewer sub-locations
    than the type has fields are registered, the counter is the number of
    the fields without a sub-location and the bit of [p] is set in the
    [subLocations] of [p] and of all its parents; when all the fields have
    a sub-location the bit of [p] is cleared in all of them. *)
Definition locationInv (shouldTrackLocation : SILType → bool)
    (locs : list Location) (p : nat) (loc : Location) : Prop :=
  let n := Z.of_nat (numChildren locs p) in
  let N := numFields shouldTrackLocation (getType (representativeValue loc)) in
  (n = 0%Z → numFieldsNotCoveredBySubfields loc = (-1)%Z)
  ∧ ((0 < n ≤ N)%Z → numFieldsNotCoveredBySubfields loc = (N - n)%Z)
  ∧ (n = 0%Z ∨ (n < N)%Z →
     ∀ a loca, ancestorOrSelf locs a p → locs !! a = Some loca →
               N.testbit (subLocations loca) (N.of_nat p) = true)
  ∧ ((0 < n)%Z ∧ n = N →
     ∀ a loca, ancestorOrSelf locs a p → locs !! a = Some loca →
               N.testbit (subLocations loca) (N.of_nat p) = false).

Definition projectionInv (shouldTrackLocation : SILType → bool)
    (locs : list Location) : Prop :=
  parentsFirst locs
  ∧ ∀ p loc, locs !! p = Some loc →
             locationInv shouldTrackLocation locs p loc.

(** The instructions at which the summary of a block and the replay are
    meant to have the same effect: an unqualified store is not in ownership
    SIL, and the out arguments of a [try_apply] are handled in the
    successor block. *)
Definition summarizable (inst : SILInstruction) : bool :=
  match inst with
  | StoreInst StoreUnqualified _ => false
  | TryApplyInst _ _ _ => false
  | _ => true
  end.

(** The solver leaves the summary of a block and its reachability as
    they are. *)
Definition sameSummary (st st' : BlockState) : Prop :=
  genSet st' = genSet st ∧ killSet st' = killSet st
  ∧ reachableFromEntry st' = reachableFromEntry st.

(** The gen and kill sets of all block states are empty. *)
Definition clearSummaries (states : list BlockState) : Prop :=
  ∀ b st, states !! b = Some st → genSet st = 0%N ∧ killSet st = 0%N.

(** The [subLocations] of a location hold bits of the location itself and
    of its transitive sub-locations only. *)
Definition subLocationsInv (locs : list Location) : Prop :=
  parentsFirst locs
  ∧ ∀ p loc i,
      locs !! p = Some loc → N.testbit (subLocations loc) i = true →
      ∃ j, i = N.of_nat j ∧ j < length locs ∧ ancestorOrSelf locs p j.

(** The sub-locations of a location are projections of fields of the
    location, of one field each. *)
Definition distinctFields (locs : list Location) : Prop :=
  parentsFirst locs
  ∧ (∀ c loc, locs !! c = Some loc → (0 ≤ parentIdx loc)%Z →
              is_Some (projectedField (getKind (representativeValue loc))))
  ∧ ∀ c1 c2 loc1 loc2,
      locs !! c1 = Some loc1 → locs !! c2 = Some loc2 →
      (0 ≤ parentIdx loc1)%Z → parentIdx loc1 = parentIdx loc2 →
      projectedField (getKind (representativeValue loc1))
      = projectedField (getKind (representativeValue loc2)) →
      c1 = c2.

(** During the analysis of the root [root] the sub-location map names
    the sub-location of every projected field. *)
Definition subLocationFields (root : nat) (st : Analysis) : Prop :=
  ∀ c loc,
    locations (table st) !! c = Some loc → root < c →
    ∃ parent fieldNr,
      parentIdx loc = Z.of_nat parent
      ∧ projectedField (getKind (representativeValue loc)) = Some fieldNr
      ∧ subLocationMap st !! (parent, fieldNr) = Some c.

(** ** Reachability in the control flow graph *)

(** The block [b] is reachable from the entry block along successor
    edges. *)
Inductive reachableBlock (function : SILFunction) : BlockId → Prop :=
  | reachable_entry : reachableBlock function 0
  | reachable_successor b BB succ :
      reachableBlock function b →
      blocks function !! b = Some BB →
      succ ∈ getSuccessorBlocks BB →
      reachableBlock function succ.

(** A block with a function-exiting terminator is reachable from the block
    [b] along successor edges. *)
Inductive reachesExit (function : SILFunction) : BlockId → Prop :=
  | reaches_exit_here b :
      hasFunctionExitingTerminator function b = true →
      reachesExit function b
  | reaches_exit_predecessor b pred :
      reachesExit function b →
      pred ∈ getPredecessorBlocks function b →
      reachesExit function pred.

(** A work list algorithm over the block states: [neighbours] gives the
    blocks to mark from a popped block, [flag] and [setFlag] read and set
    the mark. *)
Section WorklistLoop.

Variable neighbours : BlockId → list BlockId.
Variable flag : BlockState → bool.
Variable setFlag : BlockState → BlockState.

Definition markNeighbours (nbs : list BlockId)
    (acc : list BlockId * list BlockState) : list BlockId * list BlockState :=
  foldl (fun '(workList, states) nb =>
           match states !! nb with
           | Some nbState =>
               if negb (flag nbState)
               then (nb :: workList, <[nb := setFlag nbState]> states)
               else (workList, states)
           | None => (workList, states)
           end)
        acc nbs.

Fixpoint worklistLoop (fuel : nat) (workList : list BlockId)
    (states : list BlockState) : list BlockState :=
  match fuel with
  | O => states
  | S fuel' =>
      match workList with
      | [] => states
      | state :: workList' =>
          let '(workList'', states') :=
            markNeighbours (neighbours state) (workList', states) in
          worklistLoop fuel' workList'' states'
      end
  end.

(** The blocks reached from the blocks in [roots] along [neighbours]. *)
Inductive reached (roots : BlockId → Prop) : BlockId → Prop :=
  | reached_root b : roots b → reached roots b
  | reached_step b nb :
      reached roots b → nb ∈ neighbours b → reached roots nb.

Definition numUnflagged (states : list BlockState) : nat :=
  length (filter (fun st => flag st = false) states).

(** What the loop keeps true of the work list and the states. *)
Definition worklistInv (roots : BlockId → Prop) (states0 : list BlockState)
    (workList : list BlockId) (states : list BlockState) : Prop :=
  length states = length states0
  ∧ (∀ b st, states !! b = Some st →
        ∃ st0, states0 !! b = Some st0
               ∧ (st = st0 ∨ (flag st0 = false ∧ st = setFlag st0)))
  ∧ (∀ b st, states !! b = Some st → flag st = true → reached roots b)
  ∧ (∀ b, b ∈ workList → ∃ st, states !! b = Some st ∧ flag st = true)
  ∧ (∀ b st nb nbState,
        states !! b = Some st → flag st = true → b ∉ workList →
        nb ∈ neighbours b → states !! nb = Some nbState →
        flag nbState = true).

End WorklistLoop.

(** The successors of the block [b] of the function. *)
Definition successorsOf (function : SILFunction) (b : BlockId)
  : list BlockId :=
  match blocks function !! b with
  | Some BB => getSuccessorBlocks BB
  | None => []
  end.

(** The sets of a block state and the other mark are what they were. *)
Definition sameSets (st st' : BlockState) : Prop :=
  entrySet st' = entrySet st ∧ genSet st' = genSet st
  ∧ killSet st' = killSet st ∧ exitSet st' = exitSet st.

(** The block states of the blocks which are not reachable from the entry
    are as [initDataflow] leaves them: all-ones entry and exit sets, empty
    gen and kill sets. *)
Definition unreachableIgnored (function : SILFunction) (numBits : nat)
    (states : list BlockState) : Prop :=
  ∀ b st, states !! b = Some st → ¬ reachableBlock function b →
          entrySet st = N.ones (N.of_nat numBits)
          ∧ exitSet st = N.ones (N.of_nat numBits)
          ∧ genSet st = 0%N ∧ killSet st = 0%N.

(** The [selfAndParents] of a location hold the bit of the location and
    the bits of its transitive parents, and no other bit. *)
Definition selfAndParentsInv (locs : list Location) : Prop :=
  parentsFirst locs
  ∧ ∀ p loc i,
      locs !! p = Some loc →
      (N.testbit (selfAndParents loc) i = true ↔
       ∃ a, i = N.of_nat a ∧ ancestorOrSelf locs a p).

(** Every entry of the address map names a location of the table. *)
Definition addrValid (L : MemoryLocations) : Prop :=
  ∀ id idx, addr2LocIdx L !! id = Some idx → idx < length (locations L).

(** The location [root] of the table is the root location of [loc]. *)
Definition rootIs (loc : SILNode) (root : nat) (st : Analysis) : Prop :=
  ∃ rootLoc, locations (table st) !! root = Some rootLoc
             ∧ representativeValue rootLoc = loc
             ∧ parentIdx rootLoc = (-1)%Z.

(** ** The runs of single-block locations *)

(** The maximal runs of consecutive single-block locations of one block,
    the run [g] of the block [b] being the current one. *)
Fixpoint groupFrom (b : BlockId) (g : list SILNode) (SVIs : list SILNode)
  : list (BlockId * list SILNode) :=
  match SVIs with
  | [] => [(b, g)]
  | SVI :: rest =>
      if decide (getParent SVI = b) then groupFrom b (g ++ [SVI]) rest
      else (b, g) :: groupFrom (getParent SVI) [SVI] rest
  end.

Definition groupByBlock (SVIs : list SILNode)
  : list (BlockId * list SILNode) :=
  match SVIs with
  | [] => []
  | SVI :: rest => groupFrom (getParent SVI) [SVI] rest
  end.

(** The table of the locations of one run: the run is analyzed in the
    cleared table. *)
Definition analyzeGroup (shouldTrackLocation : SILType → bool)
    (L : MemoryLocations) (g : list SILNode) : MemoryLocations :=
  foldl (fun L' SVI => analyzeLocation shouldTrackLocation SVI L')
        (clear L) g.

(** The runs are not empty, the locations of a run are in the block of
    the run, and neighbouring runs are of different blocks. *)
Definition wellGrouped (groups : list (BlockId * list SILNode)) : Prop :=
  (∀ b g, (b, g) ∈ groups → g ≠ [] ∧ ∀ SVI, SVI ∈ g → getParent SVI = b)
  ∧ ∀ i b1 g1 b2 g2,
      groups !! i = Some (b1, g1) → groups !! S i = Some (b2, g2) →
      b1 ≠ b2.

(** ** The location which a failure names *)

(** The sub-location bits of the locations of the table are bits of
    locations of the table. *)
Definition subLocationsBounded (L : MemoryLocations) : Prop :=
  ∀ i loc, locations L !! i = Some loc →
           subBits (subLocations loc) (N.ones (N.of_nat (getNumLocations L))).

(** The failure names one of the [numLocations] locations. *)
Definition namesLocation (numLocations : nat) (failure : Failure) : Prop :=
  (0 ≤ locationIdx failure < Z.of_nat numLocations)%Z.

(** The sets of the block states have [numBits] bits. *)
Definition setsBounded (numBits : nat) (states : list BlockState) : Prop :=
  ∀ b st, states !! b = Some st →
          subBits (entrySet st) (N.ones (N.of_nat numBits))
          ∧ subBits (exitSet st) (N.ones (N.of_nat numBits))
          ∧ subBits (genSet st) (N.ones (N.of_nat numBits)).

(** ** The greatest solution of the data flow equations *)

(** The assignment [X] of bits to the blocks lies below the block states
    [states]: the bits of a block are in its entry set and their transfer
    is in its exit set, the gen and kill sets being those of [states0]. *)
Definition belowStates (X : BlockId → Bits) (states0 states : list BlockState)
  : Prop :=
  ∀ b st, states !! b = Some st →
          (∃ st0, states0 !! b = Some st0
                  ∧ genSet st = genSet st0 ∧ killSet st = killSet st0)
          ∧ subBits (X b) (entrySet st)
          ∧ subBits (transfer st (X b)) (exitSet st).

(** The assignment [X] is consistent with the flow: the bits of a block
    are in the transfer of the bits of each of its predecessors. *)
Definition flowConsistent (function : SILFunction) (X : BlockId → Bits)
    (states : list BlockState) : Prop :=
  ∀ b p ps, b < length states → p ∈ getPredecessorBlocks function b →
            states !! p = Some ps → subBits (X b) (transfer ps (X p)).

(** ** The single-block locations of a function *)

(** The stack allocation which [analyzeLocations] defers to the
    single-block handling at the instruction [inst], if any. *)
Definition deferredAllocation (inst : SILInstruction) : list SILNode :=
  match inst with
  | AllocStackInst false ASI => if allUsesInSameBlock ASI then [ASI] else []
  | _ => []
  end.

Definition deferredAllocations (function : SILFunction) : list SILNode :=
  flat_map (fun BB => flat_map deferredAllocation (instructions BB))
           (blocks function).

(** The parent of a stack allocation is the block which holds the
    instruction. *)
Definition parentsAreBlocks (function : SILFunction) : Prop :=
  ∀ b BB hasDynamicLifetime ASI,
    blocks function !! b = Some BB →
    AllocStackInst hasDynamicLifetime ASI ∈ instructions BB →
    getParent ASI = b.

(** The blocks of the values do not decrease along the list, from [lo]
    on. *)
Fixpoint nonDecreasing (lo : BlockId) (SVIs : list SILNode) : Prop :=
  match SVIs with
  | [] => True
  | SVI :: rest => lo ≤ getParent SVI ∧ nonDecreasing (getParent SVI) rest
  end.

(** The blocks of the runs increase along the list, from [lo] on. *)
Fixpoint increasing (lo : BlockId) (groups : list (BlockId * list SILNode))
  : Prop :=
  match groups with
  | [] => True
  | (b, _) :: rest => lo ≤ b ∧ increasing (S b) rest
  end.

(** ** The backward solver *)

(** The update of a block state by the backward solver. *)
Definition updateBlockBackward (st : BlockState) (bits : Bits) : BlockState :=
  setEntrySet (transfer st bits) (setExitSet bits st).

(** The entry set is the transfer of the exit set. *)
Definition entryEq (st : BlockState) : Prop :=
  entrySet st = N.ldiff (N.lor (exitSet st) (genSet st)) (killSet st).

(** The state [st'] of a block after rounds of the backward solver,
    against the state [st] before them: the exit set has shrunk, and the
    gen set, the kill set and the reachability marks are the same. *)
Definition exitShrunk (st st' : BlockState) : Prop :=
  subBits (exitSet st') (exitSet st)
  ∧ genSet st' = genSet st ∧ killSet st' = killSet st
  ∧ reachableFromEntry st' = reachableFromEntry st
  ∧ exitReachable st' = exitReachable st.

(** The assignment [X] of bits to the blocks lies below the block states
    [states]: the bits of a block are in its exit set and their transfer
    is in its entry set, the gen and kill sets being those of [states0]. *)
Definition belowStatesBackward (X : BlockId → Bits)
    (states0 states : list BlockState) : Prop :=
  ∀ b st, states !! b = Some st →
          (∃ st0, states0 !! b = Some st0
                  ∧ genSet st = genSet st0 ∧ killSet st = killSet st0)
          ∧ subBits (X b) (exitSet st)
          ∧ subBits (transfer st (X b)) (entrySet st).

(** The assignment [X] is consistent with the backward flow: the bits of
    a block are in the transfer of the bits of each of its successors. *)
Definition flowConsistentBackward (function : SILFunction)
    (X : BlockId → Bits) (states : list BlockState) : Prop :=
  ∀ b s ss, b < length states → s ∈ successorsOf function b →
            states !! s = Some ss → subBits (X b) (transfer ss (X s)).

(** ** Example functions *)

(** Every type is tracked. *)
Definition trackAll (type : SILType) : bool := true.

Definition exampleType : SILType := NominalType false [].

(** A user without uses of its own. *)
Definition exampleUser (kind : SILInstructionKind.t) (id : ValueId)
    (parent : BlockId) : SILNode :=
  {| getKind := kind; getId := id; getParent := parent;
     getType := exampleType; getUses := [] |}.

(** [bb0: br bb1;  bb1: return]. *)
Definition branchFunction : SILFunction :=
  {| getArguments := [];
     blocks := [ {| instructions := [OtherInst [1]] |};
                 {| instructions := [ReturnInst] |} ] |}.

(** One location, live at the function entry and killed in [bb1]; the
    sets are seeded as [initDataflow] seeds them. *)
Definition seededStates : list BlockState :=
  [ {| entrySet := 1; genSet := 0; killSet := 0; exitSet := 1;
       reachableFromEntry := true; exitReachable := false |};
    {| entrySet := 1; genSet := 0; killSet := 1; exitSet := 1;
       reachableFromEntry := true; exitReachable := false |} ]%N.

(** The entry set of [bb1] is cleared instead of being all-ones. *)
Definition unseededStates : list BlockState :=
  [ {| entrySet := 1; genSet := 0; killSet := 0; exitSet := 1;
       reachableFromEntry := true; exitReachable := false |};
    {| entrySet := 0; genSet := 0; killSet := 0; exitSet := 1;
       reachableFromEntry := true; exitReachable := false |} ]%N.

(** An [@inout] argument which is destroyed and not initialized again:
    [bb0(%1 : $*T): destroy_addr %1; return]. *)
Definition inoutArgument : SILFunctionArgument :=
  {| argValue :=
       {| getKind := SILInstructionKind.SILFunctionArgument; getId := 1;
          getParent := 0; getType := exampleType;
          getUses := [exampleUser SILInstructionKind.DestroyAddrInst 2 0] |};
     getArgumentConventionOfArg := Indirect_Inout |}.

Definition destroyInoutFunction : SILFunction :=
  {| getArguments := [inoutArgument];
     blocks := [ {| instructions := [DestroyAddrInst (Value 1);
                                     ReturnInst] |} ] |}.

(** The table and the solved block states of a function, as [verify]
    computes them. *)
Definition tableOf (function : SILFunction) : MemoryLocations :=
  analyzeLocations trackAll function emptyLocations.

Definition solvedStatesOf (function : SILFunction) : list BlockState :=
  let L := tableOf function in
  default []
    (solveDataflowForward function
       (initDataflow function L
          (entryReachabilityAnalysis function
             (MemoryDataflow function (getNumLocations L))))).

(** An [@out] argument which is initialized by a [try_apply]:
    [bb0(%1 : $*T): try_apply %f(%1), normal bb1, error bb2;
     bb1: return;  bb2: throw]. *)
Definition outArgument : SILFunctionArgument :=
  {| argValue :=
       {| getKind := SILInstructionKind.SILFunctionArgument; getId := 1;
          getParent := 0; getType := exampleType;
          getUses := [exampleUser SILInstructionKind.TryApplyInst 2 0] |};
     getArgumentConventionOfArg := Indirect_Out |}.

Definition outOperand : Operand :=
  {| get := Value 1; getArgumentConvention := Some Indirect_Out |}.

Definition tryApplyFunction : SILFunction :=
  {| getArguments := [outArgument];
     blocks := [ {| instructions := [TryApplyInst [outOperand] 1 2] |};
                 {| instructions := [ReturnInst] |};
                 {| instructions := [ThrowInst] |} ] |}.

(** The same call, whose normal successor [bb3] has a second
    predecessor:
    [bb0: cond_br bb1, bb2;
     bb1: try_apply %f(%1), normal bb3, error bb4;
     bb2: br bb3;  bb3: return;  bb4: throw]. *)
Definition mergingTryApplyFunction : SILFunction :=
  {| getArguments := [outArgument];
     blocks := [ {| instructions := [OtherInst [1; 2]] |};
                 {| instructions := [TryApplyInst [outOperand] 3 4] |};
                 {| instructions := [OtherInst [3]] |};
                 {| instructions := [ReturnInst] |};
                 {| instructions := [ThrowInst] |} ] |}.

(** A block state as the constructor of [MemoryDataflow] creates it. *)
Definition clearedState : BlockState :=
  {| entrySet := 0; genSet := 0; killSet := 0; exitSet := 0;
     reachableFromEntry := false; exitReachable := false |}%N.

(** An [@out] argument which is assigned and not initialized:
    [bb0(%1 : $*T): store %x to [assign] %1; return]. *)
Definition assignedOutArgument : SILFunctionArgument :=
  {| argValue :=
       {| getKind := SILInstructionKind.SILFunctionArgument; getId := 1;
          getParent := 0; getType := exampleType;
          getUses :=
            [exampleUser (SILInstructionKind.StoreInst StoreAssign) 2 0] |};
     getArgumentConventionOfArg := Indirect_Out |}.

Definition storeAssignFunction : SILFunction :=
  {| getArguments := [assignedOutArgument];
     blocks := [ {| instructions := [StoreInst StoreAssign (Value 1);
                                     ReturnInst] |} ] |}.

(** An [@inout] and an [@out] argument:
    [bb0(%1 : $*T, %3 : $*T): destroy_addr %1; br bb1;  bb1: return]. *)
Definition secondOutArgument : SILFunctionArgument :=
  {| argValue :=
       {| getKind := SILInstructionKind.SILFunctionArgument; getId := 3;
          getParent := 0; getType := exampleType; getUses := [] |};
     getArgumentConventionOfArg := Indirect_Out |}.

Definition inoutOutFunction : SILFunction :=
  {| getArguments := [inoutArgument; secondOutArgument];
     blocks := [ {| instructions := [DestroyAddrInst (Value 1);
                                     OtherInst [1]] |};
                 {| instructions := [ReturnInst] |} ] |}.

(** The block states of a function before the solver runs, as [verify]
    computes them. *)
Definition seededStatesOf (function : SILFunction) : list BlockState :=
  let L := tableOf function in
  initDataflow function L
    (entryReachabilityAnalysis function
       (MemoryDataflow function (getNumLocations L))).

(** A stack location with a trivially qualified store:
    [%1 = alloc_stack $T; store %x to [trivial] %1]. *)
Definition triviallyStoredRoot : SILNode :=
  {| getKind := SILInstructionKind.AllocStackInst; getId := 1;
     getParent := 0; getType := exampleType;
     getUses :=
       [exampleUser (SILInstructionKind.StoreInst StoreTrivial) 2 0] |}.

(** A stack location which is initialized, loaded and destroyed in an
    access scope:
    [%1 = alloc_stack $T; store %x to [init] %1;
     %3 = begin_access [read] %1; %4 = load [copy] %3; end_access %3;
     destroy_addr %1]. *)
Definition plainlyUsedRoot : SILNode :=
  {| getKind := SILInstructionKind.AllocStackInst; getId := 1;
     getParent := 0; getType := exampleType;
     getUses :=
       [ exampleUser (SILInstructionKind.StoreInst StoreInit) 2 0;
         {| getKind := SILInstructionKind.BeginAccessInst; getId := 3;
            getParent := 0; getType := exampleType;
            getUses := [ exampleUser SILInstructionKind.LoadInst 4 0;
                         exampleUser SILInstructionKind.EndAccessInst 5 0 ]
         |};
         exampleUser SILInstructionKind.DestroyAddrInst 6 0 ] |}.

(** A stack location which is initialized, loaded, destroyed and
    deallocated in one block:
    [bb0: %1 = alloc_stack $T; store %x to [init] %1; %3 = load [copy] %1;
          destroy_addr %1; dealloc_stack %1; return]. *)
Definition singleBlockRoot : SILNode :=
  {| getKind := SILInstructionKind.AllocStackInst; getId := 1;
     getParent := 0; getType := exampleType;
     getUses :=
       [ exampleUser (SILInstructionKind.StoreInst StoreInit) 2 0;
         exampleUser SILInstructionKind.LoadInst 3 0;
         exampleUser SILInstructionKind.DestroyAddrInst 4 0;
         exampleUser SILInstructionKind.DeallocStackInst 5 0 ] |}.

Definition singleBlockFunction : SILFunction :=
  {| getArguments := [];
     blocks := [ {| instructions :=
                      [ AllocStackInst false singleBlockRoot;
                        StoreInst StoreInit (Value 1);
                        LoadInst LoadCopy (Value 1);
                        DestroyAddrInst (Value 1);
                        DeallocStackInst (Value 1);
                        ReturnInst ] |} ] |}.

(** A stack location without a deallocation, in a block which ends in an
    [unreachable]:
    [bb0: %1 = alloc_stack $T; store %x to [init] %1; unreachable]. *)
Definition leakedRoot : SILNode :=
  {| getKind := SILInstructionKind.AllocStackInst; getId := 1;
     getParent := 0; getType := exampleType;
     getUses := [exampleUser (SILInstructionKind.StoreInst StoreInit) 2 0] |}.

(** An [@in_guaranteed] argument of a struct type with two fields, of
    which both fields are projected and loaded:
    [bb0(%1 : $*S): %2 = struct_element_addr %1, #S.a; %3 = load [copy] %2;
                    %4 = struct_element_addr %1, #S.b; %5 = load [copy] %4;
                    return]. *)
Definition structType : SILType :=
  NominalType false [exampleType; exampleType].

Definition fieldProjection (fieldNo : nat) (id loadId : ValueId) : SILNode :=
  {| getKind := SILInstructionKind.StructElementAddrInst fieldNo;
     getId := id; getParent := 0; getType := exampleType;
     getUses := [exampleUser SILInstructionKind.LoadInst loadId 0] |}.

Definition structArgument : SILFunctionArgument :=
  {| argValue :=
       {| getKind := SILInstructionKind.SILFunctionArgument; getId := 1;
          getParent := 0; getType := structType;
          getUses := [fieldProjection 0 2 3; fieldProjection 1 4 5] |};
     getArgumentConventionOfArg := Indirect_In_Guaranteed |}.

Definition structFunction : SILFunction :=
  {| getArguments := [structArgument];
     blocks := [ {| instructions := [ LoadInst LoadCopy (Value 2);
                                      LoadInst LoadCopy (Value 4);
                                      ReturnInst ] |} ] |}.

(** The same argument with a resilient struct type, of which one field is
    projected and loaded. *)
Definition resilientType : SILType := NominalType true [].

Definition resilientArgument : SILFunctionArgument :=
  {| argValue :=
       {| getKind := SILInstructionKind.SILFunctionArgument; getId := 1;
          getParent := 0; getType := resilientType;
          getUses := [fieldProjection 0 2 3] |};
     getArgumentConventionOfArg := Indirect_In_Guaranteed |}.

Definition resilientFunction : SILFunction :=
  {| getArguments := [resilientArgument];
     blocks := [ {| instructions := [ LoadInst LoadCopy (Value 2);
                                      ReturnInst ] |} ] |}.

(** [bb0: cond_br bb1, bb3;  bb1: return;  bb2: br bb1;  bb3: br bb3]:
    [bb2] is not reachable from the entry, and no exit is reachable from
    [bb3]. *)
Definition loopingFunction : SILFunction :=
  {| getArguments := [];
     blocks := [ {| instructions := [OtherInst [1; 3]] |};
                 {| instructions := [ReturnInst] |};
                 {| instructions := [OtherInst [1]] |};
                 {| instructions := [OtherInst [3]] |} ] |}.

(** Two blocks with a stack location each, both used in their block only:
    [bb0: %1 = alloc_stack $T; store %x to [init] %1; destroy_addr %1;
          dealloc_stack %1; br bb1;
     bb1: %6 = alloc_stack $T; store %x to [init] %6; destroy_addr %6;
          dealloc_stack %6; return]. *)
Definition secondBlockRoot : SILNode :=
  {| getKind := SILInstructionKind.AllocStackInst; getId := 6;
     getParent := 1; getType := exampleType;
     getUses :=
       [ exampleUser (SILInstructionKind.StoreInst StoreInit) 7 1;
         exampleUser SILInstructionKind.DestroyAddrInst 8 1;
         exampleUser SILInstructionKind.DeallocStackInst 9 1 ] |}.

Definition twoBlockFunction : SILFunction :=
  {| getArguments := [];
     blocks := [ {| instructions :=
                      [ AllocStackInst false singleBlockRoot;
                        StoreInst StoreInit (Value 1);
                        DestroyAddrInst (Value 1);
                        DeallocStackInst (Value 1);
                        OtherInst [1] ] |};
                 {| instructions :=
                      [ AllocStackInst false secondBlockRoot;
                        StoreInst StoreInit (Value 6);
                        DestroyAddrInst (Value 6);
                        DeallocStackInst (Value 6);
                        ReturnInst ] |} ] |}.

(** * Proofs *)

Set Warnings "-clear-no-such-hyp".

(** ** The forward solver *)

Lemma popcount_Ndouble n : popcount (Pos.Ndouble n) = popcount n.
Proof. by destruct n. Qed.

Lemma popcount_Nsucc_double n : popcount (Pos.Nsucc_double n) = S (popcount n).
Proof. by destruct n. Qed.

Lemma popcountPos_pos p : 0 < popcountPos p.
Proof. induction p; simpl; lia. Qed.

Lemma Nsucc_double_inj n p : Pos.Nsucc_double n = N.pos p~1 → n = N.pos p.
Proof. destruct n; simpl; congruence. Qed.

Lemma Ndouble_inj n p : Pos.Ndouble n = N.pos p~0 → n = N.pos p.
Proof. destruct n; simpl; congruence. Qed.

Lemma popcount_land_pos p q :
  popcount (Pos.land p q) ≤ popcountPos p
  ∧ (Pos.land p q ≠ Npos p → popcount (Pos.land p q) < popcountPos p).
Proof.
  revert q. induction p as [p IH|p IH|]; intros [q|q|];
    try (destruct (IH q) as [Hle Hlt]); try pose proof (popcountPos_pos p).
  - change (Pos.land p~1 q~1) with (Pos.Nsucc_double (Pos.land p q)).
    rewrite popcount_Nsucc_double. simpl. split; [lia|]. intros Hne.
    destruct (decide (Pos.land p q = N.pos p)) as [E|Hne'].
    + rewrite E in Hne. done.
    + specialize (Hlt Hne'). lia.
  - change (Pos.land p~1 q~0) with (Pos.Ndouble (Pos.land p q)).
    rewrite popcount_Ndouble. simpl. split; lia.
  - simpl. split; lia.
  - change (Pos.land p~0 q~1) with (Pos.Ndouble (Pos.land p q)).
    rewrite popcount_Ndouble. simpl. split; [lia|]. intros Hne.
    destruct (decide (Pos.land p q = N.pos p)) as [E|Hne'].
    + rewrite E in Hne. done.
    + specialize (Hlt Hne'). lia.
  - change (Pos.land p~0 q~0) with (Pos.Ndouble (Pos.land p q)).
    rewrite popcount_Ndouble. simpl. split; [lia|]. intros Hne.
    destruct (decide (Pos.land p q = N.pos p)) as [E|Hne'].
    + rewrite E in Hne. done.
    + specialize (Hlt Hne'). lia.
  - simpl. split; lia.
  - simpl. split; [lia|done].
  - simpl. split; lia.
  - simpl. split; [lia|done].
Qed.

Lemma popcount_land_le a b : popcount (N.land a b) ≤ popcount a.
Proof.
  destruct a as [|p], b as [|q]; simpl; try lia.
  apply popcount_land_pos.
Qed.

Lemma popcount_land_lt a b :
  N.land a b ≠ a → popcount (N.land a b) < popcount a.
Proof.
  destruct a as [|p], b as [|q]; simpl; try done.
  - intros _. apply popcountPos_pos.
  - apply popcount_land_pos.
Qed.

Lemma subBits_land a b : subBits a b ↔ N.land a b = a.
Proof.
  split.
  - intros H. apply N.bits_inj. intros i. rewrite N.land_spec.
    specialize (H i). destruct (N.testbit a i), (N.testbit b i); naive_solver.
  - intros H i Ha. rewrite <- H in Ha. rewrite N.land_spec in Ha.
    by apply andb_true_iff in Ha as [_ ?].
Qed.

Lemma testbit_intersectExitSets states preds bits i :
  N.testbit (intersectExitSets states bits preds) i = true ↔
  N.testbit bits i = true
  ∧ ∀ p ps, p ∈ preds → states !! p = Some ps →
            N.testbit (exitSet ps) i = true.
Proof.
  revert bits. induction preds as [|p preds IH]; intros bits; simpl.
  - split; [intros H; split; [done|] | by intros [H _]].
    intros p ps Hp. by apply elem_of_nil in Hp.
  - rewrite IH. destruct (states !! p) as [predState|] eqn:Hp.
    + rewrite N.land_spec, andb_true_iff. split.
      * intros [[Hb He] Hall]. split; [done|].
        intros p' ps' [->|Hin]%elem_of_cons Hl; [congruence|eauto].
      * intros [Hb Hall]. split; [split; [done|]|].
        -- eapply Hall; [left|done].
        -- intros p' ps' Hin Hl. eapply Hall; [by right|done].
    + split.
      * intros [Hb Hall]. split; [done|].
        intros p' ps' [->|Hin]%elem_of_cons Hl; [congruence|eauto].
      * intros [Hb Hall]. split; [done|].
        intros p' ps' Hin Hl. eapply Hall; [by right|done].
Qed.

Lemma intersectExitSets_land states preds bits :
  N.land (intersectExitSets states bits preds) bits = intersectExitSets states bits preds.
Proof.
  apply subBits_land. intros i Hi. by apply testbit_intersectExitSets in Hi as [? _].
Qed.

(** The ways in which the body of the loop treats a block. *)
Lemma solveBlockForward_None function firstRound changed states idx :
  states !! idx = None →
  solveBlockForward function firstRound (changed, states) idx
  = (changed, states).
Proof. intros H. unfold solveBlockForward. by rewrite H. Qed.

Lemma solveBlockForward_Some function firstRound changed states idx st :
  states !! idx = Some st →
  (firstRound = false
   ∧ intersectExitSets states (entrySet st) (getPredecessorBlocks function idx)
     = entrySet st
   ∧ solveBlockForward function firstRound (changed, states) idx
     = (changed, states))
  ∨ ((firstRound = true
      ∨ intersectExitSets states (entrySet st) (getPredecessorBlocks function idx)
        ≠ entrySet st)
     ∧ solveBlockForward function firstRound (changed, states) idx
       = (true,
          <[idx := updateBlock st
                     (intersectExitSets states (entrySet st)
                           (getPredecessorBlocks function idx))]> states)).
Proof.
  intros Hst. unfold solveBlockForward. rewrite Hst.
  fold (intersectExitSets states (entrySet st) (getPredecessorBlocks function idx)).
  set (bits := intersectExitSets _ _ _).
  destruct firstRound; simpl.
  - right. split; [by left|done].
  - destruct (N.eqb_spec bits (entrySet st)) as [E|NE]; simpl.
    + left. done.
    + right. split; [by right|done].
Qed.

Lemma sumEntryBits_insert states idx st st' :
  states !! idx = Some st →
  sumEntryBits (<[idx := st']> states) + popcount (entrySet st)
  = sumEntryBits states + popcount (entrySet st').
Proof.
  revert idx. induction states as [|x states IH]; intros [|idx] H; simpl in *;
    try done.
  - injection H as ->. lia.
  - specialize (IH idx H). lia.
Qed.

Lemma entrySet_updateBlock st bits : entrySet (updateBlock st bits) = bits.
Proof. done. Qed.

(** One step of a round does not enlarge the entry sets, and it clears at
    least one bit when it reports a change after the first round. *)
Lemma solveBlockForward_measure function firstRound changed states idx
    changed' states' :
  solveBlockForward function firstRound (changed, states) idx
  = (changed', states') →
  length states' = length states
  ∧ sumEntryBits states' ≤ sumEntryBits states
  ∧ (changed = true → changed' = true)
  ∧ (changed' = false → states' = states)
  ∧ (firstRound = false → changed' = true →
     changed = true ∨ sumEntryBits states' < sumEntryBits states).
Proof.
  intros Hstep.
  destruct (states !! idx) as [st|] eqn:Hst.
  - destruct (solveBlockForward_Some function firstRound changed states idx
                st Hst) as [(Hfr & Hbits & Heq)|(Hwhy & Heq)];
      rewrite Heq in Hstep; injection Hstep as <- <-.
    + repeat split; auto.
    + set (bits := intersectExitSets states (entrySet st)
                        (getPredecessorBlocks function idx)) in *.
      pose proof (sumEntryBits_insert states idx st (updateBlock st bits) Hst)
        as Hsum.
      rewrite entrySet_updateBlock in Hsum.
      assert (N.land (entrySet st) bits = bits) as Hland.
      { rewrite N.land_comm. apply intersectExitSets_land. }
      pose proof (popcount_land_le (entrySet st) bits) as Hle.
      rewrite Hland in Hle. clearbody bits.
      repeat split; auto.
      * by rewrite length_insert.
      * lia.
      * done.
      * intros Hfr _. right. destruct Hwhy as [?|Hne]; [congruence|].
        pose proof (popcount_land_lt (entrySet st) bits) as Hlt.
        rewrite Hland in Hlt. specialize (Hlt Hne). lia.
  - rewrite (solveBlockForward_None _ _ _ _ _ Hst) in Hstep.
    injection Hstep as <- <-. repeat split; auto.
Qed.

Lemma solveRoundForward_fold_measure function firstRound order :
  ∀ changed states changed' states',
    foldl (solveBlockForward function firstRound) (changed, states) order
    = (changed', states') →
    length states' = length states
    ∧ sumEntryBits states' ≤ sumEntryBits states
    ∧ (changed = true → changed' = true)
    ∧ (changed' = false → states' = states)
    ∧ (firstRound = false → changed' = true →
       changed = true ∨ sumEntryBits states' < sumEntryBits states).
Proof.
  induction order as [|idx order IH]; intros changed states changed' states';
    cbn [foldl].
  - intros [= <- <-]. repeat split; auto.
  - destruct (solveBlockForward function firstRound (changed, states) idx)
      as [changed1 states1] eqn:Hstep.
    intros Hfold. apply IH in Hfold as (Hlen & Hle & Hmono & Hsame & Hlt).
    apply solveBlockForward_measure in Hstep
      as (Hlen1 & Hle1 & Hmono1 & Hsame1 & Hlt1).
    repeat split.
    + lia.
    + lia.
    + auto.
    + intros Hc. specialize (Hsame Hc). subst states'.
      destruct changed1; [by specialize (Hmono eq_refl); congruence|].
      auto.
    + intros Hfr Hc. destruct (Hlt Hfr Hc) as [Hc1|Hdec].
      * destruct (Hlt1 Hfr Hc1) as [?|?]; [by left|right; lia].
      * right. lia.
Qed.

Lemma solveRoundForward_measure function firstRound states changed' states' :
  solveRoundForward function firstRound states = (changed', states') →
  length states' = length states
  ∧ sumEntryBits states' ≤ sumEntryBits states
  ∧ (changed' = false → states' = states)
  ∧ (firstRound = false → changed' = true →
     sumEntryBits states' < sumEntryBits states).
Proof.
  intros H. apply solveRoundForward_fold_measure in H
    as (Hlen & Hle & _ & Hsame & Hlt).
  repeat split; auto.
  intros Hfr Hc. destruct (Hlt Hfr Hc) as [?|?]; [done|lia].
Qed.

(** Enough rounds: the loop returns. *)
Lemma solveDataflowForwardLoop_terminates function fuel :
  ∀ (firstRound : bool) states,
    sumEntryBits states + (if firstRound then 2 else 1) ≤ fuel →
    ∃ states', solveDataflowForwardLoop function fuel firstRound states
               = Some states'.
Proof.
  induction fuel as [|fuel IH]; intros firstRound states Hfuel.
  - destruct firstRound; lia.
  - simpl.
    destruct (solveRoundForward function firstRound states)
      as [changed states1] eqn:Hround.
    apply solveRoundForward_measure in Hround as (Hlen & Hle & Hsame & Hlt).
    destruct changed; [|eauto].
    apply IH. destruct firstRound; [lia|].
    specialize (Hlt eq_refl eq_refl). lia.
Qed.

Lemma solveBlockForward_shape function firstRound changed states idx
    changed' states' :
  solveBlockForward function firstRound (changed, states) idx
  = (changed', states') →
  (states' = states
   ∧ (states !! idx = None
      ∨ firstRound = false
        ∧ ∃ st, states !! idx = Some st
                ∧ intersectExitSets states (entrySet st)
                       (getPredecessorBlocks function idx) = entrySet st))
  ∨ (∃ st, states !! idx = Some st ∧ changed' = true
           ∧ states' =
             <[idx := updateBlock st
                        (intersectExitSets states (entrySet st)
                              (getPredecessorBlocks function idx))]> states).
Proof.
  intros Hstep. destruct (states !! idx) as [st|] eqn:Hst.
  - destruct (solveBlockForward_Some function firstRound changed states idx
                st Hst) as [(Hfr & Hbits & Heq)|(Hwhy & Heq)];
      rewrite Heq in Hstep; injection Hstep as <- <-.
    + left. split; [done|]. right. eauto.
    + right. eauto.
  - rewrite (solveBlockForward_None _ _ _ _ _ Hst) in Hstep.
    injection Hstep as <- <-. left. auto.
Qed.

Lemma subBits_refl a : subBits a a.
Proof. by intros i. Qed.

Lemma subBits_trans a b c : subBits a b → subBits b c → subBits a c.
Proof. intros H1 H2 i Hi. auto. Qed.

Lemma subBits_intersectExitSets states bits preds : subBits (intersectExitSets states bits preds) bits.
Proof. intros i Hi. by apply testbit_intersectExitSets in Hi as [? _]. Qed.

Lemma transfer_mono st a b : subBits a b → subBits (transfer st a) (transfer st b).
Proof.
  intros H i. unfold transfer. rewrite !N.ldiff_spec, !N.lor_spec.
  specialize (H i).
  destruct (N.testbit a i), (N.testbit b i), (N.testbit (genSet st) i),
    (N.testbit (killSet st) i); naive_solver.
Qed.

Lemma transfer_updateBlock st bits a :
  transfer (updateBlock st bits) a = transfer st a.
Proof. done. Qed.

Lemma exitSet_updateBlock st bits :
  exitSet (updateBlock st bits) = transfer st bits.
Proof. done. Qed.

Section SolverInvariant.

Variable function : SILFunction.
Variable numBits : nat.
(** The block states before the solver runs. *)
Variable states0 : list BlockState.

Lemma solveBlockForward_inv firstRound changed states idx changed' states' :
  solverInv function numBits states0 states →
  solveBlockForward function firstRound (changed, states) idx
  = (changed', states') →
  solverInv function numBits states0 states'.
Proof.
  intros Hinv Hstep.
  apply solveBlockForward_shape in Hstep
    as [[-> _]|(st & Hst & _ & ->)]; [done|].
  set (bits := intersectExitSets states (entrySet st) (getPredecessorBlocks function idx)).
  pose proof (Hinv idx st Hst) as (Hst0 & Hw & Hk & Hj).
  assert (subBits bits (entrySet st)) as Hbits by apply subBits_intersectExitSets.
  (* the exit sets only shrink *)
  assert (∀ p ps', <[idx := updateBlock st bits]> states !! p = Some ps' →
            ∃ ps, states !! p = Some ps
                  ∧ subBits (exitSet ps') (exitSet ps)) as Hshrink.
  { intros p ps' Hp. destruct (decide (p = idx)) as [->|Hne].
    - rewrite list_lookup_insert_eq in Hp by (by eapply lookup_lt_Some).
      injection Hp as <-. exists st. split; [done|].
      rewrite exitSet_updateBlock.
      eapply subBits_trans; [by apply transfer_mono|done].
    - rewrite list_lookup_insert_ne in Hp by done.
      exists ps'. split; [done|apply subBits_refl]. }
  intros b st' Hb. destruct (decide (b = idx)) as [->|Hne].
  - rewrite list_lookup_insert_eq in Hb by (by eapply lookup_lt_Some).
    injection Hb as <-.
    destruct Hst0 as (st0 & H0 & Hg & Hkl & Hsub & Hentry).
    split; [|split; [|split]].
    + exists st0. repeat split; try done.
      * eapply subBits_trans; [exact Hbits|done].
      * intros -> Hnil. rewrite entrySet_updateBlock. unfold bits.
        rewrite Hnil. simpl. auto.
    + rewrite entrySet_updateBlock.
      eapply subBits_trans; [exact Hbits|done].
    + rewrite entrySet_updateBlock, exitSet_updateBlock,
        transfer_updateBlock. apply subBits_refl.
    + intros Hnz i Hi Hall. rewrite entrySet_updateBlock.
      apply testbit_intersectExitSets.
      assert (∀ p ps, p ∈ getPredecessorBlocks function idx →
                      states !! p = Some ps →
                      N.testbit (exitSet ps) i = true) as Hall'.
      { intros p ps Hin Hp.
        assert (is_Some (<[idx := updateBlock st bits]> states !! p))
          as [ps' Hp'].
        { apply lookup_lt_is_Some. rewrite length_insert.
          by eapply lookup_lt_Some. }
        destruct (Hshrink p ps' Hp') as (ps2 & Hp2 & Hsub2).
        assert (ps2 = ps) as -> by congruence.
        apply Hsub2. eauto. }
      split; [|done]. by apply Hj.
  - rewrite list_lookup_insert_ne in Hb by done.
    pose proof (Hinv b st' Hb) as (Hst0' & Hw' & Hk' & Hj').
    split; [done|split; [done|split; [done|]]].
    intros Hnz i Hi Hall. apply Hj'; [done|done|].
    intros p ps Hin Hp.
    assert (is_Some (<[idx := updateBlock st bits]> states !! p))
      as [ps' Hp'].
    { apply lookup_lt_is_Some. rewrite length_insert.
      by eapply lookup_lt_Some. }
    destruct (Hshrink p ps' Hp') as (ps2 & Hp2 & Hsub2).
    assert (ps2 = ps) as -> by congruence.
    apply Hsub2. eauto.
Qed.

Lemma solveRoundForward_inv firstRound states changed' states' :
  solverInv function numBits states0 states →
  solveRoundForward function firstRound states = (changed', states') →
  solverInv function numBits states0 states'.
Proof.
  unfold solveRoundForward. generalize (seq 0 (length states)) as order.
  generalize false as changed. intros changed order. revert changed states.
  induction order as [|idx order IH]; intros changed states Hinv;
    cbn [foldl].
  - by intros [= <- <-].
  - destruct (solveBlockForward function firstRound (changed, states) idx)
      as [changed1 states1] eqn:Hstep.
    apply IH. by eapply solveBlockForward_inv.
Qed.

End SolverInvariant.

(** After the blocks of [order] have been treated, the exit set of a block
    is the transfer of its entry set if it was so before, or if the block
    was treated in the first round. *)
Lemma solveRoundForward_fold_exitEq function firstRound order :
  ∀ changed states changed' states',
    foldl (solveBlockForward function firstRound) (changed, states) order
    = (changed', states') →
    ∀ i st', states' !! i = Some st' →
      (firstRound = true ∧ i ∈ order)
      ∨ (∃ st, states !! i = Some st ∧ exitEq st) →
      exitEq st'.
Proof.
  induction order as [|idx order IH]; intros changed states changed' states';
    cbn [foldl].
  - intros [= <- <-] i st' Hi [[_ Hin]|(st & Hst & He)].
    + by apply elem_of_nil in Hin.
    + congruence.
  - destruct (solveBlockForward function firstRound (changed, states) idx)
      as [changed1 states1] eqn:Hstep.
    intros Hfold i st' Hi Hwhy.
    eapply IH; [exact Hfold|exact Hi|].
    apply solveRoundForward_fold_measure in Hfold as (Hlen & _).
    assert (is_Some (states1 !! i)) as [st1 Hst1].
    { apply lookup_lt_is_Some. rewrite <- Hlen. by eapply lookup_lt_Some. }
    apply solveBlockForward_shape in Hstep
      as [[-> Hsame]|(st & Hst & _ & ->)].
    + destruct Hwhy as [[Hfr [->|Hin]%elem_of_cons]|Hold]; [|by left|by right].
      destruct Hsame as [Hnone|[Hfalse _]]; congruence.
    + destruct (decide (i = idx)) as [->|Hne].
      * right. exists st1. split; [done|].
        rewrite list_lookup_insert_eq in Hst1 by (by eapply lookup_lt_Some).
        by injection Hst1 as <-.
      * rewrite list_lookup_insert_ne in Hst1 by done.
        destruct Hwhy as [[Hfr [->|Hin]%elem_of_cons]|(st2 & Hst2 & He)];
          [done|by left|].
        right. exists st1. split; [by rewrite list_lookup_insert_ne|].
        congruence.
Qed.

Lemma solveRoundForward_exitEq function firstRound states changed' states' :
  solveRoundForward function firstRound states = (changed', states') →
  (firstRound = false → ∀ i st, states !! i = Some st → exitEq st) →
  ∀ i st', states' !! i = Some st' → exitEq st'.
Proof.
  intros Hround Hold i st' Hi.
  pose proof Hround as (Hlen & _)%solveRoundForward_measure.
  eapply solveRoundForward_fold_exitEq; [exact Hround|exact Hi|].
  assert (i < length states) as Hlt.
  { rewrite <- Hlen. by eapply lookup_lt_Some. }
  destruct firstRound.
  - left. split; [done|]. apply elem_of_seq. lia.
  - right. destruct (lookup_lt_is_Some_2 states i Hlt) as [st Hst]. eauto.
Qed.

(** A round which reports no change has found, for every block, that the
    intersectExitSets over the predecessors is the entry set. *)
Lemma solveRoundForward_fold_unchanged function order :
  ∀ states changed' states',
    foldl (solveBlockForward function false) (false, states) order
    = (changed', states') →
    changed' = false →
    ∀ idx st, idx ∈ order → states !! idx = Some st →
      intersectExitSets states (entrySet st) (getPredecessorBlocks function idx)
      = entrySet st.
Proof.
  induction order as [|idx order IH]; intros states changed' states';
    cbn [foldl].
  - intros _ _ i st Hin. by apply elem_of_nil in Hin.
  - destruct (solveBlockForward function false (false, states) idx)
      as [changed1 states1] eqn:Hstep.
    intros Hfold -> i st Hin Hst.
    pose proof Hfold as (_ & _ & Hmono & _)%solveRoundForward_fold_measure.
    destruct changed1; [by specialize (Hmono eq_refl)|].
    apply solveBlockForward_shape in Hstep
      as [[-> Hsame]|(st1 & Hst1 & ? & _)]; [|done].
    apply elem_of_cons in Hin as [->|Hin].
    + destruct Hsame as [?|[_ (st2 & Hst2 & Hmeet)]]; congruence.
    + by eapply IH.
Qed.

Lemma solveRoundForward_first_changed function states changed' states' :
  solveRoundForward function true states = (changed', states') →
  changed' = false → states = [].
Proof.
  unfold solveRoundForward. destruct states as [|st states]; [done|].
  cbn [length seq foldl].
  destruct (solveBlockForward_Some function true false (st :: states) 0 st
              eq_refl) as [(Hfr & _)|(_ & Heq)]; [done|].
  rewrite Heq. intros (_ & _ & Hmono & _)%solveRoundForward_fold_measure ->.
  by specialize (Hmono eq_refl).
Qed.

(** What holds when the loop returns: an invariant of the rounds, and the
    result is a fixed point of a round. *)
Lemma solveDataflowForwardLoop_result function
    (Inv : bool → list BlockState → Prop) :
  (∀ firstRound states changed' states',
     Inv firstRound states →
     solveRoundForward function firstRound states = (changed', states') →
     Inv false states') →
  ∀ fuel firstRound states states',
    Inv firstRound states →
    solveDataflowForwardLoop function fuel firstRound states = Some states' →
    Inv false states'
    ∧ solveRoundForward function false states' = (false, states').
Proof.
  intros Hround. induction fuel as [|fuel IH];
    intros firstRound states states' Hinv; [done|]. simpl.
  destruct (solveRoundForward function firstRound states)
    as [changed states1] eqn:Hstep.
  pose proof (Hround _ _ _ _ Hinv Hstep) as Hinv1.
  destruct changed; [by apply IH|].
  intros [= <-]. split; [done|].
  pose proof Hstep as (_ & _ & Hsame & _)%solveRoundForward_measure.
  specialize (Hsame eq_refl). subst states1.
  destruct firstRound; [|done].
  by rewrite (solveRoundForward_first_changed _ _ _ _ Hstep eq_refl).
Qed.

Lemma solveRoundForward_unchanged function states :
  solveRoundForward function false states = (false, states) →
  ∀ idx st, states !! idx = Some st →
    intersectExitSets states (entrySet st) (getPredecessorBlocks function idx)
    = entrySet st.
Proof.
  intros Hround idx st Hst.
  eapply solveRoundForward_fold_unchanged; [exact Hround|done| |done].
  apply elem_of_seq. apply lookup_lt_Some in Hst. lia.
Qed.

(** The entry sets only shrink in a step of a round. *)
Lemma solveBlockForward_shrink function firstRound changed states idx
    changed' states' :
  solveBlockForward function firstRound (changed, states) idx
  = (changed', states') →
  ∀ b st', states' !! b = Some st' →
    ∃ st, states !! b = Some st ∧ subBits (entrySet st') (entrySet st).
Proof.
  intros Hstep b st' Hb.
  apply solveBlockForward_shape in Hstep
    as [[-> _]|(st & Hst & _ & ->)].
  - exists st'. split; [done|apply subBits_refl].
  - destruct (decide (b = idx)) as [->|Hne].
    + rewrite list_lookup_insert_eq in Hb by (by eapply lookup_lt_Some).
      injection Hb as <-. exists st. split; [done|]. apply subBits_intersectExitSets.
    + rewrite list_lookup_insert_ne in Hb by done.
      exists st'. split; [done|apply subBits_refl].
Qed.

Lemma solveRoundForward_shrink function firstRound states changed' states' :
  solveRoundForward function firstRound states = (changed', states') →
  ∀ b st', states' !! b = Some st' →
    ∃ st, states !! b = Some st ∧ subBits (entrySet st') (entrySet st).
Proof.
  unfold solveRoundForward. generalize (seq 0 (length states)) as order.
  generalize false as changed. intros changed order. revert changed states.
  induction order as [|idx order IH]; intros changed states; cbn [foldl].
  - intros [= <- <-] b st' Hb. exists st'. split; [done|apply subBits_refl].
  - destruct (solveBlockForward function firstRound (changed, states) idx)
      as [changed1 states1] eqn:Hstep.
    intros Hfold b st' Hb.
    destruct (IH _ _ Hfold b st' Hb) as (st1 & Hst1 & Hsub1).
    destruct (solveBlockForward_shrink _ _ _ _ _ _ _ Hstep b st1 Hst1)
      as (st & Hst & Hsub).
    exists st. split; [done|]. by eapply subBits_trans.
Qed.

(** C8: [solveDataflowForward] terminates for every function (a finite
    CFG) and every initial assignment of the entry, exit, gen and kill sets
    of the block states: the loop returns a result within
    [2 + sumEntryBits states] rounds.  The rounds can only shrink the entry
    set of a block, and the result is a fixed point: one more round changes
    nothing. *)
Theorem solveDataflowForward_terminates function states :
  ∃ states',
    solveDataflowForward function states = Some states'
    ∧ length states' = length states
    ∧ (∀ b st', states' !! b = Some st' →
         ∃ st, states !! b = Some st ∧ subBits (entrySet st') (entrySet st))
    ∧ solveRoundForward function false states' = (false, states').
Proof.
  destruct (solveDataflowForwardLoop_terminates
              function (2 + sumEntryBits states) true states)
    as [states' Hloop]; [lia|].
  exists states'. split; [exact Hloop|].
  pose (Inv := fun (_ : bool) (s : list BlockState) =>
          length s = length states
          ∧ ∀ b st', s !! b = Some st' →
              ∃ st, states !! b = Some st
                    ∧ subBits (entrySet st') (entrySet st)).
  destruct (solveDataflowForwardLoop_result function Inv) with
    (fuel := 2 + sumEntryBits states) (firstRound := true)
    (states := states) (states' := states') as [[Hlen Hshrink] Hfix].
  - intros fr s c s' [Hlen Hshrink] Hround. split.
    + apply solveRoundForward_measure in Hround as (-> & _). done.
    + intros b st' Hb.
      destruct (solveRoundForward_shrink _ _ _ _ _ Hround b st' Hb)
        as (st1 & Hst1 & Hsub1).
      destruct (Hshrink b st1 Hst1) as (st & Hst & Hsub).
      exists st. split; [done|]. by eapply subBits_trans.
  - split; [done|]. intros b st' Hb. exists st'.
    split; [done|apply subBits_refl].
  - exact Hloop.
  - done.
Qed.

(** C1 (as amended): after [solveDataflowForward] has returned, on block
    states seeded as [initDataflow] seeds them (every exit set and the entry
    set of every block but the entry block are all-ones vectors of [numBits]
    bits, the entry set of the entry block and the gen sets have [numBits]
    bits), for
    every block the exit set is [(entrySet | genSet) - killSet], for every
    block other than the entry block the entry set is the intersection of
    the exit sets of its predecessors (bit [i] is set in it iff it is one of
    the [numBits] bits and it is set in the exit set of every predecessor),
    and the entry block, which has no predecessor, keeps the entry set it
    was seeded with. *)
Theorem solveDataflowForward_fixed_point function numBits states :
  (∀ b st, states !! b = Some st →
     exitSet st = N.ones (N.of_nat numBits)
     ∧ subBits (genSet st) (N.ones (N.of_nat numBits))
     ∧ subBits (entrySet st) (N.ones (N.of_nat numBits))
     ∧ (b ≠ 0 → entrySet st = N.ones (N.of_nat numBits))) →
  ∃ states',
    solveDataflowForward function states = Some states'
    ∧ ∀ b st', states' !! b = Some st' →
        exitSet st'
        = N.ldiff (N.lor (entrySet st') (genSet st')) (killSet st')
        ∧ (b ≠ 0 → ∀ i,
             N.testbit (entrySet st') i = true ↔
             (i < N.of_nat numBits)%N
             ∧ ∀ p ps, p ∈ getPredecessorBlocks function b →
                       states' !! p = Some ps →
                       N.testbit (exitSet ps) i = true)
        ∧ (b = 0 → getPredecessorBlocks function 0 = [] →
           ∀ st, states !! 0 = Some st → entrySet st' = entrySet st).
Proof.
  intros Hseed.
  destruct (solveDataflowForwardLoop_terminates
              function (2 + sumEntryBits states) true states)
    as [states' Hloop]; [lia|].
  exists states'. split; [exact Hloop|].
  pose (Inv := fun (fr : bool) (s : list BlockState) =>
          solverInv function numBits states s
          ∧ (fr = false → ∀ i st, s !! i = Some st → exitEq st)).
  destruct (solveDataflowForwardLoop_result function Inv) with
    (fuel := 2 + sumEntryBits states) (firstRound := true)
    (states := states) (states' := states') as [[Hinv Hexit] Hfix].
  - intros fr s c s' [Hinv Hexit] Hround. split.
    + by eapply solveRoundForward_inv.
    + intros _. by eapply solveRoundForward_exitEq.
  - split; [|done]. intros b st Hb.
    destruct (Hseed b st Hb) as (Hex & Hgen & Hent & Hones).
    split; [|split; [|split]].
    + exists st. repeat split; try done. apply subBits_refl.
    + done.
    + rewrite Hex. intros i. unfold transfer.
      rewrite N.ldiff_spec, N.lor_spec. specialize (Hgen i).
      specialize (Hent i).
      destruct (N.testbit (entrySet st) i), (N.testbit (genSet st) i);
        simpl; auto; discriminate.
    + intros Hnz i Hi _. rewrite (Hones Hnz). by apply N.ones_spec_low.
  - exact Hloop.
  - intros b st' Hb.
    destruct (Hinv b st' Hb) as (Hst0 & Hw & Hk & Hj).
    split; [by apply (Hexit eq_refl b)|]. split.
    + intros Hnz i. split.
      * intros Hi. split; [by apply N.ones_spec_iff, Hw|].
        pose proof (solveRoundForward_unchanged _ _ Hfix b st' Hb) as Hmeet.
        rewrite <- Hmeet in Hi. by apply testbit_intersectExitSets in Hi as [_ ?].
      * intros [Hi Hall]. by apply Hj.
    + intros -> Hnil st Hst.
      destruct Hst0 as (st0 & H0 & _ & _ & _ & Hkeep).
      assert (st0 = st) as -> by congruence. by apply Hkeep.
Qed.

Lemma solveDataflowForward_fixed_point_witness :
  (∀ b st, seededStates !! b = Some st →
     exitSet st = N.ones (N.of_nat 1)
     ∧ subBits (genSet st) (N.ones (N.of_nat 1))
     ∧ subBits (entrySet st) (N.ones (N.of_nat 1))
     ∧ (b ≠ 0 → entrySet st = N.ones (N.of_nat 1)))
  ∧ ∃ states',
      solveDataflowForward branchFunction seededStates = Some states'
      ∧ ∀ b st', states' !! b = Some st' →
          exitSet st'
          = N.ldiff (N.lor (entrySet st') (genSet st')) (killSet st')
          ∧ (b ≠ 0 → ∀ i,
               N.testbit (entrySet st') i = true ↔
               (i < N.of_nat 1)%N
               ∧ ∀ p ps, p ∈ getPredecessorBlocks branchFunction b →
                         states' !! p = Some ps →
                         N.testbit (exitSet ps) i = true)
          ∧ (b = 0 → getPredecessorBlocks branchFunction 0 = [] →
             ∀ st, seededStates !! 0 = Some st →
                   entrySet st' = entrySet st).
Proof.
  assert (∀ b st, seededStates !! b = Some st →
            exitSet st = N.ones (N.of_nat 1)
            ∧ subBits (genSet st) (N.ones (N.of_nat 1))
            ∧ subBits (entrySet st) (N.ones (N.of_nat 1))
            ∧ (b ≠ 0 → entrySet st = N.ones (N.of_nat 1))) as Hseed.
  { intros b st Hb.
    destruct b as [|[|b]]; simpl in Hb; [| |done]; injection Hb as <-;
      simpl; (split; [reflexivity|]);
      (split; [intros i Hi; discriminate Hi|]);
      (split; [intros i Hi; exact Hi|]); intros _; reflexivity. }
  split; [exact Hseed|].
  exact (solveDataflowForward_fixed_point branchFunction 1 seededStates Hseed).
Defined.

(** On block states which are not seeded with all-ones entry sets the
    solver returns with an entry set of [bb1] which is not the
    intersection of the exit sets of its predecessors: bit 0 is set in the
    exit set of [bb0], the only predecessor, and not in the entry set of
    [bb1]. *)
Lemma solveDataflowForward_unseeded_counterexample :
  ∃ states' st0 st1,
    solveDataflowForward branchFunction unseededStates = Some states'
    ∧ getPredecessorBlocks branchFunction 1 = [0]
    ∧ states' !! 0 = Some st0
    ∧ states' !! 1 = Some st1
    ∧ N.testbit (exitSet st0) 0 = true
    ∧ N.testbit (entrySet st1) 0 = false
    ∧ entrySet st1 ≠ exitSet st0.
Proof.
  eexists _, _, _. repeat split; try (vm_compute; reflexivity).
  vm_compute. discriminate.
Qed.

(** ** The checks of the verifier *)

Lemma elem_of_concat {A} (x : A) (ls : list (list A)) :
  x ∈ concat ls ↔ ∃ l, x ∈ l ∧ l ∈ ls.
Proof.
  rewrite list_elem_of_In, in_concat. split.
  - intros (l & Hl & Hx). exists l. by rewrite !list_elem_of_In.
  - intros (l & Hx & Hl). exists l. by rewrite <- !list_elem_of_In.
Qed.

Lemma elem_of_flat_map {A B} (f : A → list B) (l : list A) (y : B) :
  y ∈ flat_map f l ↔ ∃ x, x ∈ l ∧ y ∈ f x.
Proof.
  rewrite list_elem_of_In, in_flat_map. split.
  - intros (x & Hx & Hy). exists x. by rewrite !list_elem_of_In.
  - intros (x & Hx & Hy). exists x. by rewrite <- !list_elem_of_In.
Qed.

Lemma elem_of_require failure condition c idx w :
  failure ∈ require condition c idx w ↔
  condition = false
  ∧ failure = {| complaint := c; locationIdx := idx; where_ := w |}.
Proof.
  unfold require. destruct condition.
  - split; [by intros ?%elem_of_nil|by intros [? _]].
  - rewrite list_elem_of_singleton. naive_solver.
Qed.

Lemma elem_of_requireBits failure wrongBits c w :
  failure ∈ requireBits wrongBits c w ↔
  wrongBits ≠ 0%N
  ∧ failure = {| complaint := c; locationIdx := find_first wrongBits;
                 where_ := w |}.
Proof.
  unfold requireBits. rewrite elem_of_require. unfold none.
  destruct (N.eqb_spec wrongBits 0); naive_solver.
Qed.

Section VerifierFacts.

Variable function : SILFunction.
Variable L : MemoryLocations.

Lemma requireBitsSet_complaint bits addr w failure :
  failure ∈ requireBitsSet L bits addr w →
  isBlockComplaint (complaint failure) ∧ where_ failure = w.
Proof.
  unfold requireBitsSet. destruct (getLocation L addr); [|by intros ?%elem_of_nil].
  intros [_ ->]%elem_of_requireBits. split; [by right|done].
Qed.

Lemma requireBitsClear_complaint bits addr w failure :
  failure ∈ requireBitsClear L bits addr w →
  isBlockComplaint (complaint failure) ∧ where_ failure = w.
Proof.
  unfold requireBitsClear. destruct (getLocation L addr); [|by intros ?%elem_of_nil].
  intros [_ ->]%elem_of_requireBits. split; [by left|done].
Qed.

Lemma checkFuncArgument_complaint bits op convention w failure :
  failure ∈ (checkFuncArgument L bits op convention w).2 →
  isBlockComplaint (complaint failure) ∧ where_ failure = w.
Proof.
  destruct convention; simpl;
    eauto using requireBitsSet_complaint, requireBitsClear_complaint;
    by intros ?%elem_of_nil.
Qed.

Lemma checkFuncArguments_complaint allOperands w :
  ∀ bits failures failure,
    failure ∈ (foldl (checkOperand L w) (bits, failures) allOperands).2 →
    failure ∈ failures
    ∨ isBlockComplaint (complaint failure) ∧ where_ failure = w.
Proof.
  induction allOperands as [|op ops IH]; intros bits failures failure;
    cbn [foldl]; [by left|].
  unfold checkOperand at 2.
  destruct (getArgumentConvention op) as [convention|]; [|by apply IH].
  destruct (checkFuncArgument L bits op convention w) as [bits' failures']
    eqn:Harg.
  intros [Hin|?]%IH; [|by right].
  apply elem_of_app in Hin as [?|Hin]; [by left|right].
  apply (checkFuncArgument_complaint bits op convention w).
  by rewrite Harg.
Qed.

Lemma checkInstruction_complaint bits inst w failure :
  failure ∈ (checkInstruction L bits inst w).2 →
  isBlockComplaint (complaint failure) ∧ where_ failure = w.
Proof.
  destruct inst as [q ?|q ?|? ? ? isInit| |orig|ops|ops ? ?|ops ? ?| | | | | | |];
    simpl;
    eauto using requireBitsSet_complaint, requireBitsClear_complaint;
    try (by intros ?%elem_of_nil).
  - destruct q; simpl;
      eauto using requireBitsSet_complaint, requireBitsClear_complaint;
      by intros ?%elem_of_nil.
  - destruct isInit; simpl; intros [?|?]%elem_of_app;
      eauto using requireBitsSet_complaint, requireBitsClear_complaint.
  - destruct orig; simpl; eauto using requireBitsSet_complaint;
      by intros ?%elem_of_nil.
  - unfold checkFuncArguments.
    intros [?%elem_of_nil|?]%checkFuncArguments_complaint; done.
  - unfold checkFuncArguments.
    intros [?%elem_of_nil|?]%checkFuncArguments_complaint; done.
  - unfold checkFuncArguments.
    intros [?%elem_of_nil|?]%checkFuncArguments_complaint; done.
Qed.

Lemma checkInstructions_complaint block insts :
  ∀ pos bits failure,
    failure ∈ (checkInstructions L block pos insts bits).2 →
    isBlockComplaint (complaint failure) ∧ (where_ failure).1 = block.
Proof.
  induction insts as [|inst insts IH]; intros pos bits failure; simpl;
    [by intros ?%elem_of_nil|].
  destruct (checkInstruction L bits inst (block, pos)) as [bits1 failures1]
    eqn:Hinst.
  destruct (checkInstructions L block (S pos) insts bits1)
    as [bits2 failures2] eqn:Hrest. simpl.
  intros [Hin|Hin]%elem_of_app.
  - destruct (checkInstruction_complaint bits inst (block, pos) failure)
      as [? ->]; [by rewrite Hinst|done].
  - apply (IH (S pos) bits1). by rewrite Hrest.
Qed.

Lemma checkBlock_complaint block bits failure :
  failure ∈ (checkBlock function L block bits).2 →
  isBlockComplaint (complaint failure) ∧ (where_ failure).1 = block.
Proof. apply checkInstructions_complaint. Qed.

Lemma elem_of_checkPredecessor dataFlow block st pred failure :
  failure ∈ checkPredecessor dataFlow block st pred ↔
  ∃ predState,
    dataFlow !! pred = Some predState
    ∧ reachableFromEntry predState = true
    ∧ entrySet st ≠ exitSet predState
    ∧ failure =
      {| complaint := "lifetime mismatch in predecessors";
         locationIdx := find_first (N.lxor (entrySet st) (exitSet predState));
         where_ := (block, 0) |}.
Proof.
  unfold checkPredecessor. destruct (dataFlow !! pred) as [predState|].
  - destruct (reachableFromEntry predState) eqn:Hreach.
    + rewrite elem_of_requireBits, N.lxor_eq_0_iff. naive_solver.
    + split; [by intros ?%elem_of_nil|]. intros (? & [= <-] & ? & _).
      congruence.
  - split; [by intros ?%elem_of_nil|]. by intros (? & ? & _).
Qed.

Lemma elem_of_checkFunction dataFlow failure :
  failure ∈ checkFunction function L dataFlow ↔
  ∃ block st,
    dataFlow !! block = Some st
    ∧ reachableFromEntry st = true
    ∧ (failure ∈ (checkBlock function L block (entrySet st)).2
       ∨ failure ∈ checkPredecessors function dataFlow block st
       ∨ failure ∈ checkFunctionExit function L block st).
Proof.
  unfold checkFunction. rewrite elem_of_concat. split.
  - intros (l & Hin & (block & st & -> & Hst)%elem_of_lookup_imap).
    exists block, st. unfold checkFunctionInBlock in Hin.
    destruct (reachableFromEntry st); simpl in Hin;
      [|by apply elem_of_nil in Hin].
    rewrite !elem_of_app in Hin. done.
  - intros (block & st & Hst & Hreach & Hin).
    exists (checkFunctionInBlock function L dataFlow block st). split.
    + unfold checkFunctionInBlock. rewrite Hreach. simpl.
      by rewrite !elem_of_app.
    + by apply elem_of_lookup_imap_2.
Qed.

End VerifierFacts.

(** C4: the failures of [checkFunction] with the complaint of the merge
    check are exactly those of the pairs (predecessor, block) of which both
    blocks are reachable from the entry and the exit set of the predecessor
    differs from the entry set of the block; such a failure is anchored at
    the first instruction of the block.  In particular no failure is
    signalled for a pair of which the predecessor or the block is not
    reachable. *)
Theorem checkFunction_lifetime_mismatch function L dataFlow failure :
  failure ∈ checkFunction function L dataFlow
  ∧ complaint failure = "lifetime mismatch in predecessors" ↔
  ∃ block st pred predState,
    dataFlow !! block = Some st
    ∧ pred ∈ getPredecessorBlocks function block
    ∧ dataFlow !! pred = Some predState
    ∧ reachableFromEntry st = true
    ∧ reachableFromEntry predState = true
    ∧ entrySet st ≠ exitSet predState
    ∧ failure =
      {| complaint := "lifetime mismatch in predecessors";
         locationIdx := find_first (N.lxor (entrySet st) (exitSet predState));
         where_ := (block, 0) |}.
Proof.
  rewrite elem_of_checkFunction. split.
  - intros [(block & st & Hst & Hreach & [Hin|[Hin|Hin]]) Hc].
    + apply checkBlock_complaint in Hin as [[Hb|Hb] _];
        rewrite Hc in Hb; discriminate Hb.
    + apply elem_of_flat_map in Hin as (pred & Hpred & Hin).
      apply elem_of_checkPredecessor in Hin
        as (predState & Hp & Hpreach & Hne & ->).
      exists block, st, pred, predState. done.
    + unfold checkFunctionExit in Hin.
      destruct (last (instructionsOf function block)) as [[]|];
        try (by apply elem_of_nil in Hin);
        apply elem_of_app in Hin as [Hin|Hin];
        apply elem_of_requireBits in Hin as [_ ->]; discriminate Hc.
  - intros (block & st & pred & predState & Hst & Hpred & Hp & Hreach
            & Hpreach & Hne & ->).
    split; [|done]. exists block, st. split; [done|]. split; [done|].
    right. left. apply elem_of_flat_map. exists pred. split; [done|].
    apply elem_of_checkPredecessor. exists predState. done.
Qed.

Lemma ldiff_nonzero a b :
  N.ldiff a b ≠ 0%N ↔ ∃ i, N.testbit a i = true ∧ N.testbit b i = false.
Proof.
  split.
  - intros Hne. exists (N.log2 (N.ldiff a b)).
    apply N.bit_log2 in Hne. rewrite N.ldiff_spec in Hne.
    apply andb_true_iff in Hne as [? ?%negb_true_iff]. done.
  - intros (i & Ha & Hb) E.
    assert (N.testbit (N.ldiff a b) i = true) as Hi
      by (by rewrite N.ldiff_spec, Ha, Hb).
    rewrite E in Hi. discriminate Hi.
Qed.

Section ArgumentBits.

Variable L : MemoryLocations.
Variable wanted : SILFunctionArgument → Prop.
Variable step : Bits → SILFunctionArgument → Bits.
Hypothesis step_spec : ∀ bits funcArg,
  (wanted funcArg ∧ step bits funcArg = setBits L bits (asValue funcArg))
  ∨ (¬ wanted funcArg ∧ step bits funcArg = bits).

Lemma testbit_setBits bits addr i :
  N.testbit (setBits L bits addr) i = true ↔
  N.testbit bits i = true
  ∨ ∃ loc, getLocation L addr = Some loc
           ∧ N.testbit (subLocations loc) i = true.
Proof.
  unfold setBits. destruct (getLocation L addr) as [loc|].
  - rewrite N.lor_spec, orb_true_iff. naive_solver.
  - naive_solver.
Qed.

Lemma testbit_argumentBits args :
  ∀ bits i,
    N.testbit (foldl step bits args) i = true ↔
    N.testbit bits i = true
    ∨ ∃ funcArg loc,
        funcArg ∈ args ∧ wanted funcArg
        ∧ getLocation L (asValue funcArg) = Some loc
        ∧ N.testbit (subLocations loc) i = true.
Proof.
  induction args as [|a args IH]; intros bits i; cbn [foldl].
  - split; [by left|]. intros [?|(? & ? & ?%elem_of_nil & _)]; done.
  - rewrite IH. destruct (step_spec bits a) as [[Hw ->]|[Hnw ->]].
    + rewrite testbit_setBits. split.
      * intros [[?|(loc & Hloc & Hi)]|(f & loc & Hin & ?)].
        -- by left.
        -- right. exists a, loc. split; [left|done].
        -- right. exists f, loc. split; [by right|done].
      * intros [?|(f & loc & [->|Hin]%elem_of_cons & Hwf & Hloc & Hi)].
        -- left. by left.
        -- left. right. eauto.
        -- right. eauto 10.
    + split.
      * intros [?|(f & loc & Hin & ?)]; [by left|].
        right. exists f, loc. split; [by right|done].
      * intros [?|(f & loc & [->|Hin]%elem_of_cons & Hwf & Hloc & Hi)].
        -- by left.
        -- done.
        -- right. eauto 10.
Qed.

End ArgumentBits.

Lemma testbit_expectedReturnBits function L i :
  N.testbit (expectedReturnBits function L) i = true ↔
  bitOfArguments L expectedAtReturn (getArguments function) i.
Proof.
  unfold expectedReturnBits.
  rewrite (testbit_argumentBits L expectedAtReturn).
  - rewrite N.bits_0. unfold bitOfArguments. naive_solver.
  - intros bits funcArg. unfold expectedAtReturn.
    destruct (getArgumentConventionOfArg funcArg); naive_solver.
Qed.

Lemma testbit_expectedThrowBits function L i :
  N.testbit (expectedThrowBits function L) i = true ↔
  bitOfArguments L expectedAtThrow (getArguments function) i.
Proof.
  unfold expectedThrowBits.
  rewrite (testbit_argumentBits L expectedAtThrow).
  - rewrite N.bits_0. unfold bitOfArguments. naive_solver.
  - intros bits funcArg. unfold expectedAtThrow.
    destruct (getArgumentConventionOfArg funcArg); naive_solver.
Qed.

(** The failures of [checkFunction] with one of the complaints of the exit
    check and anchored in [block] are those of the exit check of [block]. *)
Lemma signalled_exit function L dataFlow block st c :
  dataFlow !! block = Some st →
  reachableFromEntry st = true →
  ¬ isBlockComplaint c →
  c ≠ "lifetime mismatch in predecessors" →
  signalled (checkFunction function L dataFlow) c
            (terminatorOf function block) ↔
  signalled (checkFunctionExit function L block st) c
            (terminatorOf function block).
Proof.
  intros Hst Hreach Hnb Hnm. unfold signalled. split.
  - intros (failure & Hin & Hc & Hw). exists failure. split; [|done].
    apply elem_of_checkFunction in Hin
      as (block' & st' & Hst' & Hreach' & [Hin|[Hin|Hin]]).
    + apply checkBlock_complaint in Hin as [Hb _]. by rewrite Hc in Hb.
    + apply elem_of_flat_map in Hin as (pred & _ & Hin).
      apply elem_of_checkPredecessor in Hin as (? & _ & _ & _ & ->).
      simpl in Hc. congruence.
    + assert (block' = block) as ->.
      { unfold checkFunctionExit in Hin.
        destruct (last (instructionsOf function block')) as [[]|];
          try (by apply elem_of_nil in Hin);
          apply elem_of_app in Hin as [Hin|Hin];
          apply elem_of_requireBits in Hin as [_ ->];
          by injection Hw. }
      by assert (st' = st) as -> by congruence.
  - intros (failure & Hin & Hc & Hw). exists failure. split; [|done].
    apply elem_of_checkFunction. exists block, st. auto.
Qed.

Lemma signalled_requireBits wrongBits c w c' :
  signalled (requireBits wrongBits c w) c' w ↔ wrongBits ≠ 0%N ∧ c' = c.
Proof.
  unfold signalled. split.
  - intros (failure & [? ->]%elem_of_requireBits & <- & _). done.
  - intros [? ->]. eexists. split; [by apply elem_of_requireBits|done].
Qed.

Lemma signalled_app failures1 failures2 c w :
  signalled (failures1 ++ failures2) c w ↔
  signalled failures1 c w ∨ signalled failures2 c w.
Proof. unfold signalled. setoid_rewrite elem_of_app. naive_solver. Qed.

Lemma signalled_nil c w : ¬ signalled [] c w.
Proof. by intros (? & ?%elem_of_nil & _). Qed.

(** C2: at the terminator of a block which is reachable from the entry,
    [checkFunction] signals a failure iff the exit set deviates from the
    expected bits.  At a return (and at an unwind) "not alive" is signalled
    iff some expected return bit is missing in the exit set, and a leak iff
    some bit of the exit set is not an expected return bit; at a throw the
    same holds with the expected throw bits.  The expected return bits are
    the location bits of the tracked arguments with the inout,
    in-guaranteed and out conventions, the expected throw bits those of the
    tracked arguments with the inout and in-guaranteed conventions. *)
Theorem checkFunction_exit function L dataFlow block st :
  dataFlow !! block = Some st →
  reachableFromEntry st = true →
  let failures := checkFunction function L dataFlow in
  let term := terminatorOf function block in
  (last (instructionsOf function block) = Some ReturnInst
   ∨ last (instructionsOf function block) = Some UnwindInst →
   (signalled failures
              "indirect argument is not alive at function return" term ↔
    ∃ i, N.testbit (expectedReturnBits function L) i = true
         ∧ N.testbit (exitSet st) i = false)
   ∧ (signalled failures
        "memory is initialized at function return but shouldn't" term ↔
      ∃ i, N.testbit (exitSet st) i = true
           ∧ N.testbit (expectedReturnBits function L) i = false))
  ∧ (last (instructionsOf function block) = Some ThrowInst →
     (signalled failures "indirect argument is not alive at throw" term ↔
      ∃ i, N.testbit (expectedThrowBits function L) i = true
           ∧ N.testbit (exitSet st) i = false)
     ∧ (signalled failures
          "memory is initialized at throw but shouldn't" term ↔
        ∃ i, N.testbit (exitSet st) i = true
             ∧ N.testbit (expectedThrowBits function L) i = false))
  ∧ (∀ i, N.testbit (expectedReturnBits function L) i = true ↔
          bitOfArguments L expectedAtReturn (getArguments function) i)
  ∧ (∀ i, N.testbit (expectedThrowBits function L) i = true ↔
          bitOfArguments L expectedAtThrow (getArguments function) i).
Proof.
  intros Hst Hreach failures term.
  assert (∀ c, ¬ isBlockComplaint c →
               c ≠ "lifetime mismatch in predecessors" →
               signalled failures c term ↔
               signalled (checkFunctionExit function L block st) c term)
    as Hexit by (intros; by apply signalled_exit).
  split; [|split; [|split]].
  - intros Hterm.
    assert (checkFunctionExit function L block st =
            requireBits (N.ldiff (expectedReturnBits function L) (exitSet st))
              "indirect argument is not alive at function return" term
            ++ requireBits
                 (N.ldiff (exitSet st) (expectedReturnBits function L))
                 "memory is initialized at function return but shouldn't"
                 term) as Hcheck.
    { unfold checkFunctionExit. by destruct Hterm as [-> | ->]. }
    split.
    + rewrite Hexit, Hcheck, signalled_app, !signalled_requireBits,
        ldiff_nonzero; [|by intros [?|?]|done]. naive_solver.
    + rewrite Hexit, Hcheck, signalled_app, !signalled_requireBits,
        !ldiff_nonzero; [|by intros [?|?]|done]. naive_solver.
  - intros Hterm.
    assert (checkFunctionExit function L block st =
            requireBits (N.ldiff (expectedThrowBits function L) (exitSet st))
              "indirect argument is not alive at throw" term
            ++ requireBits
                 (N.ldiff (exitSet st) (expectedThrowBits function L))
                 "memory is initialized at throw but shouldn't" term)
      as Hcheck.
    { unfold checkFunctionExit. by rewrite Hterm. }
    split.
    + rewrite Hexit, Hcheck, signalled_app, !signalled_requireBits,
        ldiff_nonzero; [|by intros [?|?]|done]. naive_solver.
    + rewrite Hexit, Hcheck, signalled_app, !signalled_requireBits,
        !ldiff_nonzero; [|by intros [?|?]|done]. naive_solver.
  - apply testbit_expectedReturnBits.
  - apply testbit_expectedThrowBits.
Qed.

(** The [@inout] argument of [destroyInoutFunction] is not alive at the
    return. *)
Lemma checkFunction_exit_witness :
  let st := {| entrySet := 1; genSet := 0; killSet := 1; exitSet := 0;
               reachableFromEntry := true; exitReachable := false |}%N in
  solvedStatesOf destroyInoutFunction !! 0 = Some st
  ∧ reachableFromEntry st = true
  ∧ last (instructionsOf destroyInoutFunction 0) = Some ReturnInst
  ∧ signalled (checkFunction destroyInoutFunction
                 (tableOf destroyInoutFunction)
                 (solvedStatesOf destroyInoutFunction))
              "indirect argument is not alive at function return"
              (terminatorOf destroyInoutFunction 0).
Proof.
  intros st.
  assert (solvedStatesOf destroyInoutFunction !! 0 = Some st) as Hst
    by (vm_compute; reflexivity).
  split; [exact Hst|]. split; [reflexivity|]. split; [reflexivity|].
  apply (proj1 (proj1 (checkFunction_exit destroyInoutFunction
                         (tableOf destroyInoutFunction)
                         (solvedStatesOf destroyInoutFunction) 0 st
                         Hst eq_refl)
                      (or_introl eq_refl))).
  exists 0%N. split; vm_compute; reflexivity.
Defined.

(** ** The out arguments of a call which may throw *)

Lemma elem_of_getPredecessorBlocks function b p :
  p ∈ getPredecessorBlocks function b ↔
  ∃ BB, blocks function !! p = Some BB ∧ b ∈ getSuccessorBlocks BB.
Proof.
  unfold getPredecessorBlocks. rewrite elem_of_concat. split.
  - intros (l & Hp & (i & BB & -> & HBB)%elem_of_lookup_imap).
    apply list_elem_of_omap in Hp as (s & Hs & Hsome).
    destruct (decide (s = b)) as [->|]; [|done]. injection Hsome as <-.
    eauto.
  - intros (BB & HBB & Hb).
    exists (omap (fun s => if decide (s = b) then Some p else None)
                 (getSuccessorBlocks BB)). split.
    + apply list_elem_of_omap. exists b. split; [done|].
      by rewrite decide_True.
    + apply elem_of_lookup_imap. eauto.
Qed.

Lemma subBits_setBits L bits addr : subBits bits (setBits L bits addr).
Proof.
  intros i Hi. apply testbit_setBits. by left.
Qed.

Lemma testbit_setBitsOfOutOperands L allOperands :
  ∀ bits i,
    N.testbit (setBitsOfOutOperands L bits allOperands) i = true ↔
    N.testbit bits i = true
    ∨ ∃ op loc, op ∈ allOperands ∧ isIndirectOut op = true
                ∧ getLocation L (get op) = Some loc
                ∧ N.testbit (subLocations loc) i = true.
Proof.
  unfold setBitsOfOutOperands.
  induction allOperands as [|op ops IH]; intros bits i; cbn [foldl].
  - split; [by left|]. intros [?|(? & ? & ?%elem_of_nil & _)]; done.
  - rewrite IH. destruct (isIndirectOut op) eqn:Hout.
    + rewrite testbit_setBits. split.
      * intros [[?|(loc & Hloc & Hi)]|(op' & loc & Hin & ?)].
        -- by left.
        -- right. exists op, loc. split; [left|done].
        -- right. exists op', loc. split; [by right|done].
      * intros [?|(op' & loc & [->|Hin]%elem_of_cons & Ho & Hloc & Hi)].
        -- left. by left.
        -- left. right. eauto.
        -- right. eauto 10.
    + split.
      * intros [?|(op' & loc & Hin & ?)]; [by left|].
        right. exists op', loc. split; [by right|done].
      * intros [?|(op' & loc & [->|Hin]%elem_of_cons & Ho & Hloc & Hi)].
        -- by left.
        -- congruence.
        -- right. eauto 10.
Qed.




(** ** The seeding of the dataflow *)

Lemma sameEntryExit_refl st : sameEntryExit st st.
Proof. done. Qed.

Lemma sameEntryExit_trans st1 st2 st3 :
  sameEntryExit st1 st2 → sameEntryExit st2 st3 → sameEntryExit st1 st3.
Proof. unfold sameEntryExit. intros (? & ? & ?) (? & ? & ?). repeat split; congruence. Qed.

Lemma genBits_sameEntryExit st addr L : sameEntryExit st (genBits st addr L).
Proof. unfold genBits. by destruct (getLocation L addr). Qed.

Lemma killBits_sameEntryExit st addr L : sameEntryExit st (killBits st addr L).
Proof. unfold killBits. by destruct (getLocation L addr). Qed.

Lemma setFuncOperandsBits_sameEntryExit L allOperands isTryApply :
  ∀ st, sameEntryExit st (setFuncOperandsBits L st allOperands isTryApply).
Proof.
  unfold setFuncOperandsBits.
  induction allOperands as [|op ops IH]; intros st; cbn [foldl]; [done|].
  eapply sameEntryExit_trans; [|apply IH].
  unfold setOperandBits. destruct (getArgumentConvention op) as [c|]; [|done].
  destruct c, isTryApply; simpl;
    auto using genBits_sameEntryExit, killBits_sameEntryExit,
      sameEntryExit_refl.
Qed.

Lemma initDataflowInInstruction_sameEntryExit L st inst :
  sameEntryExit st (initDataflowInInstruction L st inst).
Proof.
  destruct inst as [q ?|q ?|? ? isTake isInit| |orig|ops|ops ? ?|ops ? ?| | | | | | |];
    simpl;
    auto using genBits_sameEntryExit, killBits_sameEntryExit,
      sameEntryExit_refl, setFuncOperandsBits_sameEntryExit.
  - destruct q; auto using killBits_sameEntryExit, sameEntryExit_refl.
  - destruct isTake, isInit;
      eauto using genBits_sameEntryExit, killBits_sameEntryExit,
        sameEntryExit_refl, sameEntryExit_trans.
Qed.

Lemma initDataflowInBlock_sameEntryExit function L block st :
  sameEntryExit st (initDataflowInBlock function L block st).
Proof.
  unfold initDataflowInBlock.
  generalize (instructionsOf function block) as insts.
  assert (sameEntryExit st
            (setGenSet (setBitsOfPredecessor function L (genSet st) block) st))
    as H0 by done.
  revert H0.
  generalize (setGenSet (setBitsOfPredecessor function L (genSet st) block) st)
    as st1.
  intros st1 H0 insts. revert st1 H0.
  induction insts as [|inst insts IH]; intros st1 H0; cbn [foldl]; [done|].
  apply IH. eapply sameEntryExit_trans; [exact H0|].
  apply initDataflowInInstruction_sameEntryExit.
Qed.

Lemma testbit_entryBits function L i :
  N.testbit (entryBits function L) i = true ↔
  bitOfArguments L notOut (getArguments function) i.
Proof.
  unfold entryBits.
  rewrite (testbit_argumentBits L notOut).
  - rewrite N.bits_0. unfold bitOfArguments. naive_solver.
  - intros bits funcArg. unfold notOut, isNotIndirectOut.
    destruct (getArgumentConventionOfArg funcArg); naive_solver.
Qed.

(** C9: [initDataflow] seeds the entry set of the function entry block
    with exactly the sub-location bits of the tracked function arguments
    whose convention is not out: every other bit is clear, so that the bits
    of a location which shares no bit with the location of such an argument
    (the location of an out argument, of a stack allocation) are clear at
    the function entry.  Every other block is seeded with an all-ones entry
    set, and every block with an all-ones exit set. *)
Theorem initDataflow_seeds function L dataFlow block st :
  initDataflow function L dataFlow !! block = Some st →
  exitSet st = N.ones (N.of_nat (getNumLocations L))
  ∧ (block ≠ 0 → entrySet st = N.ones (N.of_nat (getNumLocations L)))
  ∧ (block = 0 →
     (∀ i, N.testbit (entrySet st) i = true ↔
           bitOfArguments L notOut (getArguments function) i)
     ∧ ∀ loc,
         (∀ funcArg argLoc,
            funcArg ∈ getArguments function → notOut funcArg →
            getLocation L (asValue funcArg) = Some argLoc →
            N.land (subLocations argLoc) (subLocations loc) = 0%N) →
         N.land (entrySet st) (subLocations loc) = 0%N).
Proof.
  unfold initDataflow. rewrite list_lookup_imap.
  destruct (dataFlow !! block) as [st0|] eqn:Hst0; [|done].
  cbn [fmap option_fmap option_map]. intros [= <-].
  set (numBits := N.of_nat (getNumLocations L)).
  set (st1 := if decide (block = 0)
              then setEntrySet (entryBits function L) st0
              else setEntrySet (N.ones numBits) st0).
  set (st2 := setExitSet (N.ones numBits) st1).
  assert (sameEntryExit st2
            (if reachableFromEntry st1
             then initDataflowInBlock function L block st2 else st2))
    as (Hentry & Hexit & _).
  { destruct (reachableFromEntry st1);
      [apply initDataflowInBlock_sameEntryExit|done]. }
  rewrite Hentry, Hexit. split; [done|]. split.
  - intros Hne. unfold st2, st1. by rewrite decide_False.
  - intros ->. unfold st2, st1. simpl. split.
    + apply testbit_entryBits.
    + intros loc Hdisjoint. apply N.bits_inj_0. intros i.
      rewrite N.land_spec.
      destruct (N.testbit (entryBits function L) i) eqn:Hi; [|done].
      apply testbit_entryBits in Hi
        as (funcArg & argLoc & Hin & Hnot & Hloc & Hbit).
      specialize (Hdisjoint funcArg argLoc Hin Hnot Hloc).
      assert (N.testbit (N.land (subLocations argLoc) (subLocations loc)) i
              = false) as Hland by (by rewrite Hdisjoint, N.bits_0).
      rewrite N.land_spec, Hbit in Hland. done.
Qed.

(** In [inoutOutFunction] the [@inout] argument is location 0 and the
    [@out] argument location 1: bit 0 only is set at the function entry. *)
Lemma initDataflow_seeds_witness :
  let st := {| entrySet := 1; genSet := 0; killSet := 1; exitSet := 3;
               reachableFromEntry := true; exitReachable := false |}%N in
  seededStatesOf inoutOutFunction !! 0 = Some st
  ∧ getNumLocations (tableOf inoutOutFunction) = 2
  ∧ exitSet st = N.ones 2
  ∧ (∀ i, N.testbit (entrySet st) i = true ↔
          bitOfArguments (tableOf inoutOutFunction) notOut
                         (getArguments inoutOutFunction) i).
Proof.
  intros st.
  assert (seededStatesOf inoutOutFunction !! 0 = Some st) as Hst
    by (vm_compute; reflexivity).
  destruct (initDataflow_seeds inoutOutFunction (tableOf inoutOutFunction)
              _ 0 st Hst) as (Hexit & _ & Hentry).
  split; [exact Hst|]. split; [reflexivity|]. split; [exact Hexit|].
  exact (proj1 (Hentry eq_refl)).
Defined.

(** ** The replay of a block and its summary *)

(** C10: the replay of a reachable block which does not end in a
    [try_apply] does not always end with the solved exit set.  In
    [storeAssignFunction] the summary of the block gens the location of the
    [@out] argument for the [store [assign]], so that the solved exit set
    is bit 0, while the replay leaves the bits untouched at a
    [store [assign]] and ends with no bit set: the assertion of
    [checkFunction] on the replayed bits does not hold. *)
Theorem replay_disagrees_at_store_assign :
  ∃ st,
    solvedStatesOf storeAssignFunction !! 0 = Some st
    ∧ reachableFromEntry st = true
    ∧ last (instructionsOf storeAssignFunction 0) = Some ReturnInst
    ∧ entrySet st = 0%N
    ∧ exitSet st = 1%N
    ∧ checkBlock storeAssignFunction (tableOf storeAssignFunction) 0
                 (entrySet st)
      = (0%N,
         [ {| complaint := "memory is not initialized, but should";
              locationIdx := 0; where_ := (0, 0) |} ])
    ∧ replayAgreesWithExitSet storeAssignFunction
        (tableOf storeAssignFunction) 0 st = false.
Proof.
  eexists. repeat split; vm_compute; reflexivity.
Qed.

Section Replay.

Variable function : SILFunction.
Variable L : MemoryLocations.

Lemma transfer_genBits st addr bits :
  transfer (genBits st addr L) bits = setBits L (transfer st bits) addr.
Proof.
  unfold transfer, genBits, setBits. destruct (getLocation L addr); [|done].
  simpl. apply N.bits_inj. intros i.
  rewrite ?N.lor_spec, ?N.ldiff_spec, ?N.lor_spec, ?N.ldiff_spec.
  by destruct (N.testbit bits i), (N.testbit (genSet st) i),
    (N.testbit (killSet st) i), (N.testbit (subLocations l) i).
Qed.

Lemma transfer_killBits st addr bits :
  transfer (killBits st addr L) bits = clearBits L (transfer st bits) addr.
Proof.
  unfold transfer, killBits, clearBits.
  destruct (getLocation L addr); [|done].
  simpl. apply N.bits_inj. intros i.
  rewrite ?N.lor_spec, ?N.ldiff_spec, ?N.lor_spec, ?N.ldiff_spec.
  by destruct (N.testbit bits i), (N.testbit (genSet st) i),
    (N.testbit (killSet st) i), (N.testbit (subLocations l) i).
Qed.

Lemma requireBits_nil wrongBits complaint where_ :
  requireBits wrongBits complaint where_ = [] → wrongBits = 0%N.
Proof.
  unfold requireBits, require, none.
  destruct (wrongBits =? 0)%N eqn:Heq; [|done]. intros _. by apply N.eqb_eq.
Qed.

Lemma setBits_of_requireBitsSet bits addr where_ :
  requireBitsSet L bits addr where_ = [] → setBits L bits addr = bits.
Proof.
  unfold requireBitsSet, setBits. destruct (getLocation L addr); [|done].
  intros Hzero%requireBits_nil. apply N.bits_inj. intros i.
  apply (f_equal (fun bits => N.testbit bits i)) in Hzero.
  rewrite N.ldiff_spec, N.bits_0 in Hzero. rewrite N.lor_spec.
  by destruct (N.testbit bits i), (N.testbit (subLocations l) i).
Qed.

Lemma checkOperand_summary where_ st bits failures op :
  (checkOperand L where_ (transfer st bits, failures) op).1
  = transfer (setOperandBits L false st op) bits.
Proof.
  unfold checkOperand, setOperandBits.
  destruct (getArgumentConvention op) as [convention|]; [|done].
  destruct convention; simpl;
    by rewrite ?transfer_genBits, ?transfer_killBits.
Qed.

Lemma checkFuncArguments_summary where_ allOperands :
  ∀ st bits failures,
    (foldl (checkOperand L where_) (transfer st bits, failures)
           allOperands).1
    = transfer (setFuncOperandsBits L st allOperands false) bits.
Proof.
  unfold setFuncOperandsBits.
  induction allOperands as [|op ops IH]; intros st bits failures; [done|].
  cbn [foldl].
  destruct (checkOperand L where_ (transfer st bits, failures) op)
    as [bits' failures'] eqn:Hop.
  pose proof (checkOperand_summary where_ st bits failures op) as Hsum.
  rewrite Hop in Hsum. simpl in Hsum. rewrite Hsum. apply IH.
Qed.

Lemma checkInstruction_summary st bits inst where_ :
  summarizable inst = true →
  (checkInstruction L (transfer st bits) inst where_).2 = [] →
  (checkInstruction L (transfer st bits) inst where_).1
  = transfer (initDataflowInInstruction L st inst) bits.
Proof.
  intros Hsum Hnone.
  destruct inst; simpl in *; try done;
    try apply checkFuncArguments_summary;
    repeat case_match; simpl in *;
    rewrite ?transfer_genBits, ?transfer_killBits; try done.
  symmetry. by eapply setBits_of_requireBitsSet.
Qed.

Lemma checkInstructions_summary block insts :
  ∀ pos st bits,
    Forall (fun inst => summarizable inst = true) insts →
    (checkInstructions L block pos insts (transfer st bits)).2 = [] →
    (checkInstructions L block pos insts (transfer st bits)).1
    = transfer (foldl (initDataflowInInstruction L) st insts) bits.
Proof.
  induction insts as [|inst rest IH]; intros pos st bits Hall Hnone;
    [done|].
  apply Forall_cons in Hall as [Hinst Hrest].
  cbn [checkInstructions foldl] in *.
  pose proof (checkInstruction_summary st bits inst (block, pos) Hinst)
    as Hstep.
  destruct (checkInstruction L (transfer st bits) inst (block, pos))
    as [bits1 failures1].
  specialize (IH (S pos) (initDataflowInInstruction L st inst) bits Hrest).
  simpl in Hstep.
  destruct (checkInstructions L block (S pos) rest bits1)
    as [bits2 failures2] eqn:Hrec.
  simpl in Hnone. apply app_eq_nil in Hnone as [-> ->].
  rewrite <- (Hstep eq_refl) in IH. rewrite Hrec in IH. by apply IH.
Qed.

Lemma setBitsOfOutOperands_lor allOperands :
  ∀ bits,
    setBitsOfOutOperands L bits allOperands
    = N.lor bits (setBitsOfOutOperands L 0 allOperands).
Proof.
  unfold setBitsOfOutOperands.
  induction allOperands as [|op ops IH]; intros bits; cbn [foldl].
  - by rewrite N.lor_0_r.
  - rewrite IH. rewrite (IH (if isIndirectOut op then _ else _)).
    destruct (isIndirectOut op); [|by rewrite N.lor_0_l].
    unfold setBits. destruct (getLocation L (get op)).
    + by rewrite N.lor_0_l, N.lor_assoc.
    + by rewrite N.lor_0_l.
Qed.

Lemma setBitsOfPredecessor_lor bits block :
  setBitsOfPredecessor function L bits block
  = N.lor bits (setBitsOfPredecessor function L 0 block).
Proof.
  unfold setBitsOfPredecessor.
  repeat case_match; rewrite ?N.lor_0_r; try done.
  apply setBitsOfOutOperands_lor.
Qed.

(** The replay of a block which signals no failure computes the transfer
    function of the summary of the block. *)
Lemma checkBlock_summary block st bits :
  genSet st = 0%N → killSet st = 0%N →
  Forall (fun inst => summarizable inst = true)
         (instructionsOf function block) →
  (checkBlock function L block bits).2 = [] →
  (checkBlock function L block bits).1
  = transfer (initDataflowInBlock function L block st) bits.
Proof.
  intros Hgen Hkill Hall Hnone. unfold checkBlock, initDataflowInBlock in *.
  assert (setBitsOfPredecessor function L bits block
          = transfer (setGenSet (setBitsOfPredecessor function L (genSet st)
                                                      block) st) bits)
    as Hstart.
  { unfold transfer. simpl. rewrite Hgen, Hkill, N.ldiff_0_r.
    apply setBitsOfPredecessor_lor. }
  rewrite Hstart in *. by apply checkInstructions_summary.
Qed.

End Replay.

Lemma solveBlockForward_frame function firstRound changed states idx
    changed' states' :
  solveBlockForward function firstRound (changed, states) idx
  = (changed', states') →
  ∀ b st', states' !! b = Some st' →
    ∃ st, states !! b = Some st ∧ sameSummary st st'.
Proof.
  intros Hstep b st' Hb.
  apply solveBlockForward_shape in Hstep
    as [[-> _]|(st & Hst & _ & ->)].
  - by exists st'.
  - destruct (decide (b = idx)) as [->|Hne].
    + rewrite list_lookup_insert_eq in Hb by (by eapply lookup_lt_Some).
      injection Hb as <-. by exists st.
    + rewrite list_lookup_insert_ne in Hb by done. by exists st'.
Qed.

Lemma solveRoundForward_frame function firstRound states changed' states' :
  solveRoundForward function firstRound states = (changed', states') →
  ∀ b st', states' !! b = Some st' →
    ∃ st, states !! b = Some st ∧ sameSummary st st'.
Proof.
  unfold solveRoundForward. generalize (seq 0 (length states)) as order.
  generalize false as changed. intros changed order. revert changed states.
  induction order as [|idx order IH]; intros changed states; cbn [foldl].
  - intros [= <- <-] b st' Hb. by exists st'.
  - destruct (solveBlockForward function firstRound (changed, states) idx)
      as [changed1 states1] eqn:Hstep.
    intros Hfold b st' Hb.
    destruct (IH _ _ Hfold b st' Hb) as (st1 & Hst1 & Hsame1).
    destruct (solveBlockForward_frame _ _ _ _ _ _ _ Hstep b st1 Hst1)
      as (st & Hst & Hsame).
    exists st. split; [done|].
    destruct Hsame as (? & ? & ?), Hsame1 as (? & ? & ?).
    repeat split; congruence.
Qed.

Lemma solveDataflowForward_frame function states states' :
  solveDataflowForward function states = Some states' →
  ∀ b st', states' !! b = Some st' →
    exitEq st' ∧ ∃ st, states !! b = Some st ∧ sameSummary st st'.
Proof.
  intros Hloop.
  pose (Inv := fun (fr : bool) (s : list BlockState) =>
          (∀ b st', s !! b = Some st' →
                    ∃ st, states !! b = Some st ∧ sameSummary st st')
          ∧ (fr = false → ∀ i st, s !! i = Some st → exitEq st)).
  destruct (solveDataflowForwardLoop_result function Inv) with
    (fuel := 2 + sumEntryBits states) (firstRound := true)
    (states := states) (states' := states') as [[Hinv Hexit] _].
  - intros fr s c s' [Hinv Hexit] Hround. split.
    + intros b st' Hb.
      destruct (solveRoundForward_frame _ _ _ _ _ Hround b st' Hb)
        as (st1 & Hst1 & Hsame1).
      destruct (Hinv b st1 Hst1) as (st & Hst & Hsame).
      exists st. split; [done|].
      destruct Hsame as (? & ? & ?), Hsame1 as (? & ? & ?).
      repeat split; congruence.
    + intros _. by eapply solveRoundForward_exitEq.
  - split; [|done]. intros b st Hb. by exists st.
  - exact Hloop.
  - intros b st' Hb. split; [by apply (Hexit eq_refl b)|by apply Hinv].
Qed.

Lemma clearSummaries_insert states b st :
  clearSummaries states → states !! b = Some st →
  clearSummaries (<[b := setReachableFromEntry st]> states).
Proof.
  intros Hclear Hst b' st' Hb'.
  destruct (decide (b' = b)) as [->|Hne].
  - rewrite list_lookup_insert_eq in Hb' by (by eapply lookup_lt_Some).
    injection Hb' as <-. simpl. by apply (Hclear b).
  - rewrite list_lookup_insert_ne in Hb' by done. by apply (Hclear b').
Qed.

Lemma markSuccessors_clear succs :
  ∀ workList states workList' states',
    markSuccessors succs (workList, states) = (workList', states') →
    clearSummaries states → clearSummaries states'.
Proof.
  unfold markSuccessors.
  induction succs as [|succ succs IH]; intros workList states workList'
    states'; cbn [foldl].
  - by intros [= <- <-].
  - destruct (states !! succ) as [succState|] eqn:Hsucc; [|by apply IH].
    destruct (negb (reachableFromEntry succState)); [|by apply IH].
    intros Hfold Hclear. eapply IH; [exact Hfold|].
    by apply clearSummaries_insert.
Qed.

Lemma entryReachabilityLoop_clear function fuel :
  ∀ workList states,
    clearSummaries states →
    clearSummaries (entryReachabilityLoop function fuel workList states).
Proof.
  induction fuel as [|fuel IH]; intros workList states Hclear; [done|].
  simpl. destruct workList as [|state workList]; [done|].
  destruct (markSuccessors _ (workList, states)) as [workList' states']
    eqn:Hmark.
  apply IH. by eapply markSuccessors_clear.
Qed.

Lemma entryReachabilityAnalysis_clear function numLocations :
  clearSummaries
    (entryReachabilityAnalysis function
                               (MemoryDataflow function numLocations)).
Proof.
  assert (clearSummaries (MemoryDataflow function numLocations)) as Hclear.
  { intros b st Hb. unfold MemoryDataflow in Hb.
    rewrite list_lookup_fmap in Hb.
    destruct (blocks function !! b); [|done]. by injection Hb as <-. }
  unfold entryReachabilityAnalysis.
  destruct (MemoryDataflow function numLocations !! 0) as [entryState|]
    eqn:Hentry; [|done].
  apply entryReachabilityLoop_clear. by apply clearSummaries_insert.
Qed.

(** The replay of a block and its summary agree where the replay signals
    no failure: in the block states which [verify] solves, for a block
    which is reachable from the entry, has no [try_apply] and no
    unqualified store, and in which [checkBlock] signals no failure, the
    replay from the solved entry set ends with the solved exit set, and the
    assertion of [checkFunction] on the replayed bits holds. *)
Theorem replay_agrees_without_failure function L dataFlow block st :
  solveDataflowForward function
    (initDataflow function L
       (entryReachabilityAnalysis function
          (MemoryDataflow function (getNumLocations L))))
  = Some dataFlow →
  dataFlow !! block = Some st →
  reachableFromEntry st = true →
  Forall (fun inst => summarizable inst = true)
         (instructionsOf function block) →
  (checkBlock function L block (entrySet st)).2 = [] →
  (checkBlock function L block (entrySet st)).1 = exitSet st
  ∧ replayAgreesWithExitSet function L block st = true.
Proof.
  intros Hsolve Hst Hreach Hall Hnone.
  destruct (solveDataflowForward_frame _ _ _ Hsolve block st Hst)
    as (Hexit & st2 & Hst2 & Hgen & Hkill & Hreach2).
  assert ((checkBlock function L block (entrySet st)).1 = exitSet st)
    as Hagree.
  { unfold initDataflow in Hst2. rewrite list_lookup_imap in Hst2.
    destruct (entryReachabilityAnalysis function
                (MemoryDataflow function (getNumLocations L)) !! block)
      as [st1|] eqn:Hst1; [|done].
    destruct (entryReachabilityAnalysis_clear function (getNumLocations L)
                block st1 Hst1) as [Hgen1 Hkill1].
    simpl in Hst2. injection Hst2 as Hst2.
    assert (reachableFromEntry st2 = true) as Hr2 by congruence.
    assert (∃ seeded, genSet seeded = 0%N ∧ killSet seeded = 0%N
                      ∧ st2 = initDataflowInBlock function L block seeded)
      as (seeded & Hgen0 & Hkill0 & ->).
    { destruct (decide (block = 0)); simpl in Hst2;
        destruct (reachableFromEntry st1) eqn:Hr; subst st2;
        simpl in Hr2; try congruence;
        eexists; (split; [|split; [|reflexivity]]); done. }
    rewrite (checkBlock_summary function L block seeded); try done.
    rewrite Hexit. unfold transfer. by rewrite Hgen, Hkill. }
  split; [done|]. unfold replayAgreesWithExitSet.
  rewrite Hagree, N.eqb_refl. done.
Qed.

(** The first block of [inoutOutFunction], which destroys the [@inout]
    argument: its replay ends with the solved exit set. *)
Lemma replay_agrees_without_failure_witness :
  ∃ st,
    solvedStatesOf inoutOutFunction !! 0 = Some st
    ∧ (checkBlock inoutOutFunction (tableOf inoutOutFunction) 0
                  (entrySet st)).1 = exitSet st
    ∧ replayAgreesWithExitSet inoutOutFunction (tableOf inoutOutFunction)
                              0 st = true.
Proof.
  pose (dataFlow := solvedStatesOf inoutOutFunction).
  pose (st := default clearedState (dataFlow !! 0)).
  vm_compute in dataFlow, st.
  exists st. split; [vm_compute; reflexivity|].
  apply (replay_agrees_without_failure inoutOutFunction
           (tableOf inoutOutFunction) dataFlow 0 st).
  - vm_compute. reflexivity.
  - reflexivity.
  - reflexivity.
  - repeat constructor.
  - vm_compute. reflexivity.
Defined.

(** ** The analysis of the uses of a location *)

Lemma SILNode_uses_ind (P : SILNode → Prop) :
  (∀ V, Forall P (getUses V) → P V) → ∀ V, P V.
Proof.
  intros H. fix IH 1. intros [kind id parent type uses]. apply H. simpl.
  revert uses. fix IHuses 1. intros [|user uses].
  - constructor.
  - constructor; [apply IH|apply IHuses].
Qed.

Section Analysis.

Variable shouldTrackLocation : SILType → bool.

Abbreviation analyzeUses :=
  (analyzeLocationUsesRecursively shouldTrackLocation).

Lemma analyzeLocationUsesRecursively_eq V locIdx st :
  analyzeUses V locIdx st
  = forEachUse (analyzeUse shouldTrackLocation analyzeUses locIdx)
               (getUses V) st.
Proof. by destruct V. Qed.

Lemma analyzeUse_accepted locIdx user st :
  acceptedUse user →
  (∀ locIdx st, Forall acceptedUse (getUses user) →
                analyzeUses user locIdx st = (true, st)) →
  analyzeUse shouldTrackLocation analyzeUses locIdx user st = (true, st).
Proof.
  intros Hacc IH. unfold analyzeUse. destruct Hacc as [user Hk|user Hk Huses].
  - destruct (getKind user) as [| | |[]| | | | | | | | | | | | |]; done.
  - destruct (getKind user); try done. by apply IH.
Qed.

Lemma analyzeLocationUsesRecursively_accepted V :
  ∀ locIdx st,
    Forall acceptedUse (getUses V) →
    analyzeUses V locIdx st = (true, st).
Proof.
  induction V as [V IH] using SILNode_uses_ind. intros locIdx st Hacc.
  rewrite analyzeLocationUsesRecursively_eq.
  induction Hacc as [|user uses Huser Huses IHuses]; [done|]. simpl.
  apply Forall_cons in IH as [IHuser IH].
  rewrite analyzeUse_accepted; [by apply IHuses|done|done].
Qed.

Lemma forEachUse_false {A S : Type} (body : A → S → bool * S) uses :
  ∀ st st',
    forEachUse body uses st = (false, st') →
    ∃ use st1, use ∈ uses ∧ body use st1 = (false, st').
Proof.
  induction uses as [|use uses IH]; intros st st'; simpl; [done|].
  destruct (body use st) as [[] st1] eqn:Hbody.
  - intros (use' & st2 & Hin & Hfalse)%IH. exists use', st2.
    split; [by right|done].
  - intros [= <-]. exists use, st. split; [by left|done].
Qed.

Lemma analyzeAddrProjection_false analyzeUsesOf projection parentLocIdx fieldNr
    st st' :
  analyzeAddrProjection shouldTrackLocation analyzeUsesOf projection
                        parentLocIdx fieldNr st = (false, st') →
  ∃ subLocIdx st1, analyzeUsesOf subLocIdx st1 = (false, st').
Proof.
  unfold analyzeAddrProjection.
  destruct (shouldTrackLocation (getType projection)); [|done]. simpl.
  destruct (decide _).
  - destruct (analyzeUsesOf _ _) as [[] st2] eqn:Hrec; [done|].
    intros [= <-]. eauto.
  - destruct (analyzeUsesOf _ _) as [[] st2] eqn:Hrec; [done|].
    intros [= <-]. eauto.
Qed.

Lemma analyzeLocationUsesRecursively_false V :
  ∀ locIdx st st',
    analyzeUses V locIdx st = (false, st') →
    ∃ user, visitedUse V user ∧ isUnanalyzableKind (getKind user) = true.
Proof.
  induction V as [V IH] using SILNode_uses_ind. intros locIdx st st'.
  rewrite analyzeLocationUsesRecursively_eq.
  intros (user & st1 & Hin & Hfalse)%forEachUse_false.
  rewrite Forall_forall in IH. specialize (IH user Hin).
  unfold analyzeUse in Hfalse.
  destruct (getKind user) as [f|f| |q| | | | | | | | | | | | |n] eqn:Hkind;
    try done.
  - apply analyzeAddrProjection_false in Hfalse as (idx & st2 & Hrec).
    apply IH in Hrec as (inner & Hvis & Hbad). exists inner.
    split; [|done]. eapply visited_below; [done| |done].
    right. by rewrite Hkind.
  - apply analyzeAddrProjection_false in Hfalse as (idx & st2 & Hrec).
    apply IH in Hrec as (inner & Hvis & Hbad). exists inner.
    split; [|done]. eapply visited_below; [done| |done].
    right. by rewrite Hkind.
  - apply IH in Hfalse as (inner & Hvis & Hbad). exists inner.
    split; [|done]. eapply visited_below; [done| |done].
    left. by rewrite Hkind.
  - destruct q; try done. exists user. split; [by constructor|].
    by rewrite Hkind.
  - exists user. split; [by constructor|]. by rewrite Hkind.
  - exists user. split; [by constructor|]. by rewrite Hkind.
  - exists user. split; [by constructor|]. by rewrite Hkind.
Qed.

(** A rule for the invariants of the analysis of the uses of a value:
    [Inv] is kept and the states before and after are related by [R], if
    this is so for the two updates of the state in
    [analyzeAddrProjection]; [Idx st idx] says which location indices the
    analysis may be called with. *)
Section AnalysisRule.

Variable Inv : Analysis → Prop.
Variable Idx : Analysis → nat → Prop.
Variable R : Analysis → Analysis → Prop.

Hypothesis R_refl : ∀ st, R st st.
Hypothesis R_trans : ∀ st1 st2 st3, R st1 st2 → R st2 st3 → R st1 st3.
Hypothesis Idx_mono : ∀ st st' idx, R st st' → Idx st idx → Idx st' idx.
Hypothesis register_rule : ∀ projection parentLocIdx fieldNr st,
  Inv st → Idx st parentLocIdx →
  projectedField (getKind projection) = Some fieldNr →
  default 0 (subLocationMap st !! (parentLocIdx, fieldNr)) = 0 →
  let st1 := withSubLocation shouldTrackLocation projection parentLocIdx
                             fieldNr (length (locations (table st))) st in
  Inv st1 ∧ R st st1 ∧ Idx st1 (length (locations (table st))).
Hypothesis found_rule : ∀ parentLocIdx fieldNr subLocIdx st,
  Inv st → Idx st parentLocIdx →
  subLocationMap st !! (parentLocIdx, fieldNr) = Some subLocIdx →
  subLocIdx ≠ 0 → Idx st subLocIdx.
Hypothesis collected_rule : ∀ projection subLocIdx st,
  Inv st → Idx st subLocIdx →
  Inv (withCollectedVal projection subLocIdx st)
  ∧ R st (withCollectedVal projection subLocIdx st).

Lemma forEachUse_rule {A : Type} (body : A → Analysis → bool * Analysis)
    (uses : list A) (idx : nat) :
  Forall (fun use => ∀ st ok st',
            Inv st → Idx st idx → body use st = (ok, st') →
            Inv st' ∧ R st st') uses →
  ∀ st ok st',
    Inv st → Idx st idx → forEachUse body uses st = (ok, st') →
    Inv st' ∧ R st st'.
Proof.
  induction 1 as [|use uses Huse _ IH]; intros st ok st' Hinv Hidx; simpl.
  - intros [= <- <-]. auto.
  - destruct (body use st) as [ok1 st1] eqn:Hbody.
    destruct (Huse _ _ _ Hinv Hidx Hbody) as [Hinv1 HR1].
    destruct ok1.
    + intros Hrest. destruct (IH _ _ _ Hinv1 (Idx_mono _ _ _ HR1 Hidx) Hrest).
      eauto.
    + intros [= <- <-]. auto.
Qed.

Lemma analyzeAddrProjection_rule analyzeUsesOf projection parentLocIdx
    fieldNr :
  projectedField (getKind projection) = Some fieldNr →
  (∀ subLocIdx st ok st',
     Inv st → Idx st subLocIdx → analyzeUsesOf subLocIdx st = (ok, st') →
     Inv st' ∧ R st st') →
  ∀ st ok st',
    Inv st → Idx st parentLocIdx →
    analyzeAddrProjection shouldTrackLocation analyzeUsesOf projection
                          parentLocIdx fieldNr st = (ok, st') →
    Inv st' ∧ R st st'.
Proof.
  intros Hfield Hrec st ok st' Hinv Hidx. unfold analyzeAddrProjection.
  destruct (shouldTrackLocation (getType projection)); simpl;
    [|intros [= <- <-]; auto].
  destruct (decide _) as [Hnew|Hfound].
  - destruct (register_rule projection _ fieldNr _ Hinv Hidx Hfield Hnew)
      as (Hinv1 & HR1 & Hidx1).
    destruct (analyzeUsesOf _ _) as [ok2 st2] eqn:Huses.
    destruct (Hrec _ _ _ _ Hinv1 Hidx1 Huses) as [Hinv2 HR2].
    destruct ok2; simpl; intros [= <- <-]; [|eauto].
    destruct (collected_rule projection
                (length (locations (table st))) st2 Hinv2
                (Idx_mono _ _ _ HR2 Hidx1)) as [Hinv3 HR3].
    eauto.
  - destruct (subLocationMap st !! (parentLocIdx, fieldNr)) as [found|]
      eqn:Hmap; [|done]. simpl in Hfound |- *.
    pose proof (found_rule _ _ _ _ Hinv Hidx Hmap Hfound) as Hidx1.
    destruct (analyzeUsesOf _ _) as [ok2 st2] eqn:Huses.
    destruct (Hrec _ _ _ _ Hinv Hidx1 Huses) as [Hinv2 HR2].
    destruct ok2; simpl; intros [= <- <-]; [|eauto].
    destruct (collected_rule projection found st2 Hinv2
                             (Idx_mono _ _ _ HR2 Hidx1)) as [Hinv3 HR3].
    eauto.
Qed.

Lemma analyzeLocationUsesRecursively_rule V :
  ∀ locIdx st ok st',
    Inv st → Idx st locIdx →
    analyzeUses V locIdx st = (ok, st') →
    Inv st' ∧ R st st'.
Proof.
  induction V as [V IH] using SILNode_uses_ind. intros locIdx st ok st'.
  rewrite analyzeLocationUsesRecursively_eq. intros Hinv Hidx Hfor.
  eapply (forEachUse_rule _ _ locIdx); [|exact Hinv|exact Hidx|exact Hfor].
  eapply Forall_impl; [exact IH|]. clear st ok st' Hinv Hidx Hfor.
  intros user IHuser st ok st' Hinv Hidx. unfold analyzeUse.
  destruct (getKind user) as [f|f| |q| | | | | | | | | | | | |n] eqn:Hkind;
    try (intros [= <- <-]; by auto).
  - apply analyzeAddrProjection_rule; [by rewrite Hkind| |done|done].
    intros; eauto.
  - apply analyzeAddrProjection_rule; [by rewrite Hkind| |done|done].
    intros; eauto.
  - by apply IHuser.
  - destruct q; intros [= <- <-]; auto.
Qed.

End AnalysisRule.

End Analysis.

(** ** The bookkeeping of the sub-locations *)

Lemma ancestorOrSelf_le locs a i :
  parentsFirst locs → ancestorOrSelf locs a i → a ≤ i.
Proof.
  intros Hpf. induction 1 as [|a i loc parent Hi Hp _ IH]; [done|].
  specialize (Hpf i loc Hi). lia.
Qed.

Lemma ancestorOrSelf_ext (locs locs' : list Location) a i :
  (∀ j, parentIdx <$> locs' !! j = parentIdx <$> locs !! j) →
  ancestorOrSelf locs a i → ancestorOrSelf locs' a i.
Proof.
  intros Hext. induction 1 as [|a i loc parent Hi Hp _ IH]; [constructor|].
  specialize (Hext i). rewrite Hi in Hext. simpl in Hext.
  destruct (locs' !! i) as [loc'|] eqn:Hi'; [|done].
  injection Hext as Hext. eapply ancestor_parent; [done| |done]. congruence.
Qed.

Lemma ancestorOrSelf_inv locs a i :
  ancestorOrSelf locs a i →
  a = i
  ∨ ∃ loc parent, locs !! i = Some loc ∧ parentIdx loc = Z.of_nat parent
                  ∧ ancestorOrSelf locs a parent.
Proof. destruct 1; eauto 10. Qed.

Lemma parentsFirst_insert (locs : list Location) idx loc loc' :
  parentsFirst locs → locs !! idx = Some loc →
  parentIdx loc' = parentIdx loc →
  parentsFirst (<[idx := loc']> locs).
Proof.
  intros Hpf Hidx Hp i x Hi. destruct (decide (i = idx)) as [->|Hne].
  - rewrite list_lookup_insert_eq in Hi by (by eapply lookup_lt_Some).
    injection Hi as <-. rewrite Hp. by apply Hpf.
  - rewrite list_lookup_insert_ne in Hi by done. by apply Hpf.
Qed.

Lemma parentIdx_insert (locs : list Location) (idx : nat) loc loc' (j : nat) :
  locs !! idx = Some loc → parentIdx loc' = parentIdx loc →
  parentIdx <$> <[idx := loc']> locs !! j = parentIdx <$> locs !! j.
Proof.
  intros Hidx Hp. destruct (decide (j = idx)) as [->|Hne].
  - rewrite list_lookup_insert_eq by (by eapply lookup_lt_Some).
    rewrite Hidx. simpl. by rewrite Hp.
  - by rewrite list_lookup_insert_ne.
Qed.

(** The walk over a location and its parents applies [f] to these
    locations and to no other. *)
Lemma updateSelfAndParents_lookup f :
  (∀ loc, parentIdx (f loc) = parentIdx loc) →
  ∀ fuel idx locs,
    parentsFirst locs → idx < fuel →
    length (updateSelfAndParents f fuel idx locs) = length locs
    ∧ ∀ j,
        (ancestorOrSelf locs j idx
         ∧ updateSelfAndParents f fuel idx locs !! j = f <$> locs !! j)
        ∨ (¬ ancestorOrSelf locs j idx
           ∧ updateSelfAndParents f fuel idx locs !! j = locs !! j).
Proof.
  intros Hf. induction fuel as [|fuel IH]; intros idx locs Hpf Hfuel; [lia|].
  simpl. destruct (locs !! idx) as [loc|] eqn:Hidx.
  - pose proof (Hpf idx loc Hidx) as Hparent.
    assert (parentsFirst (<[idx := f loc]> locs)) as Hpf'
      by (by eapply parentsFirst_insert).
    assert (∀ j, parentIdx <$> <[idx := f loc]> locs !! j
                 = parentIdx <$> locs !! j) as Hext
      by (intros; by eapply parentIdx_insert).
    assert (∀ j, parentIdx <$> locs !! j
                 = parentIdx <$> <[idx := f loc]> locs !! j) as Hext'
      by (intros; by rewrite Hext).
    destruct (Z.leb_spec 0 (parentIdx loc)) as [Hpos|Hneg].
    + destruct (IH (Z.to_nat (parentIdx loc)) (<[idx := f loc]> locs) Hpf')
        as [Hlen Hlook]; [lia|].
      split; [by rewrite Hlen, length_insert|].
      intros j. destruct (decide (j = idx)) as [->|Hne].
      * left. split; [constructor|].
        destruct (Hlook idx) as [[Hanc _]|[_ ->]].
        -- apply ancestorOrSelf_le in Hanc; [lia|done].
        -- rewrite list_lookup_insert_eq by (by eapply lookup_lt_Some).
           by rewrite Hidx.
      * destruct (Hlook j) as [[Hanc ->]|[Hnot ->]];
          rewrite list_lookup_insert_ne by done.
        -- left. split; [|done].
           eapply ancestor_parent; [done| |by eapply ancestorOrSelf_ext].
           lia.
        -- right. split; [|done].
           intros [?|(loc' & parent & Hloc' & Hp & Hanc)]%ancestorOrSelf_inv;
             [done|].
           assert (loc' = loc) as -> by congruence.
           apply Hnot.
           assert (Z.to_nat (parentIdx loc) = parent) as -> by lia.
           by eapply ancestorOrSelf_ext.
    + split; [by rewrite length_insert|]. intros j.
      destruct (decide (j = idx)) as [->|Hne].
      * left. split; [constructor|].
        rewrite list_lookup_insert_eq by (by eapply lookup_lt_Some).
        by rewrite Hidx.
      * right. rewrite list_lookup_insert_ne by done. split; [|done].
        intros [?|(loc' & parent & Hloc' & Hp & Hanc)]%ancestorOrSelf_inv;
          [done|].
        assert (loc' = loc) as -> by congruence. lia.
  - split; [done|]. intros j. destruct (decide (j = idx)) as [->|Hne].
    + left. split; [constructor|]. by rewrite Hidx.
    + right. split; [|done].
      intros [?|(loc' & parent & Hloc' & _)]%ancestorOrSelf_inv; [done|].
      congruence.
Qed.

(** Under [parentsFirst] it is decided whether a location is an ancestor
    of another. *)
Lemma ancestorOrSelf_dec locs a i :
  parentsFirst locs → ancestorOrSelf locs a i ∨ ¬ ancestorOrSelf locs a i.
Proof.
  intros Hpf.
  destruct (updateSelfAndParents_lookup id (fun _ => eq_refl) (S i) i locs
              Hpf (le_n _)) as [_ Hlook].
  destruct (Hlook a) as [[? _]|[? _]]; auto.
Qed.

Lemma ancestorOrSelf_ext_below (locs locs' : list Location) a i :
  parentsFirst locs →
  (∀ j, j ≤ i → parentIdx <$> locs' !! j = parentIdx <$> locs !! j) →
  ancestorOrSelf locs a i → ancestorOrSelf locs' a i.
Proof.
  intros Hpf Hext Hanc. revert Hext.
  induction Hanc as [|a i loc parent Hi Hp _ IH]; intros Hext; [constructor|].
  pose proof (Hext i (le_n _)) as Hexti. rewrite Hi in Hexti. simpl in Hexti.
  destruct (locs' !! i) as [loc'|] eqn:Hi'; [|done].
  injection Hexti as Hexti.
  pose proof (Hpf i loc Hi).
  eapply ancestor_parent; [done| |].
  - rewrite <- Hp. exact Hexti.
  - apply IH. intros j Hj. apply Hext. lia.
Qed.

Lemma ancestorOrSelf_lt_length (locs : list Location) a i :
  i < length locs → parentsFirst locs → ancestorOrSelf locs a i →
  a < length locs.
Proof. intros Hi Hpf Hanc%ancestorOrSelf_le; [lia|done]. Qed.

Section Register.

Variable shouldTrackLocation : SILType → bool.

Lemma initFieldsCounter_spec loc :
  initFieldsCounter shouldTrackLocation loc
  = if (0 <=? numFieldsNotCoveredBySubfields loc)%Z then loc
    else setNumFields (numFields shouldTrackLocation (getType (representativeValue loc))) loc.
Proof.
  unfold initFieldsCounter, numFields.
  destruct (0 <=? _)%Z; [done|].
  by destruct (getType (representativeValue loc)) as [[]| |].
Qed.

Lemma registerSubLocation_spec projection parentLocIdx locs parentLoc :
  parentsFirst locs →
  locs !! parentLocIdx = Some parentLoc →
  let subLocIdx := length locs in
  let locs' := registerSubLocation shouldTrackLocation projection
                                   parentLocIdx subLocIdx locs in
  let after := subLocationsAfterProjection shouldTrackLocation parentLoc parentLocIdx subLocIdx in
  length locs' = S subLocIdx
  ∧ locs' !! subLocIdx
    = Some (setSelfAndParents
              (N.lor (setBitAndResize 0%N subLocIdx)
                     (selfAndParents parentLoc))
              (newLocation projection subLocIdx (Z.of_nat parentLocIdx)))
  ∧ locs' !! parentLocIdx
    = Some (setSubLocations (after (subLocations parentLoc))
              (setNumFields (counterAfterProjection shouldTrackLocation parentLoc) parentLoc))
  ∧ ∀ j loc,
      locs !! j = Some loc → j ≠ parentLocIdx →
      (ancestorOrSelf locs j parentLocIdx
       ∧ locs' !! j = Some (setSubLocations (after (subLocations loc)) loc))
      ∨ (¬ ancestorOrSelf locs j parentLocIdx ∧ locs' !! j = Some loc).
Proof.
  intros Hpf Hp subLocIdx locs' after.
  assert (parentLocIdx < length locs) as Hlt by (by eapply lookup_lt_Some).
  subst subLocIdx locs' after. unfold registerSubLocation. rewrite Hp.
  set (sub := setSelfAndParents _ (newLocation projection _ _)).
  set (locs1 := locs ++ [sub]).
  set (setSub := fun loc => setSubLocations
                   (setBitAndResize (subLocations loc) (length locs)) loc).
  set (clearParent := fun loc => setSubLocations
                   (N.clearbit (subLocations loc) (N.of_nat parentLocIdx))
                   loc).
  (* the table with the new location *)
  assert (parentsFirst locs1) as Hpf1.
  { intros i loc Hi. unfold locs1 in Hi.
    apply lookup_app_Some in Hi as [Hi|[Hge Hi]]; [by apply Hpf|].
    apply list_lookup_singleton_Some in Hi as [Hi <-]. simpl. lia. }
  assert (∀ j, j < length locs → locs1 !! j = locs !! j) as Hlocs1.
  { intros j Hj. unfold locs1. by rewrite lookup_app_l. }
  assert (locs1 !! length locs = Some sub) as Hsub1.
  { unfold locs1. by rewrite list_lookup_middle. }
  assert (length locs1 = S (length locs)) as Hlen1.
  { unfold locs1. rewrite length_app. simpl. lia. }
  (* the first walk *)
  destruct (updateSelfAndParents_lookup setSub (fun _ => eq_refl)
              (S parentLocIdx) parentLocIdx locs1 Hpf1 (le_n _))
    as [Hlen2 Hlook2].
  set (locs2 := updateSelfAndParents setSub (S parentLocIdx) parentLocIdx
                                     locs1) in *.
  assert (locs2 !! parentLocIdx = Some (setSub parentLoc)) as Hp2.
  { destruct (Hlook2 parentLocIdx) as [[_ ->]|[Hnot _]].
    - by rewrite Hlocs1, Hp.
    - destruct Hnot. constructor. }
  (* the counter *)
  set (locs4 := alter _ parentLocIdx (alter _ parentLocIdx locs2)).
  assert (locs4 !! parentLocIdx
          = Some (setNumFields (counterAfterProjection shouldTrackLocation parentLoc)
                               (setSub parentLoc))) as Hp4.
  { unfold locs4. rewrite !list_lookup_alter_eq, Hp2. simpl. f_equal.
    rewrite initFieldsCounter_spec. unfold counterAfterProjection. simpl.
    by destruct (0 <=? _)%Z. }
  assert (∀ j, j ≠ parentLocIdx → locs4 !! j = locs2 !! j) as Hne4.
  { intros j Hj. unfold locs4. by rewrite !list_lookup_alter_ne. }
  assert (length locs4 = S (length locs)) as Hlen4.
  { unfold locs4. by rewrite !length_alter, Hlen2. }
  assert (∀ j, parentIdx <$> locs4 !! j = parentIdx <$> locs1 !! j) as Hpar4.
  { intros j. destruct (decide (j = parentLocIdx)) as [->|Hj].
    - by rewrite Hp4, Hlocs1, Hp.
    - rewrite Hne4 by done.
      destruct (Hlook2 j) as [[_ ->]|[_ ->]]; [|done].
      by destruct (locs1 !! j). }
  assert (parentsFirst locs4) as Hpf4.
  { intros i loc Hi. specialize (Hpar4 i). rewrite Hi in Hpar4.
    simpl in Hpar4. destruct (locs1 !! i) as [loc1|] eqn:Hi1; [|done].
    injection Hpar4 as ->. by eapply Hpf1. }
  assert (∀ j, ancestorOrSelf locs j parentLocIdx →
               ancestorOrSelf locs1 j parentLocIdx) as Hanc01.
  { intros j Hanc.
    eapply ancestorOrSelf_ext_below; [exact Hpf| |exact Hanc].
    intros i Hi. rewrite Hlocs1; [done|lia]. }
  assert (∀ j, ancestorOrSelf locs1 j parentLocIdx →
               ancestorOrSelf locs j parentLocIdx) as Hanc10.
  { intros j Hanc.
    eapply ancestorOrSelf_ext_below; [exact Hpf1| |exact Hanc].
    intros i Hi. rewrite Hlocs1; [done|lia]. }
  assert (∀ j, ancestorOrSelf locs4 j parentLocIdx →
               ancestorOrSelf locs1 j parentLocIdx) as Hanc41
    by (intros j; by apply ancestorOrSelf_ext).
  assert (∀ j, ancestorOrSelf locs1 j parentLocIdx →
               ancestorOrSelf locs4 j parentLocIdx) as Hanc14
    by (intros j; by apply ancestorOrSelf_ext).
  (* the second walk *)
  rewrite Hp4. cbn [numFieldsNotCoveredBySubfields setNumFields].
  unfold subLocationsAfterProjection.
  destruct (Z.eqb_spec (counterAfterProjection shouldTrackLocation parentLoc) 0) as [Hzero|Hnz].
  - destruct (updateSelfAndParents_lookup clearParent (fun _ => eq_refl)
                (S parentLocIdx) parentLocIdx locs4 Hpf4 (le_n _))
      as [Hlen5 Hlook5].
    split; [by rewrite Hlen5|]. split; [|split].
    + destruct (Hlook5 (length locs)) as [[Hanc _]|[_ ->]].
      * apply Hanc41, Hanc10, ancestorOrSelf_le in Hanc; [lia|done].
      * rewrite Hne4 by lia.
        destruct (Hlook2 (length locs)) as [[Hanc _]|[_ ->]]; [|done].
        apply Hanc10, ancestorOrSelf_le in Hanc; [lia|done].
    + destruct (Hlook5 parentLocIdx) as [[_ ->]|[Hnot _]].
      * rewrite Hp4. done.
      * destruct Hnot. constructor.
    + intros j loc Hj Hne.
      assert (j < length locs) as Hjlt by (by eapply lookup_lt_Some).
      destruct (Hlook5 j) as [[Hanc ->]|[Hnot ->]]; rewrite Hne4 by done.
      * left. split; [by apply Hanc10, Hanc41|].
        destruct (Hlook2 j) as [[_ ->]|[Hnot _]].
        -- by rewrite Hlocs1, Hj.
        -- destruct Hnot. by apply Hanc41.
      * right. split; [by intros ?%Hanc01%Hanc14|].
        destruct (Hlook2 j) as [[Hanc _]|[_ ->]].
        -- destruct Hnot. by apply Hanc14.
        -- by rewrite Hlocs1.
  - split; [done|]. split; [|split].
    + rewrite Hne4 by lia.
      destruct (Hlook2 (length locs)) as [[Hanc _]|[_ ->]]; [|done].
      apply Hanc10, ancestorOrSelf_le in Hanc; [lia|done].
    + done.
    + intros j loc Hj Hne.
      assert (j < length locs) as Hjlt by (by eapply lookup_lt_Some).
      rewrite Hne4 by done.
      destruct (Hlook2 j) as [[Hanc ->]|[Hnot ->]]; rewrite Hlocs1 by done.
      * left. split; [by apply Hanc10|]. by rewrite Hj.
      * right. split; [by intros ?%Hanc01|done].
Qed.

(** The registration of a sub-location changes no parent and appends a
    location whose parent is [parentLocIdx]. *)
Lemma registerSubLocation_parents projection parentLocIdx locs parentLoc :
  parentsFirst locs →
  locs !! parentLocIdx = Some parentLoc →
  let locs' := registerSubLocation shouldTrackLocation projection
                                   parentLocIdx (length locs) locs in
  parentIdx <$> locs' = (parentIdx <$> locs) ++ [Z.of_nat parentLocIdx]
  ∧ parentsFirst locs'.
Proof.
  intros Hpf Hp locs'.
  destruct (registerSubLocation_spec projection parentLocIdx locs parentLoc
              Hpf Hp) as (Hlen & Hnew & Hparent & Hother).
  fold locs' in Hlen, Hnew, Hparent, Hother.
  assert (parentIdx <$> locs' = (parentIdx <$> locs) ++ [Z.of_nat parentLocIdx])
    as Hparents.
  { apply list_eq. intros j. rewrite list_lookup_fmap.
    destruct (decide (j < length locs)) as [Hj|Hj].
    - rewrite lookup_app_l by (by rewrite length_fmap).
      rewrite list_lookup_fmap.
      destruct (lookup_lt_is_Some_2 locs j Hj) as [loc Hloc]. rewrite Hloc.
      destruct (decide (j = parentLocIdx)) as [->|Hne].
      + rewrite Hparent. simpl. congruence.
      + destruct (Hother j loc Hloc Hne) as [[_ ->]|[_ ->]]; done.
    - destruct (decide (j = length locs)) as [->|Hne].
      + rewrite Hnew. rewrite lookup_app_r by (by rewrite length_fmap).
        by rewrite length_fmap, Nat.sub_diag.
      + rewrite (lookup_ge_None_2 locs') by lia.
        rewrite lookup_ge_None_2; [done|].
        rewrite length_app, length_fmap. simpl. lia. }
  split; [done|]. intros i loc Hi.
  assert ((parentIdx <$> locs') !! i = Some (parentIdx loc)) as Hpi
    by (by rewrite list_lookup_fmap, Hi).
  rewrite Hparents in Hpi.
  apply lookup_app_Some in Hpi as [Hpi|[Hge Hpi]].
  - rewrite list_lookup_fmap in Hpi.
    destruct (locs !! i) as [loc0|] eqn:Hi0; [|done].
    injection Hpi as <-. by apply Hpf.
  - apply list_lookup_singleton_Some in Hpi as [Hi0 <-].
    rewrite length_fmap in Hge, Hi0. apply lookup_lt_Some in Hp. lia.
Qed.

End Register.

(** ** The analysis of a root *)

Lemma extendsRoot_refl root st : extendsRoot root st st.
Proof.
  repeat split; try done. exists []. split; [by rewrite app_nil_r|done].
Qed.

Lemma extendsRoot_trans root st1 st2 st3 :
  extendsRoot root st1 st2 → extendsRoot root st2 st3 →
  extendsRoot root st1 st3.
Proof.
  intros (Ht1 & Hl1 & Hs1 & new1 & Hc1 & Ha1)
         (Ht2 & Hl2 & Hs2 & new2 & Hc2 & Ha2).
  repeat split; try congruence; try lia.
  exists (new1 ++ new2). split; [by rewrite Hc2, Hc1, app_assoc|].
  intros id Hid. rewrite fmap_app, not_elem_of_app in Hid.
  destruct Hid as [Hid1 Hid2]. by rewrite Ha2, Ha1.
Qed.

Lemma ancestorOrSelf_ge_root root (locs : list Location) rootLoc a i :
  locs !! root = Some rootLoc → (parentIdx rootLoc < 0)%Z →
  (∀ j loc, locs !! j = Some loc → root < j →
            (Z.of_nat root ≤ parentIdx loc)%Z) →
  root ≤ i → ancestorOrSelf locs a i → root ≤ a.
Proof.
  intros Hroot Hneg Hafter Hi Hanc.
  induction Hanc as [|a i loc parent Hloc Hp _ IH]; [done|].
  destruct (decide (i = root)) as [->|Hne].
  - assert (loc = rootLoc) as -> by congruence. lia.
  - apply IH. specialize (Hafter i loc Hloc). lia.
Qed.

Section Frame.

Variable shouldTrackLocation : SILType → bool.
Variable root : nat.

Lemma wfRoot_register projection parentLocIdx fieldNr st :
  wfRoot root st →
  root ≤ parentLocIdx < length (locations (table st)) →
  let st1 := withSubLocation shouldTrackLocation projection parentLocIdx
                             fieldNr (length (locations (table st))) st in
  wfRoot root st1 ∧ extendsRoot root st st1
  ∧ root ≤ length (locations (table st))
    < length (locations (table st1)).
Proof.
  intros (Hpf & (rootLoc & Hroot & Hneg) & Hafter & Hmap) [Hge Hlt] st1.
  destruct (lookup_lt_is_Some_2 _ _ Hlt) as [parentLoc Hp].
  destruct (registerSubLocation_spec shouldTrackLocation projection
              parentLocIdx _ parentLoc Hpf Hp)
    as (Hlen & Hnew & Hparent & Hother).
  destruct (registerSubLocation_parents shouldTrackLocation projection
              parentLocIdx _ parentLoc Hpf Hp) as [Hparents Hpf1].
  set (locs := locations (table st)) in *.
  set (locs1 := registerSubLocation shouldTrackLocation projection
                  parentLocIdx (length locs) locs) in *.
  assert (locations (table st1) = locs1) as Hlocs1 by done.
  assert (root < length locs) as Hrlt by (by eapply lookup_lt_Some).
  (* the locations before the root, and the root, keep their parent *)
  assert (∀ j loc1, locs1 !! j = Some loc1 → j < length locs →
            ∃ loc, locs !! j = Some loc ∧ parentIdx loc1 = parentIdx loc)
    as Hold.
  { intros j loc1 Hj Hjlt.
    assert ((parentIdx <$> locs1) !! j = Some (parentIdx loc1)) as Hpj
      by (by rewrite list_lookup_fmap, Hj).
    rewrite Hparents, lookup_app_l, list_lookup_fmap in Hpj
      by (by rewrite length_fmap).
    destruct (locs !! j) as [loc|]; [|done]. injection Hpj as <-. eauto. }
  assert (take root locs1 = take root locs) as Htake.
  { apply list_eq. intros j. rewrite !lookup_take.
    destruct (decide (j < root)) as [Hj|Hj]; [|done].
    destruct (lookup_lt_is_Some_2 locs j) as [loc Hloc]; [lia|].
    destruct (Hother j loc Hloc) as [[Hanc _]|[_ ->]]; [lia| |done].
    assert (root ≤ j); [|lia].
    eapply (ancestorOrSelf_ge_root root locs rootLoc j parentLocIdx);
      [exact Hroot|exact Hneg|exact Hafter|exact Hge|exact Hanc]. }
  split; [|split].
  - split; [by rewrite Hlocs1|]. rewrite Hlocs1. split; [|split].
    + destruct (decide (root = parentLocIdx)) as [<-|Hne].
      * eexists. split; [exact Hparent|].
        assert (parentLoc = rootLoc) as -> by congruence. done.
      * destruct (Hother root rootLoc Hroot Hne) as [[_ ->]|[_ ->]];
          eexists; split; done.
    + intros i loc1 Hi Hri.
      destruct (decide (i < length locs)) as [Hilt|Hige].
      * destruct (Hold i loc1 Hi Hilt) as (loc & Hloc & ->). by eapply Hafter.
      * assert (i = length locs) as ->.
        { apply lookup_lt_Some in Hi. lia. }
        rewrite Hnew in Hi. injection Hi as <-. simpl. lia.
    + intros key idx. unfold st1, withSubLocation. simpl.
      rewrite Hlen. fold locs.
      destruct (decide (key = (parentLocIdx, fieldNr))) as [->|Hne].
      * rewrite lookup_insert_eq. intros [= <-]. lia.
      * rewrite lookup_insert_ne by done. intros Hk%Hmap. fold locs in Hk.
        lia.
  - split; [by rewrite Hlocs1|]. rewrite Hlocs1. fold locs.
    split; [rewrite Hlen; lia|].
    split; [done|]. exists []. split; [by rewrite app_nil_r|done].
  - rewrite Hlocs1. fold locs. rewrite Hlen. lia.
Qed.

Lemma wfRoot_collected projection subLocIdx st :
  wfRoot root st →
  wfRoot root (withCollectedVal projection subLocIdx st)
  ∧ extendsRoot root st (withCollectedVal projection subLocIdx st).
Proof.
  intros Hwf. split; [done|]. repeat split; try done.
  exists [projection]. split; [done|]. intros id Hid. simpl.
  rewrite lookup_insert_ne; [done|]. intros <-. apply Hid. by left.
Qed.

(** The analysis of the uses of a value of the root [root] keeps the
    state well formed and leaves the rest of the table untouched. *)
Lemma analyzeLocationUsesRecursively_frame V locIdx st ok st' :
  wfRoot root st →
  root ≤ locIdx < length (locations (table st)) →
  analyzeLocationUsesRecursively shouldTrackLocation V locIdx st
  = (ok, st') →
  wfRoot root st' ∧ extendsRoot root st st'.
Proof.
  apply (analyzeLocationUsesRecursively_rule shouldTrackLocation
           (wfRoot root)
           (fun st idx => root ≤ idx < length (locations (table st)))
           (extendsRoot root)).
  - apply extendsRoot_refl.
  - apply extendsRoot_trans.
  - intros st1 st2 idx (_ & Hlen & _) ?. lia.
  - intros projection parentLocIdx fieldNr st1 Hwf Hidx _ _.
    by apply wfRoot_register.
  - intros parentLocIdx fieldNr subLocIdx st1 (_ & _ & _ & Hmap) _
           Hfound%Hmap _. lia.
  - intros projection subLocIdx st1 Hwf _. by apply wfRoot_collected.
Qed.

End Frame.

Lemma lookup_foldl_delete (vals : list SILNode) :
  ∀ (m : gmap nat nat) id,
    foldl (fun m V => delete (getId V) m) m vals !! id
    = if decide (id ∈ getId <$> vals) then None else m !! id.
Proof.
  induction vals as [|V vals IH]; intros m id; cbn [foldl]; [done|].
  rewrite IH, fmap_cons. destruct (decide (id = getId V)) as [->|Hne].
  - rewrite lookup_delete_eq. rewrite (decide_True (P := _ ∈ _ :: _));
      [by destruct (decide _)|by left].
  - rewrite lookup_delete_ne by done.
    destruct (decide (id ∈ getId <$> vals)) as [Hin|Hnin].
    + rewrite decide_True; [done|by right].
    + rewrite decide_False; [done|]. by intros [?|?]%elem_of_cons.
Qed.

Lemma wfRoot_withRootLocation loc L :
  parentsFirst (locations L) →
  wfRoot (length (locations L)) (withRootLocation loc L).
Proof.
  intros Hpf. unfold wfRoot. simpl. split; [|split; [|split]].
  - intros i x [Hi|[Hge Hi]]%lookup_app_Some; [by apply Hpf|].
    apply list_lookup_singleton_Some in Hi as [Hi <-]. simpl. lia.
  - eexists. split; [by rewrite list_lookup_middle|]. simpl. lia.
  - intros i x Hi Hlt.
    apply lookup_lt_Some in Hi. rewrite length_app in Hi. simpl in Hi. lia.
  - intros key idx. by rewrite lookup_empty.
Qed.

(** When the analysis of the uses fails, [analyzeLocation] restores the
    table. *)
Lemma analyzeLocation_discarded shouldTrackLocation loc L :
  parentsFirst (locations L) →
  shouldTrackLocation (getType loc) = true →
  analyzable shouldTrackLocation loc L = false →
  locations (analyzeLocation shouldTrackLocation loc L) = locations L
  ∧ singleBlockLocations (analyzeLocation shouldTrackLocation loc L)
    = singleBlockLocations L
  ∧ ∀ id idx,
      addr2LocIdx (analyzeLocation shouldTrackLocation loc L) !! id
      = Some idx →
      addr2LocIdx L !! id = Some idx.
Proof.
  intros Hpf Htrack. unfold analyzable, analyzeLocation. rewrite Htrack.
  simpl.
  destruct (analyzeLocationUsesRecursively _ _ _ _) as [ok st] eqn:Huses.
  simpl. intros ->. simpl.
  destruct (analyzeLocationUsesRecursively_frame shouldTrackLocation
              (length (locations L)) loc (length (locations L))
              (withRootLocation loc L) false st)
    as (Hwf & Htake & Hlen & Hsingle & new & Hcollected & Haddr).
  { by apply wfRoot_withRootLocation. }
  { simpl. rewrite length_app. simpl. lia. }
  { done. }
  split; [|split; [done|]].
  - rewrite Htake. simpl. by rewrite take_app_length.
  - intros id idx. rewrite lookup_foldl_delete.
    destruct (decide _) as [|Hnin]; [done|].
    rewrite Hcollected in Hnin. simpl in Hnin. by rewrite Haddr.
Qed.




(** ** The single-block locations *)

Lemma countDeallocStacks_Some BB uses :
  ∀ n, deallocStacksIn BB uses →
       countDeallocStacks BB uses n = Some (n + numDeallocStacks uses).
Proof.
  unfold numDeallocStacks.
  induction uses as [|user uses IH]; intros n Hall; simpl.
  - f_equal. lia.
  - apply Forall_cons in Hall as [Huser Hall].
    rewrite filter_cons. destruct (isDeallocStackInst user) eqn:Hd.
    + rewrite decide_True by auto. rewrite decide_True by done.
      rewrite IH by done. simpl. f_equal. lia.
    + rewrite decide_False by done. by apply IH.
Qed.

Lemma countDeallocStacks_None BB uses :
  ∀ n, ¬ deallocStacksIn BB uses → countDeallocStacks BB uses n = None.
Proof.
  induction uses as [|user uses IH]; intros n Hnot; simpl.
  - destruct Hnot. constructor.
  - destruct (isDeallocStackInst user) eqn:Hd.
    + destruct (decide (getParent user = BB)) as [Hp|Hp]; [|done].
      apply IH. intros Hall. apply Hnot. by constructor.
    + apply IH. intros Hall. apply Hnot. constructor; [|done].
      rewrite Hd. done.
Qed.

Lemma deallocStacksIn_dec BB uses :
  deallocStacksIn BB uses ∨ ¬ deallocStacksIn BB uses.
Proof.
  unfold deallocStacksIn.
  destruct (decide (Forall (fun user => isDeallocStackInst user = true
                                        → getParent user = BB) uses));
    auto.
Qed.

Lemma allUsesInSameBlock_spec ASI :
  allUsesInSameBlock ASI = true ↔
  numDeallocStacks (getUses ASI) = 1
  ∧ deallocStacksIn (getParent ASI) (getUses ASI).
Proof.
  unfold allUsesInSameBlock.
  destruct (deallocStacksIn_dec (getParent ASI) (getUses ASI)) as [Hall|Hnot].
  - rewrite countDeallocStacks_Some by done. simpl.
    rewrite bool_decide_eq_true. naive_solver.
  - rewrite countDeallocStacks_None by done. naive_solver.
Qed.

Section SingleBlock.

Variable shouldTrackLocation : SILType → bool.

Lemma analyzeLocationUsesRecursively_single V locIdx st ok st' :
  analyzeLocationUsesRecursively shouldTrackLocation V locIdx st
  = (ok, st') →
  singleBlockLocations (table st') = singleBlockLocations (table st).
Proof.
  intros Huses.
  apply (analyzeLocationUsesRecursively_rule shouldTrackLocation
           (fun _ => True) (fun _ _ => True)
           (fun st st' => singleBlockLocations (table st')
                          = singleBlockLocations (table st))
           ltac:(done) ltac:(intros; congruence) ltac:(done)
           ltac:(done) ltac:(done) ltac:(done)
           V locIdx st ok st' I I Huses).
Qed.

Lemma analyzeLocation_single loc L :
  singleBlockLocations (analyzeLocation shouldTrackLocation loc L)
  = singleBlockLocations L.
Proof.
  unfold analyzeLocation.
  destruct (shouldTrackLocation (getType loc)); [|done]. simpl.
  destruct (analyzeLocationUsesRecursively _ _ _ _) as [ok st] eqn:Huses.
  apply analyzeLocationUsesRecursively_single in Huses.
  by destruct ok.
Qed.

Lemma analyzeArgument_single L funcArg :
  singleBlockLocations (analyzeArgument shouldTrackLocation L funcArg)
  = singleBlockLocations L.
Proof.
  unfold analyzeArgument.
  destruct (getArgumentConventionOfArg funcArg);
    auto using analyzeLocation_single.
Qed.

(** An instruction adds at most itself to the single-block locations. *)
Lemma analyzeInstruction_single L inst :
  singleBlockLocations (analyzeInstruction shouldTrackLocation L inst)
  = singleBlockLocations L
    ++ match inst with
       | AllocStackInst false ASI =>
           if allUsesInSameBlock ASI then [ASI] else []
       | _ => []
       end.
Proof.
  destruct inst as [| | | | | | | | | |[] ASI| | | |]; simpl;
    rewrite ?app_nil_r; try done.
  destruct (allUsesInSameBlock ASI); simpl;
    [done|by rewrite analyzeLocation_single, app_nil_r].
Qed.

Lemma analyzeInstructions_single insts :
  ∀ L ASI,
    ASI ∈ singleBlockLocations L
    ∨ (AllocStackInst false ASI ∈ insts ∧ allUsesInSameBlock ASI = true) →
    ASI ∈ singleBlockLocations
            (foldl (analyzeInstruction shouldTrackLocation) L insts).
Proof.
  induction insts as [|inst insts IH]; intros L ASI; cbn [foldl].
  - intros [?|[?%elem_of_nil _]]; done.
  - intros Hin. apply IH. rewrite analyzeInstruction_single, elem_of_app.
    destruct Hin as [?|[[<-|?]%elem_of_cons Hall]]; [by left; left| |by right].
    left. right. rewrite Hall. by left.
Qed.

Lemma analyzeBlocks_single BBs :
  ∀ L ASI,
    ASI ∈ singleBlockLocations L
    ∨ (∃ BB, BB ∈ BBs ∧ AllocStackInst false ASI ∈ instructions BB
             ∧ allUsesInSameBlock ASI = true) →
    ASI ∈ singleBlockLocations
            (foldl (fun L BB =>
                      foldl (analyzeInstruction shouldTrackLocation) L
                            (instructions BB)) L BBs).
Proof.
  induction BBs as [|BB BBs IH]; intros L ASI; cbn [foldl].
  - intros [?|(? & ?%elem_of_nil & _)]; done.
  - intros Hin. apply IH.
    destruct Hin as [?|(BB' & [->|?]%elem_of_cons & Hinst & Hall)].
    + left. apply analyzeInstructions_single. by left.
    + left. apply analyzeInstructions_single. by right.
    + right. eauto.
Qed.

(** The handler is called for the block of every single-block location,
    either in the loop or after it. *)
Lemma handleSingleBlockLocationsLoop_calls {R : Type}
    (handlerFunc : MemoryLocations → BlockId → R) SVIs :
  ∀ currentBlock L out currentBlock' L',
    handleSingleBlockLocationsLoop shouldTrackLocation handlerFunc SVIs
                                   currentBlock L
    = (out, (currentBlock', L')) →
    ∀ block,
      currentBlock = Some block ∨ (∃ SVI, SVI ∈ SVIs ∧ getParent SVI = block) →
      (∃ L'', handlerFunc L'' block ∈ out) ∨ currentBlock' = Some block.
Proof.
  induction SVIs as [|SVI SVIs IH];
    intros currentBlock L out currentBlock' L'; simpl.
  - intros [= <- <- <-] block [?|(? & ?%elem_of_nil & _)]; [by right|done].
  - destruct (match currentBlock with
              | Some block =>
                  if decide (getParent SVI ≠ block)
                  then ([handlerFunc L block], clear L) else ([], L)
              | None => ([], L)
              end) as [out1 L1] eqn:Hfirst.
    destruct (handleSingleBlockLocationsLoop _ _ SVIs _ _)
      as [outs [cb'' L'']] eqn:Hrest.
    intros [= <- <- <-] block Hblock.
    specialize (IH _ _ _ _ _ Hrest).
    destruct (decide (getParent SVI = block)) as [Hsame|Hdiff].
    + destruct (IH block) as [(Lh & Hin)|?]; [by left; rewrite Hsame| |by right].
      left. exists Lh. apply elem_of_app. by right.
    + destruct Hblock as [->|(SVI' & [->|Hin]%elem_of_cons & Hp)].
      * rewrite decide_True in Hfirst by done. injection Hfirst as <- <-.
        left. exists L. apply elem_of_app. left. by left.
      * done.
      * destruct (IH block) as [(Lh & Hh)|?]; [right; eauto| |by right].
        left. exists Lh. apply elem_of_app. by right.
Qed.

Lemma handleSingleBlockLocations_calls {R : Type}
    (handlerFunc : MemoryLocations → BlockId → R) L SVI :
  SVI ∈ singleBlockLocations L →
  ∃ L', handlerFunc L' (getParent SVI)
        ∈ (handleSingleBlockLocations shouldTrackLocation handlerFunc L).1.
Proof.
  intros Hin. unfold handleSingleBlockLocations.
  destruct (handleSingleBlockLocationsLoop _ _ _ _ _)
    as [out [currentBlock L1]] eqn:Hloop.
  destruct (handleSingleBlockLocationsLoop_calls _ _ _ _ _ _ _ Hloop
              (getParent SVI)) as [(Lh & Hh)| ->]; [right; eauto| |].
  - exists Lh. destruct currentBlock; simpl; [|done].
    apply elem_of_app. by left.
  - exists L1. simpl. apply elem_of_app. right. by left.
Qed.

End SingleBlock.




(** ** Invariants of the table *)

(** A property of the table which every [analyzeLocation] keeps holds
    for the table which [analyzeLocations] builds. *)
Lemma analyzeLocations_fold shouldTrackLocation
    (P : list Location → Prop) :
  (∀ loc L, P (locations L) →
            P (locations (analyzeLocation shouldTrackLocation loc L))) →
  ∀ function L,
    P (locations L) →
    P (locations (analyzeLocations shouldTrackLocation function L)).
Proof.
  intros Hloc function L. unfold analyzeLocations.
  assert (∀ args L0,
            P (locations L0) →
            P (locations (foldl (analyzeArgument shouldTrackLocation)
                                L0 args))) as Hargs.
  { induction args as [|arg args IH]; intros L0 H0; cbn [foldl]; [done|].
    apply IH. unfold analyzeArgument.
    destruct (getArgumentConventionOfArg arg); auto. }
  assert (∀ insts L0,
            P (locations L0) →
            P (locations (foldl (analyzeInstruction shouldTrackLocation)
                                L0 insts))) as Hinsts.
  { induction insts as [|inst insts IH]; intros L0 H0; cbn [foldl]; [done|].
    apply IH.
    destruct inst as [| | | | | | | | | |[] ASI| | | |]; simpl; try done.
    destruct (allUsesInSameBlock ASI); [done|].
    by apply Hloc. }
  intros H0. generalize (Hargs (getArguments function) L H0).
  generalize (foldl (analyzeArgument shouldTrackLocation) L
                    (getArguments function)) as L1.
  induction (blocks function) as [|BB BBs IH]; intros L1 H1; cbn [foldl];
    [done|].
  apply IH. by apply Hinsts.
Qed.

(** A property of the table which holds after a root is pushed and after
    a sub-location is registered holds for the tables which the analysis
    builds. *)
Section TableInvariant.

Variable shouldTrackLocation : SILType → bool.
Variable P : list Location → Prop.

Hypothesis P_parentsFirst : ∀ locs, P locs → parentsFirst locs.
Hypothesis P_root :
  ∀ loc locs, P locs → P (locs ++ [newLocation loc (length locs) (-1)%Z]).
Hypothesis P_register :
  ∀ projection parentLocIdx locs parentLoc,
    P locs → locs !! parentLocIdx = Some parentLoc →
    P (registerSubLocation shouldTrackLocation projection parentLocIdx
                           (length locs) locs).

Lemma analyzeLocationUsesRecursively_table V locIdx st ok st' :
  P (locations (table st)) →
  analyzeLocationUsesRecursively shouldTrackLocation V locIdx st
  = (ok, st') →
  P (locations (table st')).
Proof.
  intros Hinv Huses.
  refine (proj1 (analyzeLocationUsesRecursively_rule shouldTrackLocation
           (fun st => P (locations (table st)))
           (fun _ _ => True) (fun _ _ => True)
           _ _ _ _ _ _ V locIdx st ok st' Hinv I Huses)); try done.
  intros projection parentLocIdx fieldNr st1 Hinv1 _ _ _. simpl.
  split; [|done].
  destruct (locations (table st1) !! parentLocIdx) as [parentLoc|] eqn:Hp.
  - by eapply P_register.
  - unfold registerSubLocation. by rewrite Hp.
Qed.

Lemma analyzeLocation_table loc L :
  P (locations L) →
  P (locations (analyzeLocation shouldTrackLocation loc L)).
Proof.
  intros Hinv.
  destruct (shouldTrackLocation (getType loc)) eqn:Htrack.
  - destruct (analyzable shouldTrackLocation loc L) eqn:Hok.
    + unfold analyzable in Hok. unfold analyzeLocation. rewrite Htrack.
      simpl.
      destruct (analyzeLocationUsesRecursively _ _ _ _) as [ok st] eqn:Huses.
      simpl in Hok. subst ok. simpl.
      eapply analyzeLocationUsesRecursively_table; [|exact Huses].
      simpl. by apply P_root.
    + destruct (analyzeLocation_discarded shouldTrackLocation loc L
                  (P_parentsFirst _ Hinv) Htrack Hok) as (-> & _). done.
  - unfold analyzeLocation. by rewrite Htrack.
Qed.

Lemma analyzeLocations_table function L :
  P (locations L) →
  P (locations (analyzeLocations shouldTrackLocation function L)).
Proof. apply analyzeLocations_fold, analyzeLocation_table. Qed.

End TableInvariant.

Lemma numChildren_snoc (locs locs' : list Location) parent p :
  parentIdx <$> locs' = (parentIdx <$> locs) ++ [parent] →
  numChildren locs' p
  = numChildren locs p + (if decide (parent = Z.of_nat p) then 1 else 0).
Proof.
  intros Hparents. unfold numChildren. rewrite Hparents, filter_app, length_app.
  f_equal. rewrite filter_cons, filter_nil. by destruct (decide _).
Qed.

Lemma numChildren_ge locs p :
  parentsFirst locs → length locs ≤ p → numChildren locs p = 0.
Proof.
  intros Hpf Hge. unfold numChildren.
  assert (Forall (fun parent => parent ≠ Z.of_nat p) (parentIdx <$> locs))
    as Hall.
  { apply Forall_forall. intros parent Hin.
    apply list_elem_of_lookup in Hin as [i Hi].
    rewrite list_lookup_fmap in Hi.
    destruct (locs !! i) as [loc|] eqn:Hloc; [|done]. injection Hi as <-.
    pose proof (Hpf i loc Hloc). apply lookup_lt_Some in Hloc. lia. }
  induction Hall as [|parent parents Hne _ IH]; [done|].
  rewrite filter_cons, decide_False by done. exact IH.
Qed.

Lemma numChildren_le locs p : numChildren locs p ≤ length locs.
Proof.
  unfold numChildren. etrans; [apply length_filter|]. by rewrite length_fmap.
Qed.

Lemma testbit_setBitAndResize bits idx i :
  N.testbit (setBitAndResize bits idx) (N.of_nat i)
  = if decide (i = idx) then true else N.testbit bits (N.of_nat i).
Proof.
  unfold setBitAndResize. destruct (decide (i = idx)) as [->|Hne].
  - apply N.setbit_eq.
  - apply N.setbit_neq. lia.
Qed.

Section ProjectionInvariant.

Variable shouldTrackLocation : SILType → bool.

Lemma testbit_subLocationsAfterProjection parentLoc parentLocIdx subLocIdx
    bits i :
  i ≠ subLocIdx →
  N.testbit (subLocationsAfterProjection shouldTrackLocation parentLoc
               parentLocIdx subLocIdx bits) (N.of_nat i)
  = if decide (i = parentLocIdx
               ∧ counterAfterProjection shouldTrackLocation parentLoc = 0%Z)
    then false else N.testbit bits (N.of_nat i).
Proof.
  intros Hne. unfold subLocationsAfterProjection.
  destruct (Z.eqb_spec (counterAfterProjection shouldTrackLocation parentLoc)
                       0) as [Hz|Hnz].
  - destruct (decide (i = parentLocIdx)) as [->|Hnp].
    + rewrite decide_True by done. apply N.clearbit_eq.
    + rewrite decide_False by (by intros [? _]).
      rewrite N.clearbit_neq by lia.
      by rewrite testbit_setBitAndResize, decide_False.
  - rewrite decide_False by (by intros [_ ?]).
    by rewrite testbit_setBitAndResize, decide_False.
Qed.

Lemma registerSubLocation_inv projection parentLocIdx locs parentLoc :
  projectionInv shouldTrackLocation locs →
  locs !! parentLocIdx = Some parentLoc →
  projectionInv shouldTrackLocation
    (registerSubLocation shouldTrackLocation projection parentLocIdx
                         (length locs) locs).
Proof.
  intros [Hpf Hinv] Hp.
  destruct (registerSubLocation_spec shouldTrackLocation projection
              parentLocIdx locs parentLoc Hpf Hp)
    as (Hlen & Hnew & Hparent & Hother).
  destruct (registerSubLocation_parents shouldTrackLocation projection
              parentLocIdx locs parentLoc Hpf Hp) as [Hparents Hpf'].
  set (s := length locs) in *.
  set (locs' := registerSubLocation shouldTrackLocation projection
                  parentLocIdx s locs) in *.
  set (c' := counterAfterProjection shouldTrackLocation parentLoc) in *.
  set (after := subLocationsAfterProjection shouldTrackLocation parentLoc
                  parentLocIdx s) in *.
  assert (parentLocIdx < s) as Hplt by (by eapply lookup_lt_Some).
  split; [exact Hpf'|].
  (* the old locations in the new table *)
  assert (∀ a loca', locs' !! a = Some loca' → a < s →
            ∃ loca, locs !! a = Some loca
              ∧ representativeValue loca' = representativeValue loca
              ∧ numFieldsNotCoveredBySubfields loca'
                = (if decide (a = parentLocIdx) then c'
                   else numFieldsNotCoveredBySubfields loca)
              ∧ ((ancestorOrSelf locs a parentLocIdx
                  ∧ subLocations loca' = after (subLocations loca))
                 ∨ (¬ ancestorOrSelf locs a parentLocIdx
                    ∧ subLocations loca' = subLocations loca))) as Hold.
  { intros a loca' Ha Halt.
    destruct (lookup_lt_is_Some_2 locs a Halt) as [loca Hloca].
    exists loca. split; [done|].
    destruct (decide (a = parentLocIdx)) as [->|Hne].
    - rewrite Hparent in Ha. injection Ha as <-.
      assert (loca = parentLoc) as -> by congruence.
      split; [done|]. split; [done|]. left. split; [constructor|done].
    - destruct (Hother a loca Hloca Hne) as [[Hanc Ha']|[Hnot Ha']];
        rewrite Ha' in Ha; injection Ha as <-; split; try done;
        (split; [done|]); [left|right]; done. }
  assert (∀ j, j < s → (parentIdx <$> locs') !! j = (parentIdx <$> locs) !! j)
    as Hpar.
  { intros j Hj. rewrite Hparents, lookup_app_l; [done|].
    by rewrite length_fmap. }
  assert (∀ a q, q < s → ancestorOrSelf locs' a q → ancestorOrSelf locs a q)
    as Hanc_old.
  { intros a q Hq Hanc.
    eapply ancestorOrSelf_ext_below; [exact Hpf'| |exact Hanc].
    intros j Hj. rewrite <- !list_lookup_fmap. symmetry. apply Hpar. lia. }
  assert (∀ a q, q < s → ancestorOrSelf locs a q → ancestorOrSelf locs' a q)
    as Hanc_new.
  { intros a q Hq Hanc.
    eapply ancestorOrSelf_ext_below; [exact Hpf| |exact Hanc].
    intros j Hj. rewrite <- !list_lookup_fmap. apply Hpar. lia. }
  assert (∀ q, numChildren locs' q
               = numChildren locs q
                 + (if decide (Z.of_nat parentLocIdx = Z.of_nat q)
                    then 1 else 0)) as Hnum
    by (intros q; by apply numChildren_snoc).
  intros q loc' Hq.
  destruct (decide (q < s)) as [Hqlt|Hqge].
  - (* an old location *)
    destruct (Hold q loc' Hq Hqlt) as (loc & Hloc & Hrep & Hcount & _).
    destruct (Hinv q loc Hloc) as (Hc0 & Hc1 & Hset & Hclear).
    unfold locationInv. rewrite Hrep, Hnum, Hcount.
    set (N := numFields shouldTrackLocation
                        (getType (representativeValue loc))) in *.
    (* the bit of [q] in an ancestor, before and after *)
    assert (∀ a loca', ancestorOrSelf locs' a q → locs' !! a = Some loca' →
              ∃ loca, ancestorOrSelf locs a q ∧ locs !! a = Some loca
                ∧ N.testbit (subLocations loca') (N.of_nat q)
                  = if decide (q = parentLocIdx ∧ c' = 0%Z) then false
                    else N.testbit (subLocations loca) (N.of_nat q))
      as Hbit.
    { intros a loca' Hanc Ha.
      assert (a < s) as Halt.
      { apply ancestorOrSelf_le in Hanc; [lia|done]. }
      destruct (Hold a loca' Ha Halt)
        as (loca & Hloca & _ & _ & [[Hancp ->]|[Hnot ->]]).
      - exists loca. split; [by apply Hanc_old|]. split; [done|].
        unfold after. rewrite testbit_subLocationsAfterProjection by lia.
        done.
      - exists loca. split; [by apply Hanc_old|]. split; [done|].
        destruct (decide (q = parentLocIdx ∧ c' = 0%Z)) as [[Heq _]|];
          [|done].
        destruct Hnot. rewrite <- Heq. by apply Hanc_old. }
    destruct (decide (q = parentLocIdx)) as [->|Hne].
    + (* the parent of the new location *)
      assert (loc = parentLoc) as -> by congruence.
      rewrite decide_True by done.
      assert (c' = ((if (0 <=? numFieldsNotCoveredBySubfields parentLoc)%Z
                     then numFieldsNotCoveredBySubfields parentLoc
                     else N) - 1)%Z) as Hc' by done.
      assert ((0 < Z.of_nat (numChildren locs parentLocIdx + 1) ≤ N)%Z →
              c' = (N - Z.of_nat (numChildren locs parentLocIdx + 1))%Z)
        as Hcounter.
      { intros Hn. rewrite Hc'.
        destruct (decide (numChildren locs parentLocIdx = 0)) as [Hz|Hnz].
        - rewrite Hc0 by lia. simpl. lia.
        - rewrite Hc1 by lia.
          destruct (Z.leb_spec 0 (N - Z.of_nat (numChildren locs parentLocIdx)));
            lia. }
      split; [lia|]. split; [exact Hcounter|]. split.
      * intros [?|Hn]; [lia|]. intros a loca' Hanc Ha.
        destruct (Hbit a loca' Hanc Ha) as (loca & Hanc0 & Hloca & ->).
        rewrite decide_False by (intros [_ ?]; lia).
        eapply Hset; [|done|done].
        destruct (decide (numChildren locs parentLocIdx = 0)); [left|right];
          lia.
      * intros [Hpos Hn] a loca' Hanc Ha.
        destruct (Hbit a loca' Hanc Ha) as (loca & Hanc0 & Hloca & ->).
        rewrite decide_True; [done|]. split; [done|]. lia.
    + (* another location *)
      rewrite !decide_False by lia. rewrite Nat.add_0_r.
      split; [done|]. split; [done|]. split.
      * intros Hn a loca' Hanc Ha.
        destruct (Hbit a loca' Hanc Ha) as (loca & Hanc0 & Hloca & ->).
        rewrite decide_False by (by intros [? _]). by eapply Hset.
      * intros Hn a loca' Hanc Ha.
        destruct (Hbit a loca' Hanc Ha) as (loca & Hanc0 & Hloca & ->).
        rewrite decide_False by (by intros [? _]). by eapply Hclear.
  - (* the new location *)
    assert (q = s) as ->.
    { apply lookup_lt_Some in Hq. lia. }
    rewrite Hnew in Hq. injection Hq as <-.
    unfold locationInv. rewrite Hnum, decide_False by lia.
    rewrite numChildren_ge by done. simpl.
    split; [done|]. split; [lia|]. split; [|lia].
    intros _ a loca' Hanc Ha.
    apply ancestorOrSelf_inv in Hanc
      as [->|(loc0 & parent & Hloc0 & Hp0 & Hanc)].
    + rewrite Hnew in Ha. injection Ha as <-.
      cbn [subLocations setSelfAndParents newLocation].
      by rewrite testbit_setBitAndResize, decide_True.
    + rewrite Hnew in Hloc0. injection Hloc0 as <-. simpl in Hp0.
      assert (parent = parentLocIdx) as -> by lia.
      assert (a < s) as Halt.
      { apply ancestorOrSelf_le in Hanc; [lia|done]. }
      destruct (Hold a loca' Ha Halt)
        as (loca & Hloca & _ & _ & [[_ ->]|[Hnot _]]).
      * unfold after, subLocationsAfterProjection.
        destruct (_ =? _)%Z.
        -- rewrite N.clearbit_neq by lia.
           by rewrite testbit_setBitAndResize, decide_True.
        -- by rewrite testbit_setBitAndResize, decide_True.
      * destruct Hnot. by apply Hanc_old.
Qed.

Lemma projectionInv_nil : projectionInv shouldTrackLocation [].
Proof. split; intros i loc Hi; discriminate Hi. Qed.

Lemma projectionInv_root loc locs :
  projectionInv shouldTrackLocation locs →
  projectionInv shouldTrackLocation
    (locs ++ [newLocation loc (length locs) (-1)%Z]).
Proof.
  intros [Hpf Hinv].
  set (s := length locs).
  set (locs' := locs ++ [newLocation loc s (-1)%Z]).
  assert (parentsFirst locs') as Hpf'.
  { intros i x [Hi|[Hge Hi]]%lookup_app_Some; [by apply Hpf|].
    apply list_lookup_singleton_Some in Hi as [Hi <-]. simpl. lia. }
  split; [exact Hpf'|].
  assert (∀ j, j < s → locs' !! j = locs !! j) as Hsame.
  { intros j Hj. unfold locs'. by rewrite lookup_app_l. }
  assert (locs' !! s = Some (newLocation loc s (-1)%Z)) as Hnew.
  { unfold locs', s. by rewrite list_lookup_middle. }
  assert (∀ q, numChildren locs' q = numChildren locs q) as Hnum.
  { intros q. rewrite (numChildren_snoc locs locs' (-1)%Z).
    - rewrite decide_False by lia. lia.
    - unfold locs'. by rewrite fmap_app. }
  assert (∀ a q, q < s → ancestorOrSelf locs' a q → ancestorOrSelf locs a q)
    as Hanc_old.
  { intros a q Hq Hanc.
    eapply ancestorOrSelf_ext_below; [exact Hpf'| |exact Hanc].
    intros j Hj. rewrite Hsame; [done|lia]. }
  intros q x Hq. destruct (decide (q < s)) as [Hqlt|Hqge].
  - rewrite Hsame in Hq by done.
    destruct (Hinv q x Hq) as (Hc0 & Hc1 & Hset & Hclear).
    unfold locationInv. rewrite Hnum.
    split; [done|]. split; [done|]. split.
    + intros Hn a loca Hanc Ha.
      assert (a < s) as Halt.
      { apply ancestorOrSelf_le in Hanc; [lia|done]. }
      rewrite Hsame in Ha by done. eapply Hset; [done| |done].
      by apply Hanc_old.
    + intros Hn a loca Hanc Ha.
      assert (a < s) as Halt.
      { apply ancestorOrSelf_le in Hanc; [lia|done]. }
      rewrite Hsame in Ha by done. eapply Hclear; [done| |done].
      by apply Hanc_old.
  - assert (q = s) as ->.
    { apply lookup_lt_Some in Hq. unfold locs' in Hq.
      rewrite length_app in Hq. simpl in Hq. lia. }
    rewrite Hnew in Hq. injection Hq as <-.
    unfold locationInv. rewrite Hnum, numChildren_ge by done. simpl.
    split; [done|]. split; [lia|]. split; [|lia].
    intros _ a loca Hanc Ha.
    apply ancestorOrSelf_inv in Hanc
      as [->|(loc0 & parent & Hloc0 & Hp0 & Hanc)].
    + rewrite Hnew in Ha. injection Ha as <-.
      cbn [subLocations newLocation].
      by rewrite testbit_setBitAndResize, decide_True.
    + rewrite Hnew in Hloc0. injection Hloc0 as <-. simpl in Hp0. lia.
Qed.

Lemma analyzeLocations_inv function L :
  projectionInv shouldTrackLocation (locations L) →
  projectionInv shouldTrackLocation
    (locations (analyzeLocations shouldTrackLocation function L)).
Proof.
  apply analyzeLocations_table.
  - by intros locs [Hpf _].
  - apply projectionInv_root.
  - apply registerSubLocation_inv.
Qed.

End ProjectionInvariant.

Lemma numChildren_lt (locs : list Location) p loc :
  parentsFirst locs → locs !! p = Some loc → numChildren locs p < length locs.
Proof.
  intros Hpf Hp. destruct locs as [|first locs]; [done|].
  unfold numChildren. rewrite fmap_cons, filter_cons.
  pose proof (Hpf 0 first eq_refl) as Hfirst. simpl in Hfirst.
  rewrite decide_False by lia. simpl.
  eapply Nat.le_lt_trans; [apply length_filter|]. rewrite length_fmap. lia.
Qed.



Lemma testbit_setBitAndResize_N bits idx i :
  N.testbit (setBitAndResize bits idx) i = true →
  i = N.of_nat idx ∨ N.testbit bits i = true.
Proof.
  unfold setBitAndResize. destruct (decide (i = N.of_nat idx)) as [->|Hne].
  - by left.
  - rewrite N.setbit_neq by done. by right.
Qed.

Lemma ancestorOrSelf_root_unique (locs : list Location) r1 r2 loc1 loc2 j :
  locs !! r1 = Some loc1 → (parentIdx loc1 < 0)%Z →
  locs !! r2 = Some loc2 → (parentIdx loc2 < 0)%Z →
  ancestorOrSelf locs r1 j → ancestorOrSelf locs r2 j → r1 = r2.
Proof.
  intros Hr1 Hn1 Hr2 Hn2 Hanc1.
  induction Hanc1 as [|a i loc parent Hi Hp _ IH]; intros Hanc2.
  - apply ancestorOrSelf_inv in Hanc2
      as [->|(loc & parent & Hloc & Hp & _)]; [done|].
    assert (loc = loc1) as -> by congruence. lia.
  - apply ancestorOrSelf_inv in Hanc2
      as [->|(loc' & parent' & Hloc' & Hp' & Hanc2)].
    + assert (loc = loc2) as -> by congruence. lia.
    + assert (loc' = loc) as -> by congruence.
      assert (parent' = parent) as -> by lia. by apply IH.
Qed.

Section SubLocationsInvariant.

Variable shouldTrackLocation : SILType → bool.

Lemma testbit_subLocationsAfterProjection_N parentLoc parentLocIdx subLocIdx
    bits i :
  N.testbit (subLocationsAfterProjection shouldTrackLocation parentLoc
               parentLocIdx subLocIdx bits) i = true →
  i = N.of_nat subLocIdx ∨ N.testbit bits i = true.
Proof.
  unfold subLocationsAfterProjection.
  destruct (_ =? 0)%Z; [|apply testbit_setBitAndResize_N].
  intros Hbit. apply testbit_setBitAndResize_N.
  destruct (decide (i = N.of_nat parentLocIdx)) as [->|Hne].
  - by rewrite N.clearbit_eq in Hbit.
  - by rewrite N.clearbit_neq in Hbit.
Qed.

Lemma subLocationsInv_nil : subLocationsInv [].
Proof. split; [intros i loc Hi|intros p loc i Hp]; discriminate. Qed.

Lemma subLocationsInv_root loc locs :
  subLocationsInv locs →
  subLocationsInv (locs ++ [newLocation loc (length locs) (-1)%Z]).
Proof.
  intros [Hpf Hinv].
  set (s := length locs).
  set (locs' := locs ++ [newLocation loc s (-1)%Z]).
  assert (parentsFirst locs') as Hpf'.
  { intros i x [Hi|[Hge Hi]]%lookup_app_Some; [by apply Hpf|].
    apply list_lookup_singleton_Some in Hi as [Hi <-]. simpl. lia. }
  split; [exact Hpf'|].
  assert (length locs' = S s) as Hlen.
  { unfold locs'. rewrite length_app. simpl. lia. }
  intros p x i [Hp|[Hge Hp]]%lookup_app_Some Hbit.
  - destruct (Hinv p x i Hp Hbit) as (j & -> & Hj & Hanc).
    exists j. split; [done|]. split; [lia|].
    eapply ancestorOrSelf_ext_below; [exact Hpf| |exact Hanc].
    intros q Hq. unfold locs'. rewrite lookup_app_l; [done|lia].
  - apply list_lookup_singleton_Some in Hp as [Hp <-].
    assert (p = s) as -> by (fold s in Hge; lia).
    cbn [subLocations newLocation] in Hbit.
    apply testbit_setBitAndResize_N in Hbit as [->|Hbit].
    + exists s. split; [done|]. split; [lia|constructor].
    + by rewrite N.bits_0 in Hbit.
Qed.

Lemma registerSubLocation_subLocationsInv projection parentLocIdx locs
    parentLoc :
  subLocationsInv locs →
  locs !! parentLocIdx = Some parentLoc →
  subLocationsInv
    (registerSubLocation shouldTrackLocation projection parentLocIdx
                         (length locs) locs).
Proof.
  intros [Hpf Hinv] Hp.
  destruct (registerSubLocation_spec shouldTrackLocation projection
              parentLocIdx locs parentLoc Hpf Hp)
    as (Hlen & Hnew & Hparent & Hother).
  destruct (registerSubLocation_parents shouldTrackLocation projection
              parentLocIdx locs parentLoc Hpf Hp) as [Hparents Hpf'].
  set (s := length locs) in *.
  set (locs' := registerSubLocation shouldTrackLocation projection
                  parentLocIdx s locs) in *.
  set (after := subLocationsAfterProjection shouldTrackLocation parentLoc
                  parentLocIdx s) in *.
  assert (parentLocIdx < s) as Hplt by (by eapply lookup_lt_Some).
  split; [exact Hpf'|].
  assert (∀ j, j < s → (parentIdx <$> locs') !! j = (parentIdx <$> locs) !! j)
    as Hpar.
  { intros j Hj. rewrite Hparents, lookup_app_l; [done|].
    by rewrite length_fmap. }
  assert (∀ a q, q < s → ancestorOrSelf locs a q → ancestorOrSelf locs' a q)
    as Hanc_new.
  { intros a q Hq Hanc.
    eapply ancestorOrSelf_ext_below; [exact Hpf| |exact Hanc].
    intros j Hj. rewrite <- !list_lookup_fmap. apply Hpar. lia. }
  assert (∀ a, ancestorOrSelf locs a parentLocIdx → ancestorOrSelf locs' a s)
    as Hanc_sub.
  { intros a Hanc. eapply ancestor_parent; [exact Hnew|done|].
    by apply Hanc_new. }
  assert (∀ a loca i, locs !! a = Some loca →
            N.testbit (subLocations loca) i = true →
            ∃ j, i = N.of_nat j ∧ j < length locs' ∧ ancestorOrSelf locs' a j)
    as Hold.
  { intros a loca i Ha Hbit.
    destruct (Hinv a loca i Ha Hbit) as (j & -> & Hj & Hanc).
    exists j. split; [done|]. split; [lia|]. by apply Hanc_new. }
  intros p x i Hpx Hbit.
  destruct (decide (p = s)) as [->|Hps].
  - rewrite Hnew in Hpx. injection Hpx as <-.
    cbn [subLocations setSelfAndParents newLocation] in Hbit.
    apply testbit_setBitAndResize_N in Hbit as [->|Hbit].
    + exists s. split; [done|]. split; [lia|constructor].
    + by rewrite N.bits_0 in Hbit.
  - assert (p < s) as Hplt'.
    { apply lookup_lt_Some in Hpx. lia. }
    destruct (lookup_lt_is_Some_2 locs p Hplt') as [locp Hlocp].
    destruct (decide (p = parentLocIdx)) as [->|Hne].
    + rewrite Hparent in Hpx. injection Hpx as <-.
      cbn [subLocations setSubLocations] in Hbit.
      apply testbit_subLocationsAfterProjection_N in Hbit as [->|Hbit].
      * exists s. split; [done|]. split; [lia|]. apply Hanc_sub. constructor.
      * exact (Hold _ _ _ Hp Hbit).
    + destruct (Hother p locp Hlocp Hne) as [[Hanc Hp']|[Hnot Hp']];
        rewrite Hp' in Hpx; injection Hpx as <-.
      * cbn [subLocations setSubLocations] in Hbit.
        apply testbit_subLocationsAfterProjection_N in Hbit as [->|Hbit].
        -- exists s. split; [done|]. split; [lia|]. by apply Hanc_sub.
        -- exact (Hold _ _ _ Hlocp Hbit).
      * exact (Hold _ _ _ Hlocp Hbit).
Qed.

End SubLocationsInvariant.

Lemma analyzeLocations_subLocationsInv shouldTrackLocation function L :
  subLocationsInv (locations L) →
  subLocationsInv
    (locations (analyzeLocations shouldTrackLocation function L)).
Proof.
  apply analyzeLocations_table.
  - by intros locs [Hpf _].
  - apply subLocationsInv_root.
  - apply registerSubLocation_subLocationsInv.
Qed.

(** In the table which [analyzeLocations] builds, the [subLocations] of
    a location hold bits of the location itself and of its transitive
    sub-locations only, so that two distinct locations without a parent
    (two roots: function arguments, stack allocations) share no bit. *)
Theorem subLocations_of_roots shouldTrackLocation function r1 loc1 :
  let locs :=
    locations (analyzeLocations shouldTrackLocation function emptyLocations)
  in
  locs !! r1 = Some loc1 →
  (∀ i, N.testbit (subLocations loc1) i = true →
        ∃ j, i = N.of_nat j ∧ j < length locs ∧ ancestorOrSelf locs r1 j)
  ∧ ∀ r2 loc2,
      locs !! r2 = Some loc2 → r1 ≠ r2 →
      (parentIdx loc1 < 0)%Z → (parentIdx loc2 < 0)%Z →
      N.land (subLocations loc1) (subLocations loc2) = 0%N.
Proof.
  intros locs Hr1.
  destruct (analyzeLocations_subLocationsInv shouldTrackLocation function
              emptyLocations subLocationsInv_nil) as [Hpf Hinv].
  fold locs in Hpf, Hinv.
  split; [intros i; by apply Hinv|].
  intros r2 loc2 Hr2 Hne Hn1 Hn2. apply N.bits_inj_0. intros i.
  rewrite N.land_spec.
  destruct (N.testbit (subLocations loc1) i) eqn:Hb1; [|done].
  destruct (N.testbit (subLocations loc2) i) eqn:Hb2; [|done].
  destruct (Hinv r1 loc1 i Hr1 Hb1) as (j & -> & _ & Hanc1).
  destruct (Hinv r2 loc2 _ Hr2 Hb2) as (j' & Hj & _ & Hanc2).
  apply Nat2N.inj in Hj. subst j'.
  destruct Hne. by eapply ancestorOrSelf_root_unique.
Qed.

(** The locations of the two arguments of [inoutOutFunction] share no
    bit. *)
Lemma subLocations_of_roots_witness :
  let locs := locations (tableOf inoutOutFunction) in
  ∃ loc1 loc2,
    locs !! 0 = Some loc1 ∧ locs !! 1 = Some loc2
    ∧ subLocations loc1 = 1%N ∧ subLocations loc2 = 2%N
    ∧ N.land (subLocations loc1) (subLocations loc2) = 0%N.
Proof.
  intros locs.
  pose (loc1 := default (newLocation (argValue inoutArgument) 0 0)
                        (locs !! 0)).
  pose (loc2 := default (newLocation (argValue inoutArgument) 0 0)
                        (locs !! 1)).
  vm_compute in loc1, loc2.
  assert (locs !! 0 = Some loc1) as H1 by (vm_compute; reflexivity).
  assert (locs !! 1 = Some loc2) as H2 by (vm_compute; reflexivity).
  exists loc1, loc2. split; [exact H1|]. split; [exact H2|].
  split; [reflexivity|]. split; [reflexivity|].
  apply (proj2 (subLocations_of_roots trackAll inoutOutFunction 0 loc1 H1)
           1 loc2 H2); [lia|reflexivity|reflexivity].
Defined.

Section Fields.

Variable shouldTrackLocation : SILType → bool.
Variable root : nat.

Lemma registerSubLocation_fields projection parentLocIdx fieldNr st :
  wfRoot root st →
  subLocationFields root st →
  distinctFields (locations (table st)) →
  root ≤ parentLocIdx < length (locations (table st)) →
  projectedField (getKind projection) = Some fieldNr →
  default 0 (subLocationMap st !! (parentLocIdx, fieldNr)) = 0 →
  let st1 := withSubLocation shouldTrackLocation projection parentLocIdx
                             fieldNr (length (locations (table st))) st in
  subLocationFields root st1 ∧ distinctFields (locations (table st1)).
Proof.
  intros Hwf Hfields (Hpf & Hproj & Hdistinct) [Hge Hlt] Hfield Hnew st1.
  destruct (lookup_lt_is_Some_2 _ _ Hlt) as [parentLoc Hp].
  destruct (registerSubLocation_spec shouldTrackLocation projection
              parentLocIdx _ parentLoc Hpf Hp)
    as (Hlen & Hsub & Hparent & Hother).
  destruct (registerSubLocation_parents shouldTrackLocation projection
              parentLocIdx _ parentLoc Hpf Hp) as [Hparents Hpf1].
  set (locs := locations (table st)) in *.
  set (s := length locs) in *.
  set (locs1 := registerSubLocation shouldTrackLocation projection
                  parentLocIdx s locs) in *.
  assert (locations (table st1) = locs1) as Hlocs1 by done.
  assert (subLocationMap st1
          = <[(parentLocIdx, fieldNr) := s]> (subLocationMap st)) as Hmap1
    by done.
  assert (subLocationMap st !! (parentLocIdx, fieldNr) = None) as Hnone.
  { destruct (subLocationMap st !! (parentLocIdx, fieldNr)) as [idx|]
      eqn:Hidx; [|done].
    destruct Hwf as (_ & _ & _ & Hmap). apply Hmap in Hidx.
    simpl in Hnew. lia. }
  (* the old locations keep their value and their parent *)
  assert (∀ c loc1, locs1 !! c = Some loc1 → c ≠ s →
            ∃ loc, locs !! c = Some loc
                   ∧ representativeValue loc1 = representativeValue loc
                   ∧ parentIdx loc1 = parentIdx loc) as Hold.
  { intros c loc1 Hc Hcs.
    assert (c < s) as Hclt by (apply lookup_lt_Some in Hc; lia).
    destruct (lookup_lt_is_Some_2 locs c Hclt) as [loc Hloc].
    exists loc. split; [done|].
    destruct (decide (c = parentLocIdx)) as [->|Hne].
    - rewrite Hparent in Hc. injection Hc as <-.
      assert (loc = parentLoc) as -> by congruence. done.
    - destruct (Hother c loc Hloc Hne) as [[_ Hc']|[_ Hc']];
        rewrite Hc' in Hc; by injection Hc as <-. }
  assert (∀ c loc, locs !! c = Some loc →
            parentIdx loc = Z.of_nat parentLocIdx →
            projectedField (getKind (representativeValue loc))
            ≠ Some fieldNr) as Hfresh.
  { intros c loc Hc Hpc Hf.
    assert (root < c) as Hrc.
    { specialize (Hpf c loc Hc). lia. }
    destruct (Hfields c loc Hc Hrc) as (parent & f & Hpar & Hf' & Hkey).
    assert (parent = parentLocIdx) as -> by lia.
    assert (f = fieldNr) as -> by congruence. congruence. }
  split.
  - intros c loc1 Hc Hrc. rewrite Hlocs1 in Hc. rewrite Hmap1.
    destruct (decide (c = s)) as [->|Hcs].
    + rewrite Hsub in Hc. injection Hc as <-.
      exists parentLocIdx, fieldNr. split; [done|]. split; [done|].
      by rewrite lookup_insert_eq.
    + destruct (Hold c loc1 Hc Hcs) as (loc & Hloc & -> & ->).
      destruct (Hfields c loc Hloc Hrc) as (parent & f & Hpar & Hf & Hkey).
      exists parent, f. split; [done|]. split; [done|].
      rewrite lookup_insert_ne; [done|]. intros [= <- <-]. congruence.
  - rewrite Hlocs1. split; [done|]. split.
    + intros c loc1 Hc Hpos. destruct (decide (c = s)) as [->|Hcs].
      * rewrite Hsub in Hc. injection Hc as <-. simpl. by rewrite Hfield.
      * destruct (Hold c loc1 Hc Hcs) as (loc & Hloc & Hval & Hpar).
        rewrite Hval. apply (Hproj c loc Hloc). lia.
    + intros c1 c2 loc1 loc2 Hc1 Hc2 Hpos Hsame Heq.
      destruct (decide (c1 = s)) as [->|Hc1s];
        destruct (decide (c2 = s)) as [->|Hc2s]; [done| | |].
      * rewrite Hsub in Hc1. injection Hc1 as <-. simpl in Hsame, Heq.
        destruct (Hold c2 loc2 Hc2 Hc2s) as (loc & Hloc & Hval & Hpar).
        destruct (Hfresh c2 loc Hloc); [congruence|].
        rewrite <- Hval, <- Heq. done.
      * rewrite Hsub in Hc2. injection Hc2 as <-. simpl in Hsame, Heq.
        destruct (Hold c1 loc1 Hc1 Hc1s) as (loc & Hloc & Hval & Hpar).
        destruct (Hfresh c1 loc Hloc); [congruence|].
        rewrite <- Hval, Heq. done.
      * destruct (Hold c1 loc1 Hc1 Hc1s) as (l1 & Hl1 & Hv1 & Hp1).
        destruct (Hold c2 loc2 Hc2 Hc2s) as (l2 & Hl2 & Hv2 & Hp2).
        apply (Hdistinct c1 c2 l1 l2 Hl1 Hl2); congruence.
Qed.

Lemma analyzeLocationUsesRecursively_fields V locIdx st ok st' :
  wfRoot root st ∧ subLocationFields root st
  ∧ distinctFields (locations (table st)) →
  root ≤ locIdx < length (locations (table st)) →
  analyzeLocationUsesRecursively shouldTrackLocation V locIdx st
  = (ok, st') →
  (wfRoot root st' ∧ subLocationFields root st'
   ∧ distinctFields (locations (table st')))
  ∧ extendsRoot root st st'.
Proof.
  apply (analyzeLocationUsesRecursively_rule shouldTrackLocation
           (fun st => wfRoot root st ∧ subLocationFields root st
                      ∧ distinctFields (locations (table st)))
           (fun st idx => root ≤ idx < length (locations (table st)))
           (extendsRoot root)).
  - apply extendsRoot_refl.
  - apply extendsRoot_trans.
  - intros st1 st2 idx (_ & Hlen & _) ?. lia.
  - intros projection parentLocIdx fieldNr st1 (Hwf & Hfields & Hdistinct)
           Hidx Hfield Hnew.
    destruct (wfRoot_register shouldTrackLocation root projection
                parentLocIdx fieldNr st1 Hwf Hidx) as (Hwf1 & Hext & Hidx1).
    destruct (registerSubLocation_fields projection parentLocIdx fieldNr st1
                Hwf Hfields Hdistinct Hidx Hfield Hnew) as [Hfields1 Hd1].
    done.
  - intros parentLocIdx fieldNr subLocIdx st1 ((_ & _ & _ & Hmap) & _) _
           Hfound%Hmap _. lia.
  - intros projection subLocIdx st1 (Hwf & Hfields & Hdistinct) _.
    destruct (wfRoot_collected root projection subLocIdx st1 Hwf)
      as [Hwf1 Hext].
    done.
Qed.

End Fields.

Lemma distinctFields_nil : distinctFields [].
Proof.
  split; [|split]; [intros i loc Hi|intros c loc Hc|intros c1 c2 l1 l2 Hc];
    discriminate.
Qed.

Lemma distinctFields_withRootLocation loc L :
  distinctFields (locations L) →
  subLocationFields (length (locations L)) (withRootLocation loc L)
  ∧ distinctFields (locations (table (withRootLocation loc L))).
Proof.
  intros (Hpf & Hproj & Hdistinct).
  pose proof (wfRoot_withRootLocation loc L Hpf) as (Hpf1 & _).
  set (s := length (locations L)) in *.
  assert (∀ c x, locations (table (withRootLocation loc L)) !! c = Some x →
            (0 ≤ parentIdx x)%Z → locations L !! c = Some x) as Hold.
  { intros c x [Hc|[_ Hc]]%lookup_app_Some Hpos; [done|].
    apply list_lookup_singleton_Some in Hc as [_ <-]. simpl in Hpos. lia. }
  split; [|split; [done|split]].
  - intros c x Hc Hlt. apply lookup_lt_Some in Hc. simpl in Hc.
    rewrite length_app in Hc. simpl in Hc. fold s in Hc. lia.
  - intros c x Hc Hpos. eapply Hproj; [|done]. by apply Hold.
  - intros c1 c2 l1 l2 Hc1 Hc2 Hpos Hsame.
    apply (Hdistinct c1 c2 l1 l2); [by apply Hold|apply Hold|done|done];
      [done|lia].
Qed.

Lemma analyzeLocation_fields shouldTrackLocation loc L :
  distinctFields (locations L) →
  distinctFields (locations (analyzeLocation shouldTrackLocation loc L)).
Proof.
  intros Hinv.
  destruct (shouldTrackLocation (getType loc)) eqn:Htrack.
  - destruct (analyzable shouldTrackLocation loc L) eqn:Hok.
    + unfold analyzable in Hok. unfold analyzeLocation. rewrite Htrack.
      simpl.
      destruct (analyzeLocationUsesRecursively _ _ _ _) as [ok st] eqn:Huses.
      simpl in Hok. subst ok. simpl.
      destruct (distinctFields_withRootLocation loc L Hinv) as [Hf Hd].
      pose proof (wfRoot_withRootLocation loc L (proj1 Hinv)) as Hwf.
      eapply (analyzeLocationUsesRecursively_fields shouldTrackLocation
                (length (locations L)));
        [|
         |exact Huses].
      * done.
      * simpl. rewrite length_app. simpl. lia.
    + destruct (analyzeLocation_discarded shouldTrackLocation loc L
                  (proj1 Hinv) Htrack Hok) as (-> & _). done.
  - unfold analyzeLocation. by rewrite Htrack.
Qed.

(** In the table which [analyzeLocations] builds every sub-location (a
    location with a parent) is the projection of a field of its parent,
    and two distinct sub-locations of one parent project different
    fields: the number of the sub-locations of a location is the number of
    its distinct projected fields. *)
Theorem sub_locations_of_distinct_fields shouldTrackLocation function
    c1 loc1 :
  let locs :=
    locations (analyzeLocations shouldTrackLocation function emptyLocations)
  in
  locs !! c1 = Some loc1 →
  (0 ≤ parentIdx loc1)%Z →
  (∃ fieldNr,
     projectedField (getKind (representativeValue loc1)) = Some fieldNr)
  ∧ ∀ c2 loc2,
      locs !! c2 = Some loc2 → c1 ≠ c2 →
      parentIdx loc2 = parentIdx loc1 →
      projectedField (getKind (representativeValue loc2))
      ≠ projectedField (getKind (representativeValue loc1)).
Proof.
  intros locs Hc1 Hpos.
  destruct (analyzeLocations_fold shouldTrackLocation distinctFields
              (analyzeLocation_fields shouldTrackLocation)
              function emptyLocations distinctFields_nil)
    as (_ & Hproj & Hdistinct).
  fold locs in Hproj, Hdistinct. split.
  - destruct (Hproj c1 loc1 Hc1 Hpos) as [fieldNr Hf]. eauto.
  - intros c2 loc2 Hc2 Hne Hsame Heq. apply Hne.
    by apply (Hdistinct c1 c2 loc1 loc2).
Qed.

(** The two sub-locations of the argument of [structFunction] are the
    projections of the fields 0 and 1. *)
Lemma sub_locations_of_distinct_fields_witness :
  let locs := locations (tableOf structFunction) in
  ∃ loc1 loc2,
    locs !! 1 = Some loc1 ∧ locs !! 2 = Some loc2
    ∧ parentIdx loc1 = 0%Z ∧ parentIdx loc2 = 0%Z
    ∧ projectedField (getKind (representativeValue loc1)) = Some 0
    ∧ projectedField (getKind (representativeValue loc2))
      ≠ projectedField (getKind (representativeValue loc1)).
Proof.
  intros locs.
  pose (loc1 := default (newLocation (argValue structArgument) 0 0)
                        (locs !! 1)).
  pose (loc2 := default (newLocation (argValue structArgument) 0 0)
                        (locs !! 2)).
  vm_compute in loc1, loc2.
  assert (locs !! 1 = Some loc1) as H1 by (vm_compute; reflexivity).
  assert (locs !! 2 = Some loc2) as H2 by (vm_compute; reflexivity).
  exists loc1, loc2. split; [exact H1|]. split; [exact H2|].
  split; [reflexivity|]. split; [reflexivity|]. split; [reflexivity|].
  assert (0 ≤ parentIdx loc1)%Z as Hpos by (vm_compute; discriminate).
  apply (proj2 (sub_locations_of_distinct_fields trackAll structFunction
                  1 loc1 H1 Hpos) 2 loc2 H2); [lia|reflexivity].
Defined.

Section Worklist.

Variable neighbours : BlockId → list BlockId.
Variable flag : BlockState → bool.
Variable setFlag : BlockState → BlockState.
Variable roots : BlockId → Prop.

Hypothesis flag_setFlag : ∀ st, flag (setFlag st) = true.

Lemma numUnflagged_insert (states : list BlockState) idx st :
  states !! idx = Some st → flag st = false →
  S (numUnflagged flag (<[idx := setFlag st]> states))
  = numUnflagged flag states.
Proof.
  unfold numUnflagged.
  revert idx. induction states as [|x states IH]; intros [|idx] Hidx Hflag;
    simpl in *; try done.
  - injection Hidx as ->. rewrite !filter_cons.
    rewrite decide_False by (rewrite flag_setFlag; done).
    by rewrite decide_True.
  - rewrite !filter_cons. specialize (IH idx Hidx Hflag).
    destruct (decide (flag x = false)); simpl; lia.
Qed.

(** One call of [markNeighbours]: the neighbours are marked, the newly
    marked ones are pushed. *)
Lemma markNeighbours_spec nbs :
  ∀ workList states workList' states',
    markNeighbours flag setFlag nbs (workList, states)
    = (workList', states') →
    length states' = length states
    ∧ length workList' + numUnflagged flag states'
      = length workList + numUnflagged flag states
    ∧ (∀ b st', states' !! b = Some st' →
          ∃ st, states !! b = Some st
                ∧ (st' = st
                   ∨ (flag st = false ∧ st' = setFlag st ∧ b ∈ nbs
                      ∧ b ∈ workList')))
    ∧ (∀ nb st', nb ∈ nbs → states' !! nb = Some st' → flag st' = true)
    ∧ (∀ b, b ∈ workList' →
          b ∈ workList
          ∨ ∃ st', states' !! b = Some st' ∧ flag st' = true)
    ∧ (∀ b, b ∈ workList → b ∈ workList').
Proof.
  unfold markNeighbours.
  induction nbs as [|nb nbs IH]; intros workList states workList' states';
    cbn [foldl].
  - intros [= <- <-]. repeat split; try done.
    + intros b st' Hb. exists st'. auto.
    + intros nb st' Hin. by apply elem_of_nil in Hin.
    + auto.
  - set (step := match states !! nb with
                 | Some nbState =>
                     if negb (flag nbState)
                     then (nb :: workList, <[nb := setFlag nbState]> states)
                     else (workList, states)
                 | None => (workList, states)
                 end).
    destruct step as [workList1 states1] eqn:Hstep. intros Hfold.
    destruct (IH _ _ _ _ Hfold) as (Hlen & Hsum & Hframe & Hmarked & Hwl & Hsub).
    assert (length states1 = length states
            ∧ length workList1 + numUnflagged flag states1
              = length workList + numUnflagged flag states
            ∧ (∀ b st1, states1 !! b = Some st1 →
                 ∃ st, states !! b = Some st
                       ∧ (st1 = st
                          ∨ (flag st = false ∧ st1 = setFlag st ∧ b = nb
                             ∧ b ∈ workList1)))
            ∧ (∀ st1, states1 !! nb = Some st1 → flag st1 = true)
            ∧ (∀ b, b ∈ workList1 →
                 b ∈ workList
                 ∨ ∃ st1, states1 !! b = Some st1 ∧ flag st1 = true)
            ∧ (∀ b, b ∈ workList → b ∈ workList1))
      as (Hlen1 & Hsum1 & Hframe1 & Hmarked1 & Hwl1 & Hsub1).
    { subst step. destruct (states !! nb) as [nbState|] eqn:Hnb.
      - destruct (flag nbState) eqn:Hflag; simpl in Hstep;
          injection Hstep as <- <-.
        + repeat split; try done.
          * intros b st1 Hb. exists st1. auto.
          * intros st1 Hst1. congruence.
          * auto.
        + split; [by rewrite length_insert|]. split.
          { pose proof (numUnflagged_insert states nb nbState Hnb Hflag).
            simpl. lia. }
          split; [|split; [|split]].
          * intros b st1 Hb. destruct (decide (b = nb)) as [->|Hne].
            -- rewrite list_lookup_insert_eq in Hb
                 by (by eapply lookup_lt_Some).
               injection Hb as <-. exists nbState.
               split; [done|]. right. repeat split; try done. by left.
            -- rewrite list_lookup_insert_ne in Hb by done.
               exists st1. auto.
          * intros st1. rewrite list_lookup_insert_eq
              by (by eapply lookup_lt_Some).
            intros [= <-]. apply flag_setFlag.
          * intros b [->|Hin]%elem_of_cons; [|by left].
            right. exists (setFlag nbState).
            rewrite list_lookup_insert_eq by (by eapply lookup_lt_Some).
            by rewrite flag_setFlag.
          * intros b Hin. by right.
      - injection Hstep as <- <-. repeat split; try done.
        + intros b st1 Hb. exists st1. auto.
        + intros st1 Hst1. congruence.
        + auto. }
    assert (∀ b st1 st', states1 !! b = Some st1 → states' !! b = Some st' →
              flag st1 = true → flag st' = true) as Hmono.
    { intros b st1 st' Hst1 Hst' Hflag.
      destruct (Hframe b st' Hst') as (st1' & Hst1' & [->|(Hf & _)]);
        congruence. }
    split; [congruence|]. split; [lia|]. split; [|split; [|split]].
    + intros b st' Hb.
      destruct (Hframe b st' Hb) as (st1 & Hst1 & Hshape).
      destruct (Hframe1 b st1 Hst1) as (st & Hst & Hshape1).
      exists st. split; [done|].
      destruct Hshape as [->|(Hf & -> & Hin & Hin')],
               Hshape1 as [->|(Hf1 & -> & -> & Hin1)].
      * by left.
      * right. repeat split; try done; [by left|by apply Hsub].
      * right. repeat split; try done. by right.
      * by rewrite flag_setFlag in Hf.
    + intros b st' [->|Hin]%elem_of_cons Hb; [|by eapply Hmarked].
      assert (is_Some (states1 !! nb)) as [st1 Hst1].
      { apply lookup_lt_is_Some. rewrite <- Hlen. by eapply lookup_lt_Some. }
      eapply Hmono; [exact Hst1|exact Hb|]. by apply Hmarked1.
    + intros b Hin. destruct (Hwl b Hin) as [Hin1|?]; [|by right].
      destruct (Hwl1 b Hin1) as [?|(st1 & Hst1 & Hflag1)]; [by left|].
      right.
      assert (is_Some (states' !! b)) as [st' Hst'].
      { apply lookup_lt_is_Some. rewrite Hlen. by eapply lookup_lt_Some. }
      exists st'. split; [done|]. by eapply Hmono.
    + auto.
Qed.

Lemma worklistLoop_inv states0 fuel :
  ∀ workList states,
    worklistInv neighbours flag setFlag roots states0 workList states →
    length workList + numUnflagged flag states ≤ fuel →
    worklistInv neighbours flag setFlag roots states0 []
      (worklistLoop neighbours flag setFlag fuel workList states).
Proof.
  induction fuel as [|fuel IH]; intros workList states Hinv Hfuel.
  - destruct workList; [done|simpl in Hfuel; lia].
  - simpl. destruct workList as [|state workList]; [done|].
    destruct (markNeighbours flag setFlag (neighbours state)
                             (workList, states))
      as [workList' states'] eqn:Hmark.
    destruct (markNeighbours_spec _ _ _ _ _ Hmark)
      as (Hlen & Hsum & Hframe & Hmarked & Hwl & Hsub).
    destruct Hinv as (Hlen0 & Hframe0 & Hsound & Hflagged & Hclosed).
    assert (∀ b st st', states !! b = Some st → states' !! b = Some st' →
              flag st = true → flag st' = true) as Hmono.
    { intros b st st' Hst Hst' Hflag.
      destruct (Hframe b st' Hst') as (st1 & Hst1 & [->|(Hf & _)]);
        congruence. }
    assert (∀ b st, states !! b = Some st → is_Some (states' !! b)) as Hdom.
    { intros b st Hb. apply lookup_lt_is_Some. rewrite Hlen.
      by eapply lookup_lt_Some. }
    apply IH; [|simpl in Hfuel; lia].
    split; [congruence|]. split; [|split; [|split]].
    + intros b st' Hb. destruct (Hframe b st' Hb) as (st & Hst & Hshape).
      destruct (Hframe0 b st Hst) as (st0 & Hst0 & Hshape0).
      exists st0. split; [done|].
      destruct Hshape as [->|(Hf & -> & _)], Hshape0 as [->|(Hf0 & ->)];
        auto.
      by rewrite flag_setFlag in Hf.
    + intros b st' Hb Hflag. destruct (Hframe b st' Hb) as (st & Hst & Hshape).
      destruct Hshape as [->|(Hf & -> & Hin & _)]; [by eapply Hsound|].
      destruct (Hflagged state) as (stp & Hstp & Hfp); [by left|].
      eapply reached_step; [|exact Hin]. by eapply Hsound.
    + intros b Hin. destruct (Hwl b Hin) as [Hin'|?]; [|done].
      destruct (Hflagged b) as (st & Hst & Hf); [by right|].
      destruct (Hdom b st Hst) as [st' Hst']. exists st'.
      split; [done|]. by eapply Hmono.
    + intros b st' nb nbState Hb Hflag Hnotin Hnb Hnbs.
      destruct (decide (b = state)) as [->|Hne]; [by eapply Hmarked|].
      destruct (Hframe b st' Hb) as (st & Hst & Hshape).
      destruct Hshape as [->|(_ & _ & _ & Hin)]; [|done].
      destruct (Hframe nb nbState Hnbs) as (nbState0 & Hnb0 & _).
      eapply Hmono; [exact Hnb0|exact Hnbs|].
      eapply (Hclosed b st nb); try done.
      intros [?|Hin]%elem_of_cons; [done|]. apply Hnotin. by apply Hsub.
Qed.

(** When the work list is empty the marked blocks are the blocks reached
    from the roots. *)
Lemma worklistInv_reached states0 states :
  worklistInv neighbours flag setFlag roots states0 [] states →
  (∀ b st, roots b → states !! b = Some st → flag st = true) →
  (∀ b nb, reached neighbours roots b → nb ∈ neighbours b →
           nb < length states → b < length states) →
  ∀ b st, states !! b = Some st →
          (flag st = true ↔ reached neighbours roots b).
Proof.
  intros (Hlen & Hframe & Hsound & _ & Hclosed) Hroots Hdom b st Hb.
  split; [by apply Hsound|]. intros Hreach. revert st Hb.
  induction Hreach as [b Hroot|b nb Hreach IH Hnb]; intros st Hb.
  - by eapply Hroots.
  - assert (b < length states) as Hlt.
    { eapply Hdom; [done|done|]. by eapply lookup_lt_Some. }
    destruct (lookup_lt_is_Some_2 _ _ Hlt) as [stb Hstb].
    eapply (Hclosed b stb nb); try done.
    + by apply IH.
    + by intros ?%elem_of_nil.
Qed.

End Worklist.


Lemma numUnflagged_le flag (states : list BlockState) :
  numUnflagged flag states ≤ length states.
Proof. apply length_filter. Qed.

Lemma entryReachabilityLoop_worklistLoop function fuel :
  ∀ workList states,
    entryReachabilityLoop function fuel workList states
    = worklistLoop (successorsOf function) reachableFromEntry
                   setReachableFromEntry fuel workList states.
Proof.
  induction fuel as [|fuel IH]; intros workList states; [done|].
  simpl. destruct workList as [|state workList]; [done|].
  change (markSuccessors ?succs ?acc)
    with (markNeighbours reachableFromEntry setReachableFromEntry succs acc).
  unfold successorsOf.
  destruct (markNeighbours _ _ _ _) as [workList' states']. apply IH.
Qed.

Lemma reached_reachableBlock function b :
  reached (successorsOf function) (fun b => b = 0) b
  ↔ reachableBlock function b.
Proof.
  split.
  - induction 1 as [b ->|b nb _ IH Hnb]; [constructor|].
    unfold successorsOf in Hnb.
    destruct (blocks function !! b) as [BB|] eqn:HBB;
      [|by apply elem_of_nil in Hnb].
    by eapply reachable_successor.
  - induction 1 as [|b BB succ _ IH HBB Hsucc]; [by constructor|].
    eapply reached_step; [exact IH|]. unfold successorsOf. by rewrite HBB.
Qed.

(** The states after the analysis, with the invariant of the work list
    loop for the empty work list. *)
Lemma entryReachabilityAnalysis_inv function states entryState :
  states !! 0 = Some entryState →
  (∀ i st, states !! i = Some st → reachableFromEntry st = false) →
  worklistInv (successorsOf function) reachableFromEntry
    setReachableFromEntry (fun b => b = 0)
    (<[0 := setReachableFromEntry entryState]> states) []
    (entryReachabilityAnalysis function states).
Proof.
  intros Hentry Hclear. unfold entryReachabilityAnalysis. rewrite Hentry.
  rewrite entryReachabilityLoop_worklistLoop.
  set (states1 := <[0 := setReachableFromEntry entryState]> states) in *.
  assert (states1 !! 0 = Some (setReachableFromEntry entryState)) as Hentry1.
  { unfold states1.
    by rewrite list_lookup_insert_eq by (by eapply lookup_lt_Some). }
  assert (∀ i st, states1 !! i = Some st →
            reachableFromEntry st = true → i = 0) as Honly.
  { intros i st Hi Hflag. destruct (decide (i = 0)) as [|Hne]; [done|].
    unfold states1 in Hi. rewrite list_lookup_insert_ne in Hi by done.
    by rewrite (Hclear i st Hi) in Hflag. }
  apply (worklistLoop_inv (successorsOf function) reachableFromEntry
           setReachableFromEntry (fun b => b = 0) (fun st => eq_refl)).
  - split; [done|]. split; [|split; [|split]].
    + intros i st Hi. exists st. auto.
    + intros i st Hi Hflag. constructor. by eapply Honly.
    + intros i ->%list_elem_of_singleton. eauto.
    + intros i st nb nbState Hi Hflag Hnotin. destruct Hnotin.
      apply list_elem_of_singleton. by eapply Honly.
  - pose proof (numUnflagged_insert reachableFromEntry
                  setReachableFromEntry (fun st => eq_refl) states 0
                  entryState Hentry (Hclear 0 _ Hentry)) as Hdec.
    pose proof (numUnflagged_le reachableFromEntry states).
    fold states1 in Hdec. simpl. lia.
Qed.

(** [entryReachabilityAnalysis], run on block states none of which is
    marked, marks exactly the blocks which are reachable from the entry
    block along successor edges; it leaves the sets and the other mark of
    every block state as they are. *)
Theorem entryReachabilityAnalysis_reachable function states b st' :
  length states = length (blocks function) →
  (∀ i st, states !! i = Some st → reachableFromEntry st = false) →
  entryReachabilityAnalysis function states !! b = Some st' →
  (reachableFromEntry st' = true ↔ reachableBlock function b)
  ∧ ∃ st, states !! b = Some st ∧ sameSets st st'
          ∧ exitReachable st' = exitReachable st.
Proof.
  intros Hlen Hclear Hb.
  destruct (states !! 0) as [entryState|] eqn:Hentry.
  - pose proof (entryReachabilityAnalysis_inv function states entryState
                  Hentry Hclear) as Hfinal.
    set (states1 := <[0 := setReachableFromEntry entryState]> states) in *.
    set (states' := entryReachabilityAnalysis function states) in *.
    assert (states1 !! 0 = Some (setReachableFromEntry entryState))
      as Hentry1.
    { unfold states1.
      by rewrite list_lookup_insert_eq by (by eapply lookup_lt_Some). }
    assert (length states1 = length states) as Hlen1
      by apply length_insert.
    pose proof Hfinal as (Hlen' & Hframe & _).
    split.
    + rewrite <- reached_reachableBlock.
      apply (worklistInv_reached _ _ _ _ states1 states' Hfinal); [| |done].
      * intros i st -> Hi.
        destruct (Hframe 0 st Hi) as (st1 & Hst1 & Hshape).
        rewrite Hentry1 in Hst1. injection Hst1 as <-.
        by destruct Hshape as [->|[Hf _]].
      * intros i nb _ Hnb _. unfold successorsOf in Hnb.
        destruct (blocks function !! i) as [BB|] eqn:HBB;
          [|by apply elem_of_nil in Hnb].
        rewrite Hlen', Hlen1, Hlen. by eapply lookup_lt_Some.
    + destruct (Hframe b st' Hb) as (st1 & Hst1 & Hshape).
      assert (∃ st, states !! b = Some st ∧ sameSets st st1
                    ∧ exitReachable st1 = exitReachable st)
        as (st & Hst & Hsame & Hexit).
      { destruct (decide (b = 0)) as [->|Hne].
        - rewrite Hentry1 in Hst1. injection Hst1 as <-.
          exists entryState. by repeat split.
        - unfold states1 in Hst1.
          rewrite list_lookup_insert_ne in Hst1 by done.
          exists st1. by repeat split. }
      exists st. split; [done|].
      destruct Hshape as [->|[_ ->]]; [done|].
      destruct Hsame as (? & ? & ? & ?). by repeat split.
  - unfold entryReachabilityAnalysis in Hb. rewrite Hentry in Hb.
    apply lookup_lt_Some in Hb. apply lookup_ge_None in Hentry. lia.
Qed.

(** In [loopingFunction] the analysis marks the blocks 0, 1 and 3. *)
Lemma entryReachabilityAnalysis_reachable_witness :
  let states := MemoryDataflow loopingFunction 1 in
  reachableFromEntry <$> entryReachabilityAnalysis loopingFunction states
  = [true; true; false; true]
  ∧ reachableBlock loopingFunction 3
  ∧ ¬ reachableBlock loopingFunction 2.
Proof.
  intros states.
  pose (st3 := default clearedState
                 (entryReachabilityAnalysis loopingFunction states !! 3)).
  pose (st2 := default clearedState
                 (entryReachabilityAnalysis loopingFunction states !! 2)).
  vm_compute in st2, st3.
  assert (length states = length (blocks loopingFunction)) as Hlen
    by reflexivity.
  assert (∀ i st, states !! i = Some st → reachableFromEntry st = false)
    as Hclear.
  { intros [|[|[|[|i]]]] st; vm_compute; by intros [= <-]. }
  split; [reflexivity|]. split.
  - apply (entryReachabilityAnalysis_reachable loopingFunction states 3 st3
             Hlen Hclear eq_refl). reflexivity.
  - intros Hreach.
    apply (entryReachabilityAnalysis_reachable loopingFunction states 2 st2
             Hlen Hclear eq_refl) in Hreach. discriminate.
Defined.

Lemma exitReachableLoop_worklistLoop function fuel :
  ∀ workList states,
    exitReachableLoop function fuel workList states
    = worklistLoop (getPredecessorBlocks function) exitReachable
                   setExitReachable fuel workList states.
Proof.
  induction fuel as [|fuel IH]; intros workList states; [done|].
  simpl. destruct workList as [|state workList]; [done|].
  change (markPredecessors ?preds ?acc)
    with (markNeighbours exitReachable setExitReachable preds acc).
  destruct (markNeighbours _ _ _ _) as [workList' states']. apply IH.
Qed.

Lemma reached_reachesExit function b :
  reached (getPredecessorBlocks function)
          (fun b => hasFunctionExitingTerminator function b = true) b
  ↔ reachesExit function b.
Proof.
  split.
  - induction 1 as [b Hb|b nb _ IH Hnb]; [by constructor|].
    by eapply reaches_exit_predecessor.
  - induction 1 as [b Hb|b pred _ IH Hpred]; [by constructor|].
    by eapply reached_step.
Qed.

Lemma reachesExit_lt function b :
  reachesExit function b → b < length (blocks function).
Proof.
  induction 1 as [b Hb|b pred _ _ Hpred].
  - unfold hasFunctionExitingTerminator in Hb.
    destruct (blocks function !! b) as [BB|] eqn:HBB; [|done].
    by eapply lookup_lt_Some.
  - apply elem_of_getPredecessorBlocks in Hpred as (BB & HBB & _).
    by eapply lookup_lt_Some.
Qed.

(** The first loop of [exitReachableAnalysis], over the blocks [idxs]. *)
Lemma markExitingBlocks_fold function idxs :
  NoDup idxs →
  ∀ workList states workList' states',
    (∀ i st, i ∈ idxs → states !! i = Some st → exitReachable st = false) →
    foldl (fun '(workList, states) block =>
             match states !! block with
             | Some state =>
                 if hasFunctionExitingTerminator function block
                 then (block :: workList,
                       <[block := setExitReachable state]> states)
                 else (workList, states)
             | None => (workList, states)
             end)
          (workList, states) idxs
    = (workList', states') →
    length states' = length states
    ∧ length workList' + numUnflagged exitReachable states'
      = length workList + numUnflagged exitReachable states
    ∧ (∀ b st', states' !! b = Some st' →
          ∃ st, states !! b = Some st
                ∧ (st' = st
                   ∨ (st' = setExitReachable st ∧ b ∈ idxs
                      ∧ hasFunctionExitingTerminator function b = true
                      ∧ b ∈ workList')))
    ∧ (∀ b st', b ∈ idxs →
          hasFunctionExitingTerminator function b = true →
          states' !! b = Some st' → exitReachable st' = true)
    ∧ (∀ b, b ∈ workList' →
          b ∈ workList
          ∨ (hasFunctionExitingTerminator function b = true
             ∧ ∃ st', states' !! b = Some st' ∧ exitReachable st' = true))
    ∧ (∀ b, b ∈ workList → b ∈ workList').
Proof.
  induction 1 as [|idx idxs Hnotin Hnodup IH];
    intros workList states workList' states' Hclear; cbn [foldl].
  - intros [= <- <-]. repeat split; try done.
    + intros b st' Hb. exists st'. auto.
    + intros b st' Hin. by apply elem_of_nil in Hin.
    + auto.
  - set (step := match states !! idx with
                 | Some state =>
                     if hasFunctionExitingTerminator function idx
                     then (idx :: workList,
                           <[idx := setExitReachable state]> states)
                     else (workList, states)
                 | None => (workList, states)
                 end).
    destruct step as [workList1 states1] eqn:Hstep. intros Hfold.
    assert (length states1 = length states
            ∧ length workList1 + numUnflagged exitReachable states1
              = length workList + numUnflagged exitReachable states
            ∧ (∀ b st1, states1 !! b = Some st1 →
                 ∃ st, states !! b = Some st
                   ∧ (st1 = st
                      ∨ (st1 = setExitReachable st ∧ b = idx
                         ∧ hasFunctionExitingTerminator function b = true
                         ∧ b ∈ workList1)))
            ∧ (∀ st1, hasFunctionExitingTerminator function idx = true →
                 states1 !! idx = Some st1 → exitReachable st1 = true)
            ∧ (∀ b, b ∈ workList1 →
                 b ∈ workList
                 ∨ (hasFunctionExitingTerminator function b = true
                    ∧ ∃ st1, states1 !! b = Some st1
                             ∧ exitReachable st1 = true))
            ∧ (∀ b, b ∈ workList → b ∈ workList1))
      as (Hlen1 & Hsum1 & Hframe1 & Hmarked1 & Hwl1 & Hsub1).
    { subst step. destruct (states !! idx) as [state|] eqn:Hidx.
      - destruct (hasFunctionExitingTerminator function idx) eqn:Hexit;
          injection Hstep as <- <-.
        + split; [by rewrite length_insert|]. split.
          { pose proof (numUnflagged_insert exitReachable setExitReachable
                          (fun st => eq_refl) states idx state Hidx) as Hdec.
            rewrite <- Hdec; [simpl; lia|].
            eapply Hclear; [by left|done]. }
          split; [|split; [|split]].
          * intros b st1 Hb. destruct (decide (b = idx)) as [->|Hne].
            -- rewrite list_lookup_insert_eq in Hb
                 by (by eapply lookup_lt_Some).
               injection Hb as <-. exists state. split; [done|]. right.
               repeat split; try done. by left.
            -- rewrite list_lookup_insert_ne in Hb by done.
               exists st1. auto.
          * intros st1 _. rewrite list_lookup_insert_eq
              by (by eapply lookup_lt_Some).
            by intros [= <-].
          * intros b [->|Hin]%elem_of_cons; [|by left].
            right. split; [done|]. exists (setExitReachable state).
            by rewrite list_lookup_insert_eq by (by eapply lookup_lt_Some).
          * intros b Hin. by right.
        + repeat split; try done.
          * intros b st1 Hb. exists st1. auto.
          * auto.
      - injection Hstep as <- <-. repeat split; try done.
        + intros b st1 Hb. exists st1. auto.
        + intros st1 _ Hst1. congruence.
        + auto. }
    assert (∀ i st, i ∈ idxs → states1 !! i = Some st →
              exitReachable st = false) as Hclear1.
    { intros i st Hin Hi. destruct (Hframe1 i st Hi) as (st0 & Hst0 & Hshape).
      destruct Hshape as [->|(_ & -> & _)]; [|done].
      eapply Hclear; [by right|done]. }
    destruct (IH _ _ _ _ Hclear1 Hfold)
      as (Hlen & Hsum & Hframe & Hmarked & Hwl & Hsub).
    assert (∀ b st1 st', states1 !! b = Some st1 → states' !! b = Some st' →
              exitReachable st1 = true → exitReachable st' = true) as Hmono.
    { intros b st1 st' Hst1 Hst' Hflag.
      destruct (Hframe b st' Hst') as (st1' & Hst1' & [->|(-> & _)]);
        [congruence|done]. }
    split; [congruence|]. split; [lia|]. split; [|split; [|split]].
    + intros b st' Hb.
      destruct (Hframe b st' Hb) as (st1 & Hst1 & Hshape).
      destruct (Hframe1 b st1 Hst1) as (st & Hst & Hshape1).
      exists st. split; [done|].
      destruct Hshape as [->|(-> & Hin & Hexit & Hin')],
               Hshape1 as [->|(-> & -> & Hexit1 & Hin1)].
      * by left.
      * right. repeat split; try done; [by left|by apply Hsub].
      * right. repeat split; try done. by right.
      * done.
    + intros b st' [->|Hin]%elem_of_cons Hexit Hb; [|by eapply Hmarked].
      assert (is_Some (states1 !! idx)) as [st1 Hst1].
      { apply lookup_lt_is_Some. rewrite <- Hlen. by eapply lookup_lt_Some. }
      eapply Hmono; [exact Hst1|exact Hb|]. by apply Hmarked1.
    + intros b Hin. destruct (Hwl b Hin) as [Hin1|?]; [|by right].
      destruct (Hwl1 b Hin1) as [?|(Hexit & st1 & Hst1 & Hflag1)];
        [by left|].
      right. split; [done|].
      assert (is_Some (states' !! b)) as [st' Hst'].
      { apply lookup_lt_is_Some. rewrite Hlen. by eapply lookup_lt_Some. }
      exists st'. split; [done|]. by eapply Hmono.
    + auto.
Qed.

(** [exitReachableAnalysis], run on block states none of which is marked,
    marks exactly the blocks from which a block with a function-exiting
    terminator is reachable; it leaves the sets and the other mark of every
    block state as they are. *)
Theorem exitReachableAnalysis_reaches function states b st' :
  length states = length (blocks function) →
  (∀ i st, states !! i = Some st → exitReachable st = false) →
  exitReachableAnalysis function states !! b = Some st' →
  (exitReachable st' = true ↔ reachesExit function b)
  ∧ ∃ st, states !! b = Some st ∧ sameSets st st'
          ∧ reachableFromEntry st' = reachableFromEntry st.
Proof.
  intros Hlen Hclear. unfold exitReachableAnalysis, markExitingBlocks.
  destruct (foldl _ _ _) as [workList states1] eqn:Hfold.
  destruct (markExitingBlocks_fold function (seq 0 (length states))
              (NoDup_seq _ _) [] states workList states1
              (fun i st _ => Hclear i st) Hfold)
    as (Hlen1 & Hsum1 & Hframe1 & Hmarked1 & Hwl1 & _).
  rewrite exitReachableLoop_worklistLoop. intros Hb.
  set (roots := fun b => hasFunctionExitingTerminator function b = true).
  assert (worklistInv (getPredecessorBlocks function) exitReachable
            setExitReachable roots states1 workList states1) as Hinv.
  { split; [done|]. split; [|split; [|split]].
    - intros i st Hi. exists st. auto.
    - intros i st Hi Hflag. constructor.
      destruct (Hframe1 i st Hi) as (st0 & Hst0 & [->|(_ & _ & Hexit & _)]);
        [|done].
      by rewrite (Hclear i st0 Hst0) in Hflag.
    - intros i Hin. destruct (Hwl1 i Hin) as [Hnil|[_ ?]]; [|done].
      by apply elem_of_nil in Hnil.
    - intros i st nb nbState Hi Hflag Hnotin. destruct Hnotin.
      destruct (Hframe1 i st Hi) as (st0 & Hst0 & [->|(_ & _ & _ & Hin)]);
        [|done].
      by rewrite (Hclear i st0 Hst0) in Hflag. }
  assert (length workList + numUnflagged exitReachable states1
          ≤ length states) as Hfuel.
  { pose proof (numUnflagged_le exitReachable states). simpl in Hsum1. lia. }
  pose proof (worklistLoop_inv (getPredecessorBlocks function) exitReachable
                setExitReachable roots (fun st => eq_refl) states1
                (length states) workList states1 Hinv Hfuel) as Hfinal.
  set (states' := worklistLoop _ _ _ _ _ _) in *.
  pose proof Hfinal as (Hlen' & Hframe & _).
  split.
  - rewrite <- reached_reachesExit.
    apply (worklistInv_reached _ _ _ _ states1 states' Hfinal); [| |done].
    + intros i st Hroot Hi.
      destruct (Hframe i st Hi) as (st1 & Hst1 & Hshape).
      assert (exitReachable st1 = true) as Hflag1.
      { eapply (Hmarked1 i); [|done|done].
        apply elem_of_seq. apply lookup_lt_Some in Hst1. lia. }
      destruct Hshape as [->|[Hf _]]; [done|congruence].
    + intros i nb Hreach%reached_reachesExit%reachesExit_lt _ _.
      by rewrite Hlen', Hlen1, Hlen.
  - destruct (Hframe b st' Hb) as (st1 & Hst1 & Hshape).
    destruct (Hframe1 b st1 Hst1) as (st & Hst & Hshape1).
    exists st. split; [done|].
    destruct Hshape as [->|[_ ->]], Hshape1 as [->|[-> _]];
      by repeat split.
Qed.

(** In [loopingFunction] the analysis marks the blocks 0, 1 and 2. *)
Lemma exitReachableAnalysis_reaches_witness :
  let states := MemoryDataflow loopingFunction 1 in
  exitReachable <$> exitReachableAnalysis loopingFunction states
  = [true; true; true; false]
  ∧ reachesExit loopingFunction 2
  ∧ ¬ reachesExit loopingFunction 3.
Proof.
  intros states.
  pose (st3 := default clearedState
                 (exitReachableAnalysis loopingFunction states !! 3)).
  pose (st2 := default clearedState
                 (exitReachableAnalysis loopingFunction states !! 2)).
  vm_compute in st2, st3.
  assert (length states = length (blocks loopingFunction)) as Hlen
    by reflexivity.
  assert (∀ i st, states !! i = Some st → exitReachable st = false)
    as Hclear.
  { intros [|[|[|[|i]]]] st; vm_compute; by intros [= <-]. }
  split; [reflexivity|]. split.
  - apply (exitReachableAnalysis_reaches loopingFunction states 2 st2
             Hlen Hclear eq_refl). reflexivity.
  - intros Hreach.
    apply (exitReachableAnalysis_reaches loopingFunction states 3 st3
             Hlen Hclear eq_refl) in Hreach. discriminate.
Defined.

Lemma entryReachabilityAnalysis_sound function states b st' :
  (∀ i st, states !! i = Some st → reachableFromEntry st = false) →
  entryReachabilityAnalysis function states !! b = Some st' →
  reachableFromEntry st' = true → reachableBlock function b.
Proof.
  intros Hclear Hb Hflag.
  destruct (states !! 0) as [entryState|] eqn:Hentry.
  - destruct (entryReachabilityAnalysis_inv function states entryState
                Hentry Hclear) as (_ & _ & Hsound & _).
    apply reached_reachableBlock. by eapply Hsound.
  - unfold entryReachabilityAnalysis in Hb. rewrite Hentry in Hb.
    by rewrite (Hclear b st' Hb) in Hflag.
Qed.

Lemma intersectExitSets_ones states numBits preds :
  (∀ p ps, p ∈ preds → states !! p = Some ps →
           exitSet ps = N.ones numBits) →
  intersectExitSets states (N.ones numBits) preds = N.ones numBits.
Proof.
  unfold intersectExitSets.
  induction preds as [|p preds IH]; intros Hall; cbn [foldl]; [done|].
  destruct (states !! p) as [ps|] eqn:Hp.
  - rewrite (Hall p ps) by (done || by left). rewrite N.land_diag.
    apply IH. intros q qs Hq. apply Hall. by right.
  - apply IH. intros q qs Hq. apply Hall. by right.
Qed.

Lemma solveBlockForward_unreachable function numBits firstRound changed
    states idx changed' states' :
  unreachableIgnored function numBits states →
  solveBlockForward function firstRound (changed, states) idx
  = (changed', states') →
  unreachableIgnored function numBits states'.
Proof.
  intros Hinv Hstep.
  apply solveBlockForward_shape in Hstep
    as [[-> _]|(st & Hst & _ & ->)]; [done|].
  intros b st' Hb Hnot. destruct (decide (b = idx)) as [->|Hne].
  - rewrite list_lookup_insert_eq in Hb by (by eapply lookup_lt_Some).
    injection Hb as <-.
    destruct (Hinv idx st Hst Hnot) as (Hentry & Hexit & Hgen & Hkill).
    assert (intersectExitSets states (entrySet st)
              (getPredecessorBlocks function idx)
            = N.ones (N.of_nat numBits)) as Hbits.
    { rewrite Hentry. apply intersectExitSets_ones. intros p ps Hp Hps.
      apply (Hinv p ps Hps). intros Hreach. apply Hnot.
      apply elem_of_getPredecessorBlocks in Hp as (BB & HBB & Hsucc).
      by eapply reachable_successor. }
    rewrite Hbits. unfold updateBlock, transfer. simpl.
    rewrite Hgen, Hkill, N.lor_0_r, N.ldiff_0_r. done.
  - rewrite list_lookup_insert_ne in Hb by done. by apply (Hinv b).
Qed.

Lemma solveRoundForward_unreachable function numBits firstRound states
    changed' states' :
  unreachableIgnored function numBits states →
  solveRoundForward function firstRound states = (changed', states') →
  unreachableIgnored function numBits states'.
Proof.
  unfold solveRoundForward. generalize (seq 0 (length states)) as order.
  generalize false as changed. intros changed order. revert changed states.
  induction order as [|idx order IH]; intros changed states Hinv;
    cbn [foldl].
  - by intros [= <- <-].
  - destruct (solveBlockForward function firstRound (changed, states) idx)
      as [changed1 states1] eqn:Hstep.
    apply IH. by eapply solveBlockForward_unreachable.
Qed.

Lemma lookup_MemoryDataflow function numLocations i st :
  MemoryDataflow function numLocations !! i = Some st →
  st = {| entrySet := 0; genSet := 0; killSet := 0; exitSet := 0;
          reachableFromEntry := false; exitReachable := false |}%N.
Proof.
  unfold MemoryDataflow. rewrite list_lookup_fmap.
  destruct (blocks function !! i); [|done]. by intros [= <-].
Qed.

(** The block states of the blocks which are not reachable are seeded by
    [initDataflow] with all-ones entry and exit sets and with empty gen
    and kill sets. *)
Lemma initDataflow_unreachable function L :
  unreachableIgnored function (getNumLocations L)
    (initDataflow function L
       (entryReachabilityAnalysis function
          (MemoryDataflow function (getNumLocations L)))).
Proof.
  intros b st Hb Hnot. unfold initDataflow in Hb.
  rewrite list_lookup_imap in Hb.
  destruct (entryReachabilityAnalysis function
              (MemoryDataflow function (getNumLocations L)) !! b)
    as [st1|] eqn:Hst1; [|done].
  destruct (entryReachabilityAnalysis_clear function (getNumLocations L)
              b st1 Hst1) as [Hgen1 Hkill1].
  assert (reachableFromEntry st1 = false) as Hflag.
  { destruct (reachableFromEntry st1) eqn:Hflag; [|done]. destruct Hnot.
    eapply entryReachabilityAnalysis_sound; [|exact Hst1|exact Hflag].
    by intros i st0 ->%lookup_MemoryDataflow. }
  assert (b ≠ 0) as Hne by (intros ->; apply Hnot; constructor).
  simpl in Hb. rewrite decide_False in Hb by done. simpl in Hb.
  rewrite Hflag in Hb. by injection Hb as <-.
Qed.

(** While the data flow is solved the blocks which are not reachable from
    the entry are ignored: in the states which [verify] solves, the state
    of such a block is not marked reachable, its entry and exit sets are
    all-ones vectors and its gen and kill sets are empty, as [initDataflow]
    seeds them, and [checkFunction] signals no failure for the block. *)
Theorem unreachable_blocks_ignored function L dataFlow b st :
  solveDataflowForward function
    (initDataflow function L
       (entryReachabilityAnalysis function
          (MemoryDataflow function (getNumLocations L))))
  = Some dataFlow →
  dataFlow !! b = Some st →
  ¬ reachableBlock function b →
  reachableFromEntry st = false
  ∧ entrySet st = N.ones (N.of_nat (getNumLocations L))
  ∧ exitSet st = N.ones (N.of_nat (getNumLocations L))
  ∧ genSet st = 0%N ∧ killSet st = 0%N
  ∧ checkFunctionInBlock function L dataFlow b st = [].
Proof.
  intros Hsolve Hb Hnot.
  set (seeded := initDataflow function L _) in Hsolve.
  destruct (solveDataflowForwardLoop_result function
              (fun _ s => unreachableIgnored function (getNumLocations L) s))
    with (fuel := 2 + sumEntryBits seeded) (firstRound := true)
         (states := seeded) (states' := dataFlow) as [Hinv _].
  - intros fr s c s' Hinv Hround. by eapply solveRoundForward_unreachable.
  - apply initDataflow_unreachable.
  - exact Hsolve.
  - destruct (Hinv b st Hb Hnot) as (Hentry & Hexit & Hgen & Hkill).
    assert (reachableFromEntry st = false) as Hflag.
    { destruct (solveDataflowForward_frame _ _ _ Hsolve b st Hb)
        as (_ & st2 & Hst2 & _ & _ & ->).
      unfold seeded, initDataflow in Hst2.
      rewrite list_lookup_imap in Hst2.
      destruct (entryReachabilityAnalysis function
                  (MemoryDataflow function (getNumLocations L)) !! b)
        as [st1|] eqn:Hst1; [|done].
      assert (reachableFromEntry st1 = false) as Hflag1.
      { destruct (reachableFromEntry st1) eqn:Hflag; [|done]. destruct Hnot.
        eapply entryReachabilityAnalysis_sound; [|exact Hst1|exact Hflag].
        by intros i st0 ->%lookup_MemoryDataflow. }
      simpl in Hst2. destruct (decide (b = 0)); simpl in Hst2;
        rewrite Hflag1 in Hst2; by injection Hst2 as <-. }
    repeat split; try done.
    unfold checkFunctionInBlock. by rewrite Hflag.
Qed.

(** The block [bb2] of [loopingFunction] is not reachable: with one
    location its solved sets are the all-ones vector of one bit. *)
Lemma unreachable_blocks_ignored_witness :
  let L := {| locations := [newLocation (argValue inoutArgument) 0 (-1)];
              addr2LocIdx := {[1 := 0]};
              singleBlockLocations := [] |} in
  ∃ dataFlow st,
    solveDataflowForward loopingFunction
      (initDataflow loopingFunction L
         (entryReachabilityAnalysis loopingFunction
            (MemoryDataflow loopingFunction (getNumLocations L))))
    = Some dataFlow
    ∧ dataFlow !! 2 = Some st
    ∧ reachableFromEntry st = false
    ∧ entrySet st = 1%N ∧ exitSet st = 1%N.
Proof.
  intros L.
  pose (dataFlow :=
          default []
            (solveDataflowForward loopingFunction
               (initDataflow loopingFunction L
                  (entryReachabilityAnalysis loopingFunction
                     (MemoryDataflow loopingFunction (getNumLocations L)))))).
  pose (st := default clearedState (dataFlow !! 2)).
  vm_compute in dataFlow, st.
  assert (solveDataflowForward loopingFunction
            (initDataflow loopingFunction L
               (entryReachabilityAnalysis loopingFunction
                  (MemoryDataflow loopingFunction (getNumLocations L))))
          = Some dataFlow) as Hsolve by (vm_compute; reflexivity).
  assert (¬ reachableBlock loopingFunction 2) as Hnot.
  { intros Hreach.
    assert (∀ b, reachableBlock loopingFunction b → b = 0 ∨ b = 1 ∨ b = 3)
      as Hall.
    { clear. induction 1 as [|b BB succ _ IH HBB Hsucc]; [by left|].
      destruct IH as [-> | [-> | ->] ]; injection HBB as <-;
        vm_compute in Hsucc; set_solver. }
    destruct (Hall 2 Hreach) as [?|[?|?]]; lia. }
  exists dataFlow, st. split; [exact Hsolve|]. split; [reflexivity|].
  destruct (unreachable_blocks_ignored loopingFunction L dataFlow 2 st
              Hsolve eq_refl Hnot) as (Hflag & Hentry & Hexit & _).
  done.
Defined.

Lemma testbit_setBitAndResize_iff bits idx i :
  N.testbit (setBitAndResize bits idx) i = true ↔
  i = N.of_nat idx ∨ N.testbit bits i = true.
Proof.
  unfold setBitAndResize. destruct (decide (i = N.of_nat idx)) as [->|Hne].
  - rewrite N.setbit_eq. naive_solver.
  - rewrite N.setbit_neq by done. naive_solver.
Qed.

Section SelfAndParents.

Variable shouldTrackLocation : SILType → bool.

Lemma selfAndParentsInv_nil : selfAndParentsInv [].
Proof. split; [intros i loc Hi|intros p loc i Hp]; discriminate. Qed.

Lemma selfAndParentsInv_root loc locs :
  selfAndParentsInv locs →
  selfAndParentsInv (locs ++ [newLocation loc (length locs) (-1)%Z]).
Proof.
  intros [Hpf Hinv].
  set (s := length locs).
  set (locs' := locs ++ [newLocation loc s (-1)%Z]).
  assert (parentsFirst locs') as Hpf'.
  { intros i x [Hi|[Hge Hi]]%lookup_app_Some; [by apply Hpf|].
    apply list_lookup_singleton_Some in Hi as [Hi <-]. simpl. lia. }
  split; [exact Hpf'|].
  assert (∀ j, j < s → locs' !! j = locs !! j) as Hsame.
  { intros j Hj. unfold locs'. by rewrite lookup_app_l. }
  assert (locs' !! s = Some (newLocation loc s (-1)%Z)) as Hnew.
  { unfold locs', s. by rewrite list_lookup_middle. }
  intros p x i Hp. destruct (decide (p < s)) as [Hlt|Hge].
  - rewrite Hsame in Hp by done. rewrite (Hinv p x i Hp).
    split; intros (a & -> & Hanc); exists a; (split; [done|]).
    + eapply ancestorOrSelf_ext_below; [exact Hpf| |exact Hanc].
      intros q Hq. rewrite Hsame; [done|lia].
    + eapply ancestorOrSelf_ext_below; [exact Hpf'| |exact Hanc].
      intros q Hq. rewrite Hsame; [done|lia].
  - assert (p = s) as ->.
    { apply lookup_lt_Some in Hp. unfold locs' in Hp.
      rewrite length_app in Hp. simpl in Hp. fold s in Hp. lia. }
    rewrite Hnew in Hp. injection Hp as <-.
    cbn [selfAndParents newLocation].
    rewrite testbit_setBitAndResize_iff, N.bits_0. split.
    + intros [->|?]; [|done]. exists s. split; [done|constructor].
    + intros (a & -> & Hanc). left.
      apply ancestorOrSelf_inv in Hanc
        as [->|(loc0 & parent & Hloc0 & Hp0 & _)]; [done|].
      rewrite Hnew in Hloc0. injection Hloc0 as <-. simpl in Hp0. lia.
Qed.

Lemma registerSubLocation_selfAndParentsInv projection parentLocIdx locs
    parentLoc :
  selfAndParentsInv locs →
  locs !! parentLocIdx = Some parentLoc →
  selfAndParentsInv
    (registerSubLocation shouldTrackLocation projection parentLocIdx
                         (length locs) locs).
Proof.
  intros [Hpf Hinv] Hp.
  destruct (registerSubLocation_spec shouldTrackLocation projection
              parentLocIdx locs parentLoc Hpf Hp)
    as (Hlen & Hnew & Hparent & Hother).
  destruct (registerSubLocation_parents shouldTrackLocation projection
              parentLocIdx locs parentLoc Hpf Hp) as [Hparents Hpf'].
  set (s := length locs) in *.
  set (locs' := registerSubLocation shouldTrackLocation projection
                  parentLocIdx s locs) in *.
  assert (parentLocIdx < s) as Hplt by (by eapply lookup_lt_Some).
  split; [exact Hpf'|].
  assert (∀ j, j < s → (parentIdx <$> locs') !! j = (parentIdx <$> locs) !! j)
    as Hpar.
  { intros j Hj. rewrite Hparents, lookup_app_l; [done|].
    by rewrite length_fmap. }
  assert (∀ a q, q < s → ancestorOrSelf locs a q ↔ ancestorOrSelf locs' a q)
    as Hanc_iff.
  { intros a q Hq. split; intros Hanc.
    - eapply ancestorOrSelf_ext_below; [exact Hpf| |exact Hanc].
      intros j Hj. rewrite <- !list_lookup_fmap. apply Hpar. lia.
    - eapply ancestorOrSelf_ext_below; [exact Hpf'| |exact Hanc].
      intros j Hj. rewrite <- !list_lookup_fmap. symmetry. apply Hpar. lia. }
  intros p x i Hpx. destruct (decide (p = s)) as [->|Hps].
  - rewrite Hnew in Hpx. injection Hpx as <-.
    cbn [selfAndParents setSelfAndParents].
    rewrite N.lor_spec, orb_true_iff, testbit_setBitAndResize_iff, N.bits_0.
    rewrite (Hinv parentLocIdx parentLoc i Hp). split.
    + intros [[->|?]|(a & -> & Hanc)]; [|done|].
      * exists s. split; [done|constructor].
      * exists a. split; [done|].
        eapply ancestor_parent; [exact Hnew|done|]. by apply Hanc_iff.
    + intros (a & -> & Hanc).
      apply ancestorOrSelf_inv in Hanc
        as [->|(loc0 & parent & Hloc0 & Hp0 & Hanc)]; [by left; left|].
      right. exists a. split; [done|].
      rewrite Hnew in Hloc0. injection Hloc0 as <-. simpl in Hp0.
      assert (parent = parentLocIdx) as -> by lia. by apply Hanc_iff.
  - assert (p < s) as Hplt'.
    { apply lookup_lt_Some in Hpx. lia. }
    destruct (lookup_lt_is_Some_2 locs p Hplt') as [locp Hlocp].
    assert (selfAndParents x = selfAndParents locp) as ->.
    { destruct (decide (p = parentLocIdx)) as [->|Hne].
      - rewrite Hparent in Hpx. injection Hpx as <-.
        assert (locp = parentLoc) as -> by congruence. done.
      - destruct (Hother p locp Hlocp Hne) as [[_ Hp']|[_ Hp']];
          rewrite Hp' in Hpx; by injection Hpx as <-. }
    rewrite (Hinv p locp i Hlocp).
    split; intros (a & -> & Hanc); exists a; (split; [done|]);
      by apply Hanc_iff.
Qed.

Lemma analyzeLocations_selfAndParentsInv function L :
  selfAndParentsInv (locations L) →
  selfAndParentsInv
    (locations (analyzeLocations shouldTrackLocation function L)).
Proof.
  apply analyzeLocations_table.
  - by intros locs [Hpf _].
  - apply selfAndParentsInv_root.
  - apply registerSubLocation_selfAndParentsInv.
Qed.

End SelfAndParents.



(** A property of the table which every [analyzeLocation] and every
    deferral of a single-block location keep holds for the table which
    [analyzeLocations] builds. *)
Lemma analyzeLocations_fold_table shouldTrackLocation
    (P : MemoryLocations → Prop) :
  (∀ loc L, P L → P (analyzeLocation shouldTrackLocation loc L)) →
  (∀ ASI L, P L →
            P {| locations := locations L; addr2LocIdx := addr2LocIdx L;
                 singleBlockLocations := singleBlockLocations L ++ [ASI] |}) →
  ∀ function L,
    P L → P (analyzeLocations shouldTrackLocation function L).
Proof.
  intros Hloc Hsingle function L. unfold analyzeLocations.
  assert (∀ args L0,
            P L0 →
            P (foldl (analyzeArgument shouldTrackLocation) L0 args))
    as Hargs.
  { induction args as [|arg args IH]; intros L0 H0; cbn [foldl]; [done|].
    apply IH. unfold analyzeArgument.
    destruct (getArgumentConventionOfArg arg); auto. }
  assert (∀ insts L0,
            P L0 →
            P (foldl (analyzeInstruction shouldTrackLocation) L0 insts))
    as Hinsts.
  { induction insts as [|inst insts IH]; intros L0 H0; cbn [foldl]; [done|].
    apply IH.
    destruct inst as [| | | | | | | | | |[] ASI| | | |]; simpl; try done.
    destruct (allUsesInSameBlock ASI); [by apply Hsingle|by apply Hloc]. }
  intros H0. generalize (Hargs (getArguments function) L H0).
  generalize (foldl (analyzeArgument shouldTrackLocation) L
                    (getArguments function)) as L1.
  induction (blocks function) as [|BB BBs IH]; intros L1 H1; cbn [foldl];
    [done|].
  apply IH. by apply Hinsts.
Qed.

Section Registered.

Variable shouldTrackLocation : SILType → bool.

Lemma rootIs_register loc root projection parentLocIdx fieldNr st :
  wfRoot root st → rootIs loc root st →
  root ≤ parentLocIdx < length (locations (table st)) →
  rootIs loc root
    (withSubLocation shouldTrackLocation projection parentLocIdx fieldNr
                     (length (locations (table st))) st).
Proof.
  intros (Hpf & _) (rootLoc & Hroot & Hval & Hparent) [Hge Hlt].
  destruct (lookup_lt_is_Some_2 _ _ Hlt) as [parentLoc Hp].
  destruct (registerSubLocation_spec shouldTrackLocation projection
              parentLocIdx _ parentLoc Hpf Hp)
    as (_ & _ & Hparent' & Hother).
  unfold rootIs. simpl.
  destruct (decide (root = parentLocIdx)) as [->|Hne].
  - eexists. split; [exact Hparent'|].
    assert (parentLoc = rootLoc) as -> by congruence. done.
  - destruct (Hother root rootLoc Hroot Hne) as [[_ ->]|[_ ->]];
      eexists; split; done.
Qed.

Lemma analyzeLocationUsesRecursively_registered loc root V locIdx st ok st' :
  wfRoot root st ∧ addrValid (table st) ∧ rootIs loc root st →
  root ≤ locIdx < length (locations (table st)) →
  analyzeLocationUsesRecursively shouldTrackLocation V locIdx st
  = (ok, st') →
  (wfRoot root st' ∧ addrValid (table st') ∧ rootIs loc root st')
  ∧ extendsRoot root st st'.
Proof.
  apply (analyzeLocationUsesRecursively_rule shouldTrackLocation
           (fun st => wfRoot root st ∧ addrValid (table st)
                      ∧ rootIs loc root st)
           (fun st idx => root ≤ idx < length (locations (table st)))
           (extendsRoot root)).
  - apply extendsRoot_refl.
  - apply extendsRoot_trans.
  - intros st1 st2 idx (_ & Hlen & _) ?. lia.
  - intros projection parentLocIdx fieldNr st1 (Hwf & Hvalid & Hroot)
           Hidx _ _.
    destruct (wfRoot_register shouldTrackLocation root projection
                parentLocIdx fieldNr st1 Hwf Hidx) as (Hwf1 & Hext & Hidx1).
    split; [|done]. split; [done|]. split; [|by apply rootIs_register].
    intros id idx Hid. simpl in Hid. apply Hvalid in Hid.
    destruct Hext as (_ & Hlen & _). lia.
  - intros parentLocIdx fieldNr subLocIdx st1 ((_ & _ & _ & Hmap) & _) _
           Hfound%Hmap _. lia.
  - intros projection subLocIdx st1 (Hwf & Hvalid & Hroot) Hidx.
    destruct (wfRoot_collected root projection subLocIdx st1 Hwf)
      as [Hwf1 Hext].
    split; [|done]. split; [done|]. split; [|done].
    intros id idx. simpl.
    destruct (decide (id = getId projection)) as [->|Hne].
    + rewrite lookup_insert_eq. intros [= <-]. lia.
    + rewrite lookup_insert_ne by done. apply Hvalid.
Qed.

(** What a successful [analyzeLocation] registers. *)
Lemma analyzeLocation_registered loc L :
  parentsFirst (locations L) → addrValid L →
  shouldTrackLocation (getType loc) = true →
  analyzable shouldTrackLocation loc L = true →
  let L' := analyzeLocation shouldTrackLocation loc L in
  let root := length (locations L) in
  addrValid L'
  ∧ addr2LocIdx L' !! getId loc = Some root
  ∧ take root (locations L') = locations L
  ∧ ∃ rootLoc, locations L' !! root = Some rootLoc
               ∧ representativeValue rootLoc = loc
               ∧ parentIdx rootLoc = (-1)%Z.
Proof.
  intros Hpf Hvalid Htrack Hok L' root. subst L'.
  unfold analyzable in Hok. unfold analyzeLocation. rewrite Htrack. simpl.
  destruct (analyzeLocationUsesRecursively _ _ _ _) as [ok st] eqn:Huses.
  simpl in Hok. subst ok. simpl. fold root in Huses.
  destruct (analyzeLocationUsesRecursively_registered loc root loc root
              (withRootLocation loc L) true st)
    as ((Hwf & Hvalid' & Hroot) & Hext); [| |done|].
  - split; [by apply wfRoot_withRootLocation|]. split.
    + intros id idx Hid. simpl in Hid. apply Hvalid in Hid. simpl.
      rewrite length_app. lia.
    + eexists. split; [simpl; by rewrite list_lookup_middle|done].
  - simpl. rewrite length_app. simpl. fold root. lia.
  - destruct Hext as (Htake & Hlen & _). simpl in Htake, Hlen.
    rewrite length_app in Hlen. simpl in Hlen. fold root in Hlen.
    split; [|split; [|split]].
    + intros id idx. simpl.
      destruct (decide (id = getId loc)) as [->|Hne].
      * rewrite lookup_insert_eq. intros [= <-]. lia.
      * rewrite lookup_insert_ne by done. apply Hvalid'.
    + by rewrite lookup_insert_eq.
    + rewrite Htake. unfold root. by rewrite take_app_length.
    + exact Hroot.
Qed.

Lemma analyzeLocation_addrValid loc L :
  parentsFirst (locations L) ∧ addrValid L →
  parentsFirst (locations (analyzeLocation shouldTrackLocation loc L))
  ∧ addrValid (analyzeLocation shouldTrackLocation loc L).
Proof.
  intros [Hpf Hvalid]. split.
  { apply (analyzeLocation_table shouldTrackLocation parentsFirst); try done.
    - intros x locs Hlocs i y [Hi|[Hge Hi]]%lookup_app_Some;
        [by apply Hlocs|].
      apply list_lookup_singleton_Some in Hi as [Hi <-]. simpl. lia.
    - intros projection parentLocIdx locs parentLoc Hlocs Hp.
      by apply (registerSubLocation_parents shouldTrackLocation projection
                  parentLocIdx locs parentLoc). }
  destruct (shouldTrackLocation (getType loc)) eqn:Htrack.
  - destruct (analyzable shouldTrackLocation loc L) eqn:Hok.
    + by apply (analyzeLocation_registered loc L Hpf Hvalid Htrack Hok).
    + destruct (analyzeLocation_discarded shouldTrackLocation loc L
                  Hpf Htrack Hok) as (Hlocs & _ & Hmap).
      intros id idx Hid%Hmap. rewrite Hlocs. by apply (Hvalid id).
  - unfold analyzeLocation. by rewrite Htrack.
Qed.

End Registered.

Lemma addrValid_emptyLocations :
  parentsFirst (locations emptyLocations) ∧ addrValid emptyLocations.
Proof. split; [intros i loc Hi|intros id idx Hid]; discriminate. Qed.

Lemma analyzeLocations_addrValid shouldTrackLocation function :
  addrValid (analyzeLocations shouldTrackLocation function emptyLocations).
Proof.
  apply (analyzeLocations_fold_table shouldTrackLocation
           (fun L => parentsFirst (locations L) ∧ addrValid L)).
  - intros loc L. apply analyzeLocation_addrValid.
  - by intros ASI L.
  - apply addrValid_emptyLocations.
Qed.

(** In the table which [analyzeLocations] builds every entry of the
    address map is the index of a location of the table: the location
    index of an address is -1 or the index of a location, and
    [getLocation] finds a location for exactly the addresses with a
    location index. *)
Theorem getLocationIdx_in_bounds shouldTrackLocation function addr :
  let L := analyzeLocations shouldTrackLocation function emptyLocations in
  (getLocationIdx L addr = (-1)%Z
   ∨ (0 ≤ getLocationIdx L addr < Z.of_nat (getNumLocations L))%Z)
  ∧ (getLocation L addr = None ↔ getLocationIdx L addr = (-1)%Z)
  ∧ ∀ id, getLocationIdx L (BeginAccess id addr) = getLocationIdx L addr.
Proof.
  intros L.
  pose proof (analyzeLocations_addrValid shouldTrackLocation function)
    as Hvalid.
  fold L in Hvalid. unfold getLocation, getLocationIdx, getNumLocations.
  simpl getBaseValue.
  destruct (addr2LocIdx L !! valueId (getBaseValue addr)) as [idx|] eqn:Hidx.
  - apply Hvalid in Hidx. split; [right; lia|]. split; [|done].
    rewrite (proj2 (Z.leb_le _ _)) by lia. rewrite Nat2Z.id. split.
    + intros Hnone%lookup_ge_None. lia.
    + lia.
  - split; [by left|]. split; [|done]. done.
Qed.

(** A successful [analyzeLocation] of the root [loc] registers the root
    as the last location before its sub-locations: the location index of
    the root, and of every access to it through [begin_access], is the
    number of locations which the table had before, the location found
    there has [loc] as its value and no parent, and the locations which
    the table had before are untouched. *)
Theorem analyzeLocation_lookup shouldTrackLocation loc L addr :
  parentsFirst (locations L) → addrValid L →
  shouldTrackLocation (getType loc) = true →
  analyzable shouldTrackLocation loc L = true →
  valueId (getBaseValue addr) = getId loc →
  let L' := analyzeLocation shouldTrackLocation loc L in
  getLocationIdx L' addr = Z.of_nat (getNumLocations L)
  ∧ (∃ rootLoc, getLocation L' addr = Some rootLoc
                ∧ representativeValue rootLoc = loc
                ∧ parentIdx rootLoc = (-1)%Z)
  ∧ take (getNumLocations L) (locations L') = locations L.
Proof.
  intros Hpf Hvalid Htrack Hok Haddr L'.
  destruct (analyzeLocation_registered shouldTrackLocation loc L Hpf Hvalid
              Htrack Hok) as (_ & Hmap & Htake & rootLoc & Hroot & Hval & Hp).
  fold L' in Hmap, Htake, Hroot.
  assert (getLocationIdx L' addr = Z.of_nat (getNumLocations L)) as Hidx.
  { unfold getLocationIdx. by rewrite Haddr, Hmap. }
  split; [done|]. split; [|done].
  exists rootLoc. split; [|done]. unfold getLocation. rewrite Hidx.
  rewrite (proj2 (Z.leb_le _ _)) by lia. by rewrite Nat2Z.id.
Qed.

(** The root [plainlyUsedRoot] is registered as location 0 of the empty
    table, also for an access scope of it. *)
Lemma analyzeLocation_lookup_witness :
  let L' := analyzeLocation trackAll plainlyUsedRoot emptyLocations in
  getLocationIdx L' (BeginAccess 7 (Value (getId plainlyUsedRoot))) = 0%Z
  ∧ ∃ rootLoc,
      getLocation L' (BeginAccess 7 (Value (getId plainlyUsedRoot)))
      = Some rootLoc
      ∧ representativeValue rootLoc = plainlyUsedRoot.
Proof.
  intros L'.
  destruct (analyzeLocation_lookup trackAll plainlyUsedRoot emptyLocations
              (BeginAccess 7 (Value (getId plainlyUsedRoot)))
              (proj1 addrValid_emptyLocations)
              (proj2 addrValid_emptyLocations)
              eq_refl eq_refl eq_refl)
    as (Hidx & (rootLoc & Hloc & Hval & _) & _).
  split; [exact Hidx|]. exists rootLoc. by split.
Defined.

Lemma groupFrom_spec SVIs :
  ∀ b g,
    g ≠ [] → (∀ SVI, SVI ∈ g → getParent SVI = b) →
    concat (snd <$> groupFrom b g SVIs) = g ++ SVIs
    ∧ wellGrouped (groupFrom b g SVIs)
    ∧ ∃ g' groups, groupFrom b g SVIs = (b, g') :: groups.
Proof.
  induction SVIs as [|SVI SVIs IH]; intros b g Hne Hin; simpl.
  - split; [by rewrite !app_nil_r|]. split; [|eauto]. split.
    + intros b' g' Hin'%list_elem_of_singleton. by injection Hin' as -> ->.
    + intros [|i] b1 g1 b2 g2 H1 H2; done.
  - destruct (decide (getParent SVI = b)) as [Hsame|Hdiff].
    + destruct (IH b (g ++ [SVI])) as (Hconcat & Hwell & Hhead).
      * by destruct g.
      * intros x [Hx | ->%list_elem_of_singleton]%elem_of_app; auto.
      * split; [by rewrite Hconcat, <- app_assoc|done].
    + destruct (IH (getParent SVI) [SVI]) as (Hconcat & Hwell & Hhead).
      * done.
      * by intros x ->%list_elem_of_singleton.
      * split; [by rewrite fmap_cons, concat_cons, Hconcat|].
        split; [|eauto].
        destruct Hwell as [Hgroups Hadjacent]. split.
        -- intros b' g' [Heq|Hin']%elem_of_cons;
             [by injection Heq as -> ->|by apply Hgroups].
        -- intros [|i] b1 g1 b2 g2 H1 H2.
           ++ injection H1 as <- <-.
              destruct Hhead as (g' & groups & Heq). rewrite Heq in H2.
              injection H2 as <- <-. done.
           ++ by eapply (Hadjacent i).
Qed.

Section SingleBlockRuns.

Variable shouldTrackLocation : SILType → bool.

Lemma analyzeGroup_single L g :
  singleBlockLocations (analyzeGroup shouldTrackLocation L g)
  = singleBlockLocations L.
Proof.
  unfold analyzeGroup.
  assert (singleBlockLocations (clear L) = singleBlockLocations L) as H0
    by done.
  revert H0. generalize (clear L) as L0.
  induction g as [|SVI g IH]; intros L0 H0; cbn [foldl]; [done|].
  apply IH. by rewrite analyzeLocation_single.
Qed.

Lemma clear_analyzeGroup L g :
  clear (analyzeGroup shouldTrackLocation L g) = clear L.
Proof. unfold clear at 1. by rewrite analyzeGroup_single. Qed.

Lemma analyzeGroup_snoc L g SVI :
  analyzeGroup shouldTrackLocation L (g ++ [SVI])
  = analyzeLocation shouldTrackLocation SVI
                    (analyzeGroup shouldTrackLocation L g).
Proof. unfold analyzeGroup. by rewrite foldl_app. Qed.

Lemma handleSingleBlockLocationsLoop_runs {R : Type}
    (handlerFunc : MemoryLocations → BlockId → R) L SVIs :
  ∀ b g,
    ∃ firsts b' g',
      groupFrom b g SVIs = firsts ++ [(b', g')]
      ∧ handleSingleBlockLocationsLoop shouldTrackLocation handlerFunc SVIs
          (Some b) (analyzeGroup shouldTrackLocation L g)
        = ((fun '(b, g) =>
              handlerFunc (analyzeGroup shouldTrackLocation L g) b)
           <$> firsts,
           (Some b', analyzeGroup shouldTrackLocation L g')).
Proof.
  induction SVIs as [|SVI SVIs IH]; intros b g;
    cbn [groupFrom handleSingleBlockLocationsLoop].
  - by exists [], b, g.
  - destruct (decide (getParent SVI = b)) as [Hsame|Hdiff].
    + subst b. rewrite decide_False by (by intros []).
      destruct (IH (getParent SVI) (g ++ [SVI]))
        as (firsts & b' & g' & Hgroups & Hloop).
      rewrite analyzeGroup_snoc in Hloop. rewrite Hloop.
      by exists firsts, b', g'.
    + rewrite decide_True by done. rewrite clear_analyzeGroup.
      destruct (IH (getParent SVI) [SVI])
        as (firsts & b' & g' & Hgroups & Hloop).
      change (analyzeGroup shouldTrackLocation L [SVI])
        with (analyzeLocation shouldTrackLocation SVI (clear L)) in Hloop.
      rewrite Hloop. exists ((b, g) :: firsts), b', g'.
      split; [by rewrite Hgroups|done].
Qed.

End SingleBlockRuns.

Lemma handleSingleBlockLocations_eq {R : Type} shouldTrackLocation
    (handlerFunc : MemoryLocations → BlockId → R) L :
  handleSingleBlockLocations shouldTrackLocation handlerFunc L
  = ((fun '(b, g) => handlerFunc (analyzeGroup shouldTrackLocation L g) b)
     <$> groupByBlock (singleBlockLocations L),
     clear L).
Proof.
  unfold handleSingleBlockLocations.
  destruct (singleBlockLocations L) as [|SVI SVIs] eqn:HSVIs.
  - simpl. unfold clear. simpl. by rewrite HSVIs.
  - cbn [handleSingleBlockLocationsLoop groupByBlock].
    destruct (handleSingleBlockLocationsLoop_runs shouldTrackLocation
                handlerFunc L SVIs (getParent SVI) [SVI])
      as (firsts & b' & g' & Hgroups & Hloop).
    change (analyzeGroup shouldTrackLocation L [SVI])
      with (analyzeLocation shouldTrackLocation SVI (clear L)) in Hloop.
    rewrite Hloop, Hgroups. simpl.
    rewrite fmap_app. simpl. rewrite clear_analyzeGroup. done.
Qed.

(** [handleSingleBlockLocations] calls the handler once for every maximal
    run of consecutive single-block locations of one block, in order, with
    the table which holds the locations of that run only (the run is
    analyzed in the cleared table), and it leaves the table cleared.  The
    runs partition the single-block locations. *)
Theorem handleSingleBlockLocations_runs {R : Type} shouldTrackLocation
    (handlerFunc : MemoryLocations → BlockId → R) L :
  let groups := groupByBlock (singleBlockLocations L) in
  handleSingleBlockLocations shouldTrackLocation handlerFunc L
  = ((fun '(b, g) => handlerFunc (analyzeGroup shouldTrackLocation L g) b)
     <$> groups,
     clear L)
  ∧ concat (snd <$> groups) = singleBlockLocations L
  ∧ wellGrouped groups.
Proof.
  intros groups. subst groups.
  split; [apply handleSingleBlockLocations_eq|].
  destruct (singleBlockLocations L) as [|SVI SVIs].
  - split; [done|].
    split; [by intros b g ?%elem_of_nil|by intros [|i]].
  - destruct (groupFrom_spec SVIs (getParent SVI) [SVI])
      as (Hconcat & Hwell & _); [done| |done].
    by intros x ->%list_elem_of_singleton.
Qed.

Section Untracked.

Variable function : SILFunction.
Variable L : MemoryLocations.

Hypothesis untracked : ∀ addr, getLocation L addr = None.

Lemma checkFuncArguments_untracked allOperands where_ :
  ∀ bits failures,
    foldl (checkOperand L where_) (bits, failures) allOperands
    = (bits, failures).
Proof.
  induction allOperands as [|op ops IH]; intros bits failures; [done|].
  cbn [foldl]. unfold checkOperand at 2.
  destruct (getArgumentConvention op) as [convention|]; [|apply IH].
  unfold checkFuncArgument, requireBitsSet, requireBitsClear, setBits,
    clearBits.
  rewrite untracked. destruct convention; rewrite ?app_nil_r; apply IH.
Qed.

Lemma checkInstruction_untracked bits inst where_ :
  checkInstruction L bits inst where_ = (bits, []).
Proof.
  destruct inst; simpl;
    unfold requireBitsSet, requireBitsClear, setBits, clearBits,
      checkFuncArguments;
    rewrite ?untracked, ?checkFuncArguments_untracked; try done.
  - by destruct q.
  - by destruct q.
  - by destruct isTakeOfSrc, isInitializationOfDest.
  - destruct getSingleOriginalValue; by rewrite ?untracked.
Qed.

Lemma checkInstructions_untracked block insts :
  ∀ pos bits, checkInstructions L block pos insts bits = (bits, []).
Proof.
  induction insts as [|inst insts IH]; intros pos bits; [done|].
  cbn [checkInstructions]. by rewrite checkInstruction_untracked, IH.
Qed.

Lemma setBitsOfOutOperands_untracked allOperands :
  ∀ bits, setBitsOfOutOperands L bits allOperands = bits.
Proof.
  unfold setBitsOfOutOperands.
  induction allOperands as [|op ops IH]; intros bits; [done|]. cbn [foldl].
  unfold setBits at 2. rewrite untracked.
  destruct (isIndirectOut op); apply IH.
Qed.

Lemma setBitsOfPredecessor_untracked bits block :
  setBitsOfPredecessor function L bits block = bits.
Proof.
  unfold setBitsOfPredecessor. repeat case_match; try done.
  apply setBitsOfOutOperands_untracked.
Qed.

Lemma checkBlock_untracked block bits :
  checkBlock function L block bits = (bits, []).
Proof.
  unfold checkBlock.
  by rewrite setBitsOfPredecessor_untracked, checkInstructions_untracked.
Qed.

End Untracked.

Lemma analyzeLocation_untracked shouldTrackLocation loc L :
  (∀ type, shouldTrackLocation type = false) →
  analyzeLocation shouldTrackLocation loc L = L.
Proof. intros Hnone. unfold analyzeLocation. by rewrite Hnone. Qed.

Lemma analyzeLocations_untracked shouldTrackLocation function :
  (∀ type, shouldTrackLocation type = false) →
  locations (analyzeLocations shouldTrackLocation function emptyLocations)
  = []
  ∧ addr2LocIdx
      (analyzeLocations shouldTrackLocation function emptyLocations) = ∅.
Proof.
  intros Hnone.
  apply (analyzeLocations_fold_table shouldTrackLocation
           (fun L => locations L = [] ∧ addr2LocIdx L = ∅)); try done.
  intros loc L HL. by rewrite analyzeLocation_untracked.
Qed.

(** A block in which no address has a location is replayed without a
    failure and without a change of the bits; a function for which no
    type is tracked is verified without a failure, whatever its
    instructions are. *)
Theorem verify_untracked shouldTrackLocation function :
  (∀ L block bits,
     (∀ addr, getLocation L addr = None) →
     checkBlock function L block bits = (bits, []))
  ∧ ((∀ type, shouldTrackLocation type = false) →
     verify shouldTrackLocation function = []).
Proof.
  split; [intros L block bits Hnone; by apply checkBlock_untracked|].
  intros Hnone. unfold verify.
  destruct (analyzeLocations_untracked shouldTrackLocation function Hnone)
    as [Hlocs Hmap].
  set (L := analyzeLocations shouldTrackLocation function emptyLocations)
    in *.
  rewrite handleSingleBlockLocations_eq.
  assert (verifyMultiBlock function L = []) as ->.
  { unfold verifyMultiBlock, getNumLocations. rewrite Hlocs. done. }
  simpl. generalize (groupByBlock (singleBlockLocations L)) as groups.
  induction groups as [|[b g] groups IH]; [done|].
  rewrite fmap_cons. cbn [flat_map]. rewrite IH, app_nil_r.
  unfold singleBlockHandler. rewrite checkBlock_untracked; [done|].
  intros addr. unfold analyzeGroup.
  assert (foldl (fun L' SVI => analyzeLocation shouldTrackLocation SVI L')
                (clear L) g = clear L) as ->.
  { generalize (clear L) as L0. induction g as [|SVI g IHg]; intros L0;
      cbn [foldl]; [done|]. by rewrite analyzeLocation_untracked. }
  unfold getLocation, getLocationIdx. simpl. by rewrite lookup_empty.
Qed.

Lemma nonDecreasing_weaken lo lo' SVIs :
  lo ≤ lo' → nonDecreasing lo' SVIs → nonDecreasing lo SVIs.
Proof. destruct SVIs; simpl; [done|]. intros ? [? ?]. split; [lia|done]. Qed.

Lemma nonDecreasing_app lo b SVIs1 SVIs2 :
  (∀ SVI, SVI ∈ SVIs1 → getParent SVI = b) → lo ≤ b →
  nonDecreasing b SVIs2 → nonDecreasing lo (SVIs1 ++ SVIs2).
Proof.
  revert lo. induction SVIs1 as [|SVI SVIs1 IH]; intros lo Hall Hlo H2;
    simpl.
  - by eapply nonDecreasing_weaken.
  - rewrite (Hall SVI) by (by left). split; [done|].
    apply IH; [|done|done]. intros x Hx. apply Hall. by right.
Qed.

Lemma increasing_weaken lo lo' groups :
  lo ≤ lo' → increasing lo' groups → increasing lo groups.
Proof.
  destruct groups as [|[b g] groups]; simpl; [done|].
  intros ? [? ?]. split; [lia|done].
Qed.

Lemma increasing_NoDup lo groups :
  increasing lo groups →
  NoDup (fst <$> groups) ∧ ∀ b, b ∈ fst <$> groups → lo ≤ b.
Proof.
  revert lo. induction groups as [|[b g] groups IH]; intros lo; simpl.
  - intros _. split; [constructor|]. by intros b ?%elem_of_nil.
  - intros [Hlo Hrest]. destruct (IH (S b) Hrest) as [Hnodup Hge].
    split.
    + constructor; [|done]. intros Hin%Hge. lia.
    + intros b' [->|Hin%Hge]%elem_of_cons; lia.
Qed.

Lemma groupFrom_increasing SVIs :
  ∀ b g, nonDecreasing b SVIs → increasing b (groupFrom b g SVIs).
Proof.
  induction SVIs as [|SVI SVIs IH]; intros b g; simpl; [done|].
  intros [Hlo Hrest].
  destruct (decide (getParent SVI = b)) as [<-|Hne]; [by apply IH|].
  simpl. split; [done|].
  eapply increasing_weaken; [|by apply IH]. lia.
Qed.

Lemma groupByBlock_increasing SVIs :
  nonDecreasing 0 SVIs → increasing 0 (groupByBlock SVIs).
Proof.
  destruct SVIs as [|SVI SVIs]; simpl; [done|]. intros [_ Hrest].
  eapply increasing_weaken; [|by apply groupFrom_increasing]. lia.
Qed.

Lemma singleBlockLocations_analyzeLocations shouldTrackLocation function L :
  singleBlockLocations (analyzeLocations shouldTrackLocation function L)
  = singleBlockLocations L ++ deferredAllocations function.
Proof.
  unfold analyzeLocations, deferredAllocations.
  assert (singleBlockLocations
            (foldl (analyzeArgument shouldTrackLocation) L
                   (getArguments function))
          = singleBlockLocations L) as <-.
  { generalize (getArguments function) as args. intros args. revert L.
    induction args as [|arg args IH]; intros L; cbn [foldl]; [done|].
    by rewrite IH, analyzeArgument_single. }
  generalize (foldl (analyzeArgument shouldTrackLocation) L
                    (getArguments function)) as L1.
  induction (blocks function) as [|BB BBs IH]; intros L1; cbn [foldl flat_map].
  - by rewrite app_nil_r.
  - rewrite IH, app_assoc. f_equal. clear IH.
    revert L1. induction (instructions BB) as [|inst insts IH];
      intros L1; cbn [foldl flat_map].
    + by rewrite app_nil_r.
    + rewrite IH, analyzeInstruction_single, <- app_assoc. done.
Qed.

Lemma deferredAllocations_nonDecreasing function :
  parentsAreBlocks function →
  nonDecreasing 0 (deferredAllocations function).
Proof.
  unfold parentsAreBlocks, deferredAllocations.
  assert (∀ BBs k,
            (∀ b BB hasDynamicLifetime ASI,
               BBs !! b = Some BB →
               AllocStackInst hasDynamicLifetime ASI ∈ instructions BB →
               getParent ASI = k + b) →
            nonDecreasing k
              (flat_map (fun BB => flat_map deferredAllocation
                                            (instructions BB)) BBs))
    as Hgen.
  { induction BBs as [|BB BBs IH]; intros k Hwf; cbn [flat_map]; [done|].
    apply (nonDecreasing_app k k); [|done|].
    - intros ASI (inst & Hinst & Hin)%elem_of_flat_map.
      destruct inst as [| | | | | | | | | |[] ASI'| | | |];
        try (by apply elem_of_nil in Hin). simpl in Hin.
      destruct (allUsesInSameBlock ASI'); [|by apply elem_of_nil in Hin].
      apply list_elem_of_singleton in Hin as ->.
      rewrite (Hwf 0 BB false ASI' eq_refl Hinst). lia.
    - eapply nonDecreasing_weaken; [|apply (IH (S k))]; [lia|].
      intros b BB' dyn ASI HBB' Hinst.
      rewrite (Hwf (S b) BB' dyn ASI HBB' Hinst). lia. }
  intros Hwf. apply Hgen. intros b BB dyn ASI HBB Hinst.
  by rewrite (Hwf b BB dyn ASI HBB Hinst).
Qed.

(** The single-block locations which [analyzeLocations] collects are the
    stack allocations without dynamic lifetime for which
    [allUsesInSameBlock] holds, in the order of the instructions of the
    function, after the ones which the table held before: no argument and
    no other instruction adds one. *)
Theorem singleBlockLocations_deferred shouldTrackLocation function L :
  singleBlockLocations (analyzeLocations shouldTrackLocation function L)
  = singleBlockLocations L ++ deferredAllocations function
  ∧ ∀ ASI, ASI ∈ deferredAllocations function ↔
           ∃ BB, BB ∈ blocks function
                 ∧ AllocStackInst false ASI ∈ instructions BB
                 ∧ allUsesInSameBlock ASI = true.
Proof.
  split; [apply singleBlockLocations_analyzeLocations|].
  intros ASI. unfold deferredAllocations. rewrite elem_of_flat_map.
  split.
  - intros (BB & HBB & (inst & Hinst & Hin)%elem_of_flat_map).
    exists BB. split; [done|].
    destruct inst as [| | | | | | | | | |[] ASI'| | | |];
      try (by apply elem_of_nil in Hin). simpl in Hin.
    destruct (allUsesInSameBlock ASI') eqn:Huses;
      [|by apply elem_of_nil in Hin].
    by apply list_elem_of_singleton in Hin as ->.
  - intros (BB & HBB & Hinst & Huses). exists BB. split; [done|].
    apply elem_of_flat_map. exists (AllocStackInst false ASI).
    split; [done|]. simpl. rewrite Huses. by left.
Qed.

(** When the parent of every stack allocation is the block which holds it,
    the blocks of the runs of single-block locations which
    [handleSingleBlockLocations] forms from the locations collected by
    [analyzeLocations] increase strictly: no two runs are of the same
    block, so that the single-block check runs at most once for a block. *)
Theorem single_block_runs_increase shouldTrackLocation function
    (Hparents : parentsAreBlocks function) :
  let L := analyzeLocations shouldTrackLocation function emptyLocations in
  increasing 0 (groupByBlock (singleBlockLocations L))
  ∧ NoDup (fst <$> groupByBlock (singleBlockLocations L)).
Proof.
  intros L. subst L.
  rewrite singleBlockLocations_analyzeLocations. simpl.
  assert (increasing 0 (groupByBlock (deferredAllocations function)))
    as Hinc.
  { by apply groupByBlock_increasing, deferredAllocations_nonDecreasing. }
  split; [done|]. by apply (increasing_NoDup 0).
Qed.

Lemma single_block_runs_increase_witness :
  parentsAreBlocks twoBlockFunction
  ∧ (fst <$> groupByBlock (singleBlockLocations
                             (analyzeLocations trackAll twoBlockFunction
                                               emptyLocations))) = [0; 1]
  ∧ NoDup (fst <$> groupByBlock (singleBlockLocations
                                   (analyzeLocations trackAll twoBlockFunction
                                                     emptyLocations))).
Proof.
  assert (parentsAreBlocks twoBlockFunction) as Hparents.
  { intros [|[|b]] BB dyn ASI HBB Hinst; [| |done];
      injection HBB as <-; simpl in Hinst;
      repeat (apply elem_of_cons in Hinst as [Hinst|Hinst];
              [by (try discriminate Hinst); injection Hinst as -> ->|]);
      by apply elem_of_nil in Hinst. }
  split; [exact Hparents|]. split; [vm_compute; reflexivity|].
  apply (single_block_runs_increase trackAll twoBlockFunction Hparents).
Defined.

Lemma findFirstPos_spec p :
  N.testbit (N.pos p) (N.of_nat (findFirstPos p)) = true
  ∧ ∀ j, j < findFirstPos p → N.testbit (N.pos p) (N.of_nat j) = false.
Proof.
  induction p as [p _|p [Hbit Hlow]|]; cbn [findFirstPos].
  - split; [done|]. lia.
  - change (N.pos p~0) with (2 * N.pos p)%N. split.
    + rewrite Nat2N.inj_succ, N.testbit_even_succ by lia. done.
    + intros [|j] Hj.
      * apply N.testbit_even_0.
      * rewrite Nat2N.inj_succ, N.testbit_even_succ by lia. apply Hlow. lia.
  - split; [done|]. lia.
Qed.

(** [find_first] is the index of the first set bit. *)
Lemma find_first_spec bits :
  bits ≠ 0%N →
  ∃ i, find_first bits = Z.of_nat i
       ∧ N.testbit bits (N.of_nat i) = true
       ∧ ∀ j, j < i → N.testbit bits (N.of_nat j) = false.
Proof.
  destruct bits as [|p]; [done|]. intros _.
  exists (findFirstPos p). split; [done|]. apply findFirstPos_spec.
Qed.

Lemma requireBits_namesLocation numLocations wrongBits c w failure :
  subBits wrongBits (N.ones (N.of_nat numLocations)) →
  failure ∈ requireBits wrongBits c w →
  namesLocation numLocations failure.
Proof.
  intros Hsub [Hne ->]%elem_of_requireBits. unfold namesLocation. simpl.
  destruct (find_first_spec wrongBits Hne) as (i & -> & Hbit & _).
  apply Hsub, N.ones_spec_iff in Hbit. lia.
Qed.

Lemma subBits_ldiff a b c : subBits a c → subBits (N.ldiff a b) c.
Proof.
  intros Hsub i. rewrite N.ldiff_spec. intros [Ha _]%andb_true_iff. auto.
Qed.

Lemma subBits_land_r a b c : subBits b c → subBits (N.land a b) c.
Proof.
  intros Hsub i. rewrite N.land_spec. intros [_ Hb]%andb_true_iff. auto.
Qed.

Lemma subBits_lor a b c : subBits a c → subBits b c → subBits (N.lor a b) c.
Proof.
  intros Ha Hb i. rewrite N.lor_spec. intros [?|?]%orb_true_iff; auto.
Qed.

Lemma subBits_lxor a b c : subBits a c → subBits b c → subBits (N.lxor a b) c.
Proof.
  intros Ha Hb i. rewrite N.lxor_spec. specialize (Ha i). specialize (Hb i).
  destruct (N.testbit a i), (N.testbit b i); simpl; auto; discriminate.
Qed.

Section NamesLocation.

Variable function : SILFunction.
Variable L : MemoryLocations.

Hypothesis bounded : subLocationsBounded L.

Let ones := N.ones (N.of_nat (getNumLocations L)).

Lemma getLocation_bounded addr loc :
  getLocation L addr = Some loc → subBits (subLocations loc) ones.
Proof.
  unfold getLocation. destruct (0 <=? getLocationIdx L addr)%Z; [|done].
  apply bounded.
Qed.

Lemma requireBitsSet_namesLocation bits addr w failure :
  failure ∈ requireBitsSet L bits addr w →
  namesLocation (getNumLocations L) failure.
Proof.
  unfold requireBitsSet.
  destruct (getLocation L addr) as [loc|] eqn:Hloc;
    [|by intros ?%elem_of_nil].
  apply requireBits_namesLocation, subBits_ldiff.
  by eapply getLocation_bounded.
Qed.

Lemma requireBitsClear_namesLocation bits addr w failure :
  failure ∈ requireBitsClear L bits addr w →
  namesLocation (getNumLocations L) failure.
Proof.
  unfold requireBitsClear.
  destruct (getLocation L addr) as [loc|] eqn:Hloc;
    [|by intros ?%elem_of_nil].
  apply requireBits_namesLocation, subBits_land_r.
  by eapply getLocation_bounded.
Qed.

Lemma checkFuncArgument_namesLocation bits op convention w failure :
  failure ∈ (checkFuncArgument L bits op convention w).2 →
  namesLocation (getNumLocations L) failure.
Proof.
  destruct convention; simpl;
    eauto using requireBitsSet_namesLocation, requireBitsClear_namesLocation;
    by intros ?%elem_of_nil.
Qed.

Lemma checkFuncArguments_namesLocation allOperands w :
  ∀ bits failures failure,
    failure ∈ (foldl (checkOperand L w) (bits, failures) allOperands).2 →
    failure ∈ failures ∨ namesLocation (getNumLocations L) failure.
Proof.
  induction allOperands as [|op ops IH]; intros bits failures failure;
    cbn [foldl]; [by left|].
  unfold checkOperand at 2.
  destruct (getArgumentConvention op) as [convention|]; [|by apply IH].
  destruct (checkFuncArgument L bits op convention w) as [bits' failures']
    eqn:Harg.
  intros [Hin|?]%IH; [|by right].
  apply elem_of_app in Hin as [?|Hin]; [by left|right].
  apply (checkFuncArgument_namesLocation bits op convention w).
  by rewrite Harg.
Qed.

Lemma checkInstruction_namesLocation bits inst w failure :
  failure ∈ (checkInstruction L bits inst w).2 →
  namesLocation (getNumLocations L) failure.
Proof.
  destruct inst as [q ?|q ?|? ? ? isInit| |orig|ops|ops ? ?|ops ? ?| | | | | | |];
    simpl;
    eauto using requireBitsSet_namesLocation, requireBitsClear_namesLocation;
    try (by intros ?%elem_of_nil).
  - destruct q; simpl;
      eauto using requireBitsSet_namesLocation,
        requireBitsClear_namesLocation;
      by intros ?%elem_of_nil.
  - destruct isInit; simpl; intros [?|?]%elem_of_app;
      eauto using requireBitsSet_namesLocation,
        requireBitsClear_namesLocation.
  - destruct orig; simpl; eauto using requireBitsSet_namesLocation;
      by intros ?%elem_of_nil.
  - intros [?%elem_of_nil|?]%checkFuncArguments_namesLocation; done.
  - intros [?%elem_of_nil|?]%checkFuncArguments_namesLocation; done.
  - intros [?%elem_of_nil|?]%checkFuncArguments_namesLocation; done.
Qed.

Lemma checkInstructions_namesLocation block insts :
  ∀ pos bits failure,
    failure ∈ (checkInstructions L block pos insts bits).2 →
    namesLocation (getNumLocations L) failure.
Proof.
  induction insts as [|inst insts IH]; intros pos bits failure; simpl;
    [by intros ?%elem_of_nil|].
  destruct (checkInstruction L bits inst (block, pos)) as [bits1 failures1]
    eqn:Hinst.
  destruct (checkInstructions L block (S pos) insts bits1)
    as [bits2 failures2] eqn:Hrest. simpl.
  intros [Hin|Hin]%elem_of_app.
  - apply (checkInstruction_namesLocation bits inst (block, pos)).
    by rewrite Hinst.
  - apply (IH (S pos) bits1). by rewrite Hrest.
Qed.

Lemma checkBlock_namesLocation block bits failure :
  failure ∈ (checkBlock function L block bits).2 →
  namesLocation (getNumLocations L) failure.
Proof. apply checkInstructions_namesLocation. Qed.

End NamesLocation.

Section SetsBounded.

Variable function : SILFunction.
Variable L : MemoryLocations.

Hypothesis bounded : subLocationsBounded L.

Let ones := N.ones (N.of_nat (getNumLocations L)).

Lemma setBits_bounded bits addr :
  subBits bits ones → subBits (setBits L bits addr) ones.
Proof.
  intros Hsub. unfold setBits.
  destruct (getLocation L addr) as [loc|] eqn:Hloc; [|done].
  apply subBits_lor; [done|]. by eapply getLocation_bounded.
Qed.

Lemma argumentBits_bounded (step : Bits → SILFunctionArgument → Bits) args :
  (∀ bits funcArg,
     subBits bits ones → subBits (step bits funcArg) ones) →
  ∀ bits, subBits bits ones → subBits (foldl step bits args) ones.
Proof.
  intros Hstep. induction args as [|arg args IH]; intros bits Hsub;
    cbn [foldl]; [done|].
  apply IH. by apply Hstep.
Qed.

Lemma entryBits_bounded : subBits (entryBits function L) ones.
Proof.
  unfold entryBits. apply argumentBits_bounded.
  - intros bits funcArg Hsub.
    destruct (isNotIndirectOut funcArg); [by apply setBits_bounded|done].
  - intros i. by rewrite N.bits_0.
Qed.

Lemma expectedReturnBits_bounded :
  subBits (expectedReturnBits function L) ones.
Proof.
  unfold expectedReturnBits. apply argumentBits_bounded.
  - intros bits funcArg Hsub.
    destruct (getArgumentConventionOfArg funcArg); try done;
      by apply setBits_bounded.
  - intros i. by rewrite N.bits_0.
Qed.

Lemma expectedThrowBits_bounded :
  subBits (expectedThrowBits function L) ones.
Proof.
  unfold expectedThrowBits. apply argumentBits_bounded.
  - intros bits funcArg Hsub.
    destruct (getArgumentConventionOfArg funcArg); try done;
      by apply setBits_bounded.
  - intros i. by rewrite N.bits_0.
Qed.

Lemma genBits_bounded st addr :
  subBits (genSet st) ones → subBits (genSet (genBits st addr L)) ones.
Proof.
  intros Hsub. unfold genBits.
  destruct (getLocation L addr) as [loc|] eqn:Hloc; [|done]. simpl.
  apply subBits_lor; [done|]. by eapply getLocation_bounded.
Qed.

Lemma killBits_bounded st addr :
  subBits (genSet st) ones → subBits (genSet (killBits st addr L)) ones.
Proof.
  intros Hsub. unfold killBits.
  destruct (getLocation L addr) as [loc|]; [|done]. simpl.
  by apply subBits_ldiff.
Qed.

Lemma setFuncOperandsBits_bounded allOperands isTryApply :
  ∀ st, subBits (genSet st) ones →
        subBits (genSet (setFuncOperandsBits L st allOperands isTryApply))
                ones.
Proof.
  unfold setFuncOperandsBits.
  induction allOperands as [|op ops IH]; intros st Hsub; cbn [foldl];
    [done|].
  apply IH. unfold setOperandBits.
  destruct (getArgumentConvention op) as [convention|]; [|done].
  destruct convention; simpl;
    auto using genBits_bounded, killBits_bounded.
  destruct isTryApply; simpl; auto using genBits_bounded.
Qed.

Lemma initDataflowInInstruction_bounded st inst :
  subBits (genSet st) ones →
  subBits (genSet (initDataflowInInstruction L st inst)) ones.
Proof.
  intros Hsub.
  destruct inst as [q ?|q ?|? ? isTake isInit| |orig|ops|ops ? ?|ops ? ?| | | | | | |];
    simpl;
    auto using genBits_bounded, killBits_bounded,
      setFuncOperandsBits_bounded.
  - destruct q; auto using killBits_bounded.
  - destruct isTake, isInit;
      auto using genBits_bounded, killBits_bounded.
Qed.

Lemma initDataflowInBlock_bounded block st :
  subBits (genSet st) ones →
  subBits (genSet (initDataflowInBlock function L block st)) ones.
Proof.
  intros Hsub. unfold initDataflowInBlock.
  assert (subBits (genSet (setGenSet (setBitsOfPredecessor function L
                                        (genSet st) block) st)) ones)
    as Hstart.
  { simpl. intros i. unfold setBitsOfPredecessor.
    repeat case_match; try apply Hsub.
    intros [?|(op & loc & _ & _ & Hloc & Hbit)]%testbit_setBitsOfOutOperands;
      [by apply Hsub|].
    by eapply getLocation_bounded. }
  revert Hstart. generalize (setGenSet (setBitsOfPredecessor function L
                                          (genSet st) block) st) as st1.
  generalize (instructionsOf function block) as insts.
  induction insts as [|inst insts IH]; intros st1 Hst1; cbn [foldl];
    [done|].
  apply IH. by apply initDataflowInInstruction_bounded.
Qed.

Lemma initDataflow_setsBounded dataFlow :
  clearSummaries dataFlow →
  setsBounded (getNumLocations L) (initDataflow function L dataFlow).
Proof.
  intros Hclear b st Hb. unfold initDataflow in Hb.
  rewrite list_lookup_imap in Hb.
  destruct (dataFlow !! b) as [st0|] eqn:Hst0; [|done].
  destruct (Hclear b st0 Hst0) as [Hgen _].
  cbn [fmap option_fmap option_map] in Hb. injection Hb as <-.
  set (st1 := if decide (b = 0)
              then setEntrySet (entryBits function L) st0
              else setEntrySet ones st0).
  set (st2 := setExitSet ones st1).
  assert (subBits (entrySet st2) ones ∧ subBits (exitSet st2) ones
          ∧ subBits (genSet st2) ones) as (Hentry & Hexit & Hgen').
  { subst st2 st1. destruct (decide (b = 0)); simpl; rewrite Hgen;
      (split; [|split; [apply subBits_refl|intros i; by rewrite N.bits_0]]);
      [apply entryBits_bounded; exact bounded|apply subBits_refl]. }
  change (let st := if reachableFromEntry st2
                    then initDataflowInBlock function L b st2 else st2 in
          subBits (entrySet st) ones ∧ subBits (exitSet st) ones
          ∧ subBits (genSet st) ones).
  destruct (reachableFromEntry st2); [|done]. cbn zeta.
  destruct (initDataflowInBlock_sameEntryExit function L b st2)
    as (-> & -> & _).
  split; [done|]. split; [done|]. by apply initDataflowInBlock_bounded.
Qed.

End SetsBounded.

Lemma solveBlockForward_setsBounded function numBits firstRound changed
    states idx changed' states' :
  setsBounded numBits states →
  solveBlockForward function firstRound (changed, states) idx
  = (changed', states') →
  setsBounded numBits states'.
Proof.
  intros Hinv Hstep.
  apply solveBlockForward_shape in Hstep
    as [[-> _]|(st & Hst & _ & ->)]; [done|].
  intros b st' Hb. destruct (decide (b = idx)) as [->|Hne].
  - rewrite list_lookup_insert_eq in Hb by (by eapply lookup_lt_Some).
    injection Hb as <-.
    destruct (Hinv idx st Hst) as (Hentry & Hexit & Hgen).
    assert (subBits (intersectExitSets states (entrySet st)
                       (getPredecessorBlocks function idx))
                    (N.ones (N.of_nat numBits))) as Hbits.
    { eapply subBits_trans; [apply subBits_intersectExitSets|done]. }
    unfold updateBlock, transfer. simpl.
    split; [done|]. split; [|done].
    by apply subBits_ldiff, subBits_lor.
  - rewrite list_lookup_insert_ne in Hb by done. by apply (Hinv b).
Qed.

Lemma solveRoundForward_setsBounded function numBits firstRound states
    changed' states' :
  setsBounded numBits states →
  solveRoundForward function firstRound states = (changed', states') →
  setsBounded numBits states'.
Proof.
  unfold solveRoundForward. generalize (seq 0 (length states)) as order.
  generalize false as changed. intros changed order. revert changed states.
  induction order as [|idx order IH]; intros changed states Hinv;
    cbn [foldl].
  - by intros [= <- <-].
  - destruct (solveBlockForward function firstRound (changed, states) idx)
      as [changed1 states1] eqn:Hstep.
    apply IH. by eapply solveBlockForward_setsBounded.
Qed.

Lemma solveDataflowForward_setsBounded function numBits states states' :
  setsBounded numBits states →
  solveDataflowForward function states = Some states' →
  setsBounded numBits states'.
Proof.
  intros Hinv Hsolve.
  destruct (solveDataflowForwardLoop_result function
              (fun _ s => setsBounded numBits s))
    with (fuel := 2 + sumEntryBits states) (firstRound := true)
         (states := states) (states' := states') as [Hfinal _]; try done.
  intros fr s c s' Hs Hround. by eapply solveRoundForward_setsBounded.
Qed.

Lemma checkFunction_namesLocation function L dataFlow failure :
  subLocationsBounded L →
  setsBounded (getNumLocations L) dataFlow →
  failure ∈ checkFunction function L dataFlow →
  namesLocation (getNumLocations L) failure.
Proof.
  intros Hbounded Hsets
    (block & st & Hst & _ & [Hin|[Hin|Hin]])%elem_of_checkFunction.
  - by eapply checkBlock_namesLocation.
  - destruct (Hsets block st Hst) as (Hentry & _ & _).
    unfold checkPredecessors in Hin.
    apply elem_of_flat_map in Hin as (pred & Hpred & Hin).
    unfold checkPredecessor in Hin.
    destruct (dataFlow !! pred) as [predState|] eqn:Hps;
      [|by apply elem_of_nil in Hin].
    destruct (reachableFromEntry predState); [|by apply elem_of_nil in Hin].
    destruct (Hsets pred predState Hps) as (_ & Hexit & _).
    eapply requireBits_namesLocation; [|exact Hin].
    by apply subBits_lxor.
  - destruct (Hsets block st Hst) as (_ & Hexit & _).
    unfold checkFunctionExit in Hin.
    destruct (last (instructionsOf function block)) as [[]|];
      try (by apply elem_of_nil in Hin);
      apply elem_of_app in Hin as [Hin|Hin];
      (eapply requireBits_namesLocation; [|exact Hin]);
      apply subBits_ldiff;
      auto using expectedReturnBits_bounded, expectedThrowBits_bounded.
Qed.

Lemma subLocationsInv_bounded L :
  subLocationsInv (locations L) → subLocationsBounded L.
Proof.
  intros [_ Hinv] p loc Hp i Hbit.
  destruct (Hinv p loc i Hp Hbit) as (j & -> & Hj & _).
  apply N.ones_spec_low. unfold getNumLocations. lia.
Qed.

Lemma analyzeGroup_subLocationsInv shouldTrackLocation L g :
  subLocationsInv (locations (analyzeGroup shouldTrackLocation L g)).
Proof.
  unfold analyzeGroup.
  assert (subLocationsInv (locations (clear L))) as H0
    by apply subLocationsInv_nil.
  revert H0. generalize (clear L) as L0.
  induction g as [|SVI g IH]; intros L0 H0; cbn [foldl]; [done|].
  apply IH.
  apply (analyzeLocation_table shouldTrackLocation subLocationsInv);
    try done.
  - by intros locs [Hpf _].
  - apply subLocationsInv_root.
  - apply registerSubLocation_subLocationsInv.
Qed.


Section Greatest.

Variable function : SILFunction.
Variable X : BlockId → Bits.
Variable states0 : list BlockState.

Hypothesis consistent : flowConsistent function X states0.

Lemma solveBlockForward_below firstRound changed states idx changed'
    states' :
  length states = length states0 →
  belowStates X states0 states →
  solveBlockForward function firstRound (changed, states) idx
  = (changed', states') →
  belowStates X states0 states'.
Proof.
  intros Hlen Hinv Hstep.
  apply solveBlockForward_shape in Hstep
    as [[-> _]|(st & Hst & _ & ->)]; [done|].
  intros b st' Hb. destruct (decide (b = idx)) as [->|Hne].
  - rewrite list_lookup_insert_eq in Hb by (by eapply lookup_lt_Some).
    injection Hb as <-.
    destruct (Hinv idx st Hst) as (Hframe & Hentry & Hexit).
    set (bits := intersectExitSets states (entrySet st)
                   (getPredecessorBlocks function idx)).
    assert (subBits (X idx) bits) as Hbits.
    { intros i Hi. apply testbit_intersectExitSets. split; [by apply Hentry|].
      intros p ps Hp Hps.
      destruct (Hinv p ps Hps) as ((ps0 & Hps0 & Hgen & Hkill) & _ & Hexitp).
      apply Hexitp.
      assert (transfer ps (X p) = transfer ps0 (X p)) as ->
        by (unfold transfer; by rewrite Hgen, Hkill).
      apply (consistent idx p ps0); try done.
      rewrite <- Hlen. by eapply lookup_lt_Some. }
    split; [done|]. split; [done|].
    rewrite transfer_updateBlock, exitSet_updateBlock.
    by apply transfer_mono.
  - rewrite list_lookup_insert_ne in Hb by done. by apply (Hinv b).
Qed.

Lemma solveRoundForward_below firstRound states changed' states' :
  length states = length states0 →
  belowStates X states0 states →
  solveRoundForward function firstRound states = (changed', states') →
  length states' = length states0 ∧ belowStates X states0 states'.
Proof.
  unfold solveRoundForward. generalize (seq 0 (length states)) as order.
  generalize false as changed. intros changed order. revert changed states.
  induction order as [|idx order IH]; intros changed states Hlen Hinv;
    cbn [foldl].
  - by intros [= <- <-].
  - destruct (solveBlockForward function firstRound (changed, states) idx)
      as [changed1 states1] eqn:Hstep.
    apply IH; [|by eapply solveBlockForward_below].
    apply solveBlockForward_measure in Hstep as [Hlen1 _]. congruence.
Qed.

End Greatest.

(** [solveDataflowForward] computes the greatest solution below the
    states it starts from: an assignment of bits to the blocks which is
    consistent with the flow (the bits of a block are in the transfer of
    the bits of each predecessor) and which lies below the initial sets
    lies below the solved entry sets.  With all-ones initial sets, as
    [initDataflow] seeds them, no bit is cleared which a solution of the
    flow equations has. *)
Theorem solveDataflowForward_greatest function X states states' :
  solveDataflowForward function states = Some states' →
  flowConsistent function X states →
  belowStates X states states →
  ∀ b st', states' !! b = Some st' →
           subBits (X b) (entrySet st')
           ∧ subBits (transfer st' (X b)) (exitSet st').
Proof.
  intros Hsolve Hconsistent Hbelow.
  destruct (solveDataflowForwardLoop_result function
              (fun _ s => length s = length states
                          ∧ belowStates X states s))
    with (fuel := 2 + sumEntryBits states) (firstRound := true)
         (states := states) (states' := states') as [[_ Hfinal] _];
    try done.
  - intros fr s c s' [Hlen Hs] Hround.
    by eapply solveRoundForward_below.
  - intros b st' Hb. by destruct (Hfinal b st' Hb) as (_ & ? & ?).
Qed.

(** On [branchFunction] with the seeded states, the assignment of bit 0
    to both blocks is consistent with the flow, and bit 0 is in both
    solved entry sets. *)
Lemma solveDataflowForward_greatest_witness :
  ∃ states' st0 st1,
    solveDataflowForward branchFunction seededStates = Some states'
    ∧ states' !! 0 = Some st0 ∧ states' !! 1 = Some st1
    ∧ subBits 1%N (entrySet st0) ∧ subBits 1%N (entrySet st1).
Proof.
  pose (states' := default [] (solveDataflowForward branchFunction
                                 seededStates)).
  pose (st0 := default clearedState (states' !! 0)).
  pose (st1 := default clearedState (states' !! 1)).
  vm_compute in states', st0, st1.
  assert (solveDataflowForward branchFunction seededStates = Some states')
    as Hsolve by (vm_compute; reflexivity).
  assert (flowConsistent branchFunction (fun _ => 1%N) seededStates)
    as Hconsistent.
  { intros [|[|b]] p ps Hb Hp; [by apply elem_of_nil in Hp| |simpl in Hb; lia].
    vm_compute in Hp. apply list_elem_of_singleton in Hp as ->.
    intros [= <-]. apply subBits_refl. }
  assert (belowStates (fun _ => 1%N) seededStates seededStates) as Hbelow.
  { intros [|[|b]] st; [| |done]; intros [= <-];
      (split; [eexists; by split|]); split; try apply subBits_refl.
    intros i. vm_compute (transfer _ _). by rewrite N.bits_0. }
  exists states', st0, st1. split; [exact Hsolve|].
  split; [reflexivity|]. split; [reflexivity|]. split.
  - apply (solveDataflowForward_greatest branchFunction (fun _ => 1%N)
             seededStates states' Hsolve Hconsistent Hbelow 0 st0 eq_refl).
  - apply (solveDataflowForward_greatest branchFunction (fun _ => 1%N)
             seededStates states' Hsolve Hconsistent Hbelow 1 st1 eq_refl).
Defined.

Lemma testbit_intersectEntrySets states succs bits i :
  N.testbit (intersectEntrySets states bits succs) i = true ↔
  N.testbit bits i = true
  ∧ ∀ p ps, p ∈ succs → states !! p = Some ps →
            N.testbit (entrySet ps) i = true.
Proof.
  revert bits. induction succs as [|p succs IH]; intros bits; simpl.
  - split; [intros H; split; [done|] | by intros [H _]].
    intros p ps Hp. by apply elem_of_nil in Hp.
  - rewrite IH. destruct (states !! p) as [succState|] eqn:Hp.
    + rewrite N.land_spec, andb_true_iff. split.
      * intros [[Hb He] Hall]. split; [done|].
        intros p' ps' [->|Hin]%elem_of_cons Hl; [congruence|eauto].
      * intros [Hb Hall]. split; [split; [done|]|].
        -- eapply Hall; [left|done].
        -- intros p' ps' Hin Hl. eapply Hall; [by right|done].
    + split.
      * intros [Hb Hall]. split; [done|].
        intros p' ps' [->|Hin]%elem_of_cons Hl; [congruence|eauto].
      * intros [Hb Hall]. split; [done|].
        intros p' ps' Hin Hl. eapply Hall; [by right|done].
Qed.

Lemma intersectEntrySets_land states succs bits :
  N.land (intersectEntrySets states bits succs) bits = intersectEntrySets states bits succs.
Proof.
  apply subBits_land. intros i Hi. by apply testbit_intersectEntrySets in Hi as [? _].
Qed.

(** The ways in which the body of the loop treats a block. *)
Lemma solveBlockBackward_None function firstRound changed states idx :
  states !! idx = None →
  solveBlockBackward function firstRound (changed, states) idx
  = (changed, states).
Proof. intros H. unfold solveBlockBackward. by rewrite H. Qed.

Lemma solveBlockBackward_Some function firstRound changed states idx st :
  states !! idx = Some st →
  (firstRound = false
   ∧ intersectEntrySets states (exitSet st) (successorsOf function idx)
     = exitSet st
   ∧ solveBlockBackward function firstRound (changed, states) idx
     = (changed, states))
  ∨ ((firstRound = true
      ∨ intersectEntrySets states (exitSet st) (successorsOf function idx)
        ≠ exitSet st)
     ∧ solveBlockBackward function firstRound (changed, states) idx
       = (true,
          <[idx := updateBlockBackward st
                     (intersectEntrySets states (exitSet st)
                           (successorsOf function idx))]> states)).
Proof.
  intros Hst. unfold solveBlockBackward. rewrite Hst.
  fold (intersectEntrySets states (exitSet st) (successorsOf function idx)).
  set (bits := intersectEntrySets _ _ _).
  destruct firstRound; simpl.
  - right. split; [by left|done].
  - destruct (N.eqb_spec bits (exitSet st)) as [E|NE]; simpl.
    + left. done.
    + right. split; [by right|done].
Qed.

Lemma sumExitBits_insert states idx st st' :
  states !! idx = Some st →
  sumExitBits (<[idx := st']> states) + popcount (exitSet st)
  = sumExitBits states + popcount (exitSet st').
Proof.
  revert idx. induction states as [|x states IH]; intros [|idx] H; simpl in *;
    try done.
  - injection H as ->. lia.
  - specialize (IH idx H). lia.
Qed.

Lemma exitSet_updateBlockBackward st bits : exitSet (updateBlockBackward st bits) = bits.
Proof. done. Qed.

(** One step of a round does not enlarge the exit sets, and it clears at
    least one bit when it reports a change after the first round. *)
Lemma solveBlockBackward_measure function firstRound changed states idx
    changed' states' :
  solveBlockBackward function firstRound (changed, states) idx
  = (changed', states') →
  length states' = length states
  ∧ sumExitBits states' ≤ sumExitBits states
  ∧ (changed = true → changed' = true)
  ∧ (changed' = false → states' = states)
  ∧ (firstRound = false → changed' = true →
     changed = true ∨ sumExitBits states' < sumExitBits states).
Proof.
  intros Hstep.
  destruct (states !! idx) as [st|] eqn:Hst.
  - destruct (solveBlockBackward_Some function firstRound changed states idx
                st Hst) as [(Hfr & Hbits & Heq)|(Hwhy & Heq)];
      rewrite Heq in Hstep; injection Hstep as <- <-.
    + repeat split; auto.
    + set (bits := intersectEntrySets states (exitSet st)
                        (successorsOf function idx)) in *.
      pose proof (sumExitBits_insert states idx st (updateBlockBackward st bits) Hst)
        as Hsum.
      rewrite exitSet_updateBlockBackward in Hsum.
      assert (N.land (exitSet st) bits = bits) as Hland.
      { rewrite N.land_comm. apply intersectEntrySets_land. }
      pose proof (popcount_land_le (exitSet st) bits) as Hle.
      rewrite Hland in Hle. clearbody bits.
      repeat split; auto.
      * by rewrite length_insert.
      * lia.
      * done.
      * intros Hfr _. right. destruct Hwhy as [?|Hne]; [congruence|].
        pose proof (popcount_land_lt (exitSet st) bits) as Hlt.
        rewrite Hland in Hlt. specialize (Hlt Hne). lia.
  - rewrite (solveBlockBackward_None _ _ _ _ _ Hst) in Hstep.
    injection Hstep as <- <-. repeat split; auto.
Qed.

Lemma solveRoundBackward_fold_measure function firstRound order :
  ∀ changed states changed' states',
    foldl (solveBlockBackward function firstRound) (changed, states) order
    = (changed', states') →
    length states' = length states
    ∧ sumExitBits states' ≤ sumExitBits states
    ∧ (changed = true → changed' = true)
    ∧ (changed' = false → states' = states)
    ∧ (firstRound = false → changed' = true →
       changed = true ∨ sumExitBits states' < sumExitBits states).
Proof.
  induction order as [|idx order IH]; intros changed states changed' states';
    cbn [foldl].
  - intros [= <- <-]. repeat split; auto.
  - destruct (solveBlockBackward function firstRound (changed, states) idx)
      as [changed1 states1] eqn:Hstep.
    intros Hfold. apply IH in Hfold as (Hlen & Hle & Hmono & Hsame & Hlt).
    apply solveBlockBackward_measure in Hstep
      as (Hlen1 & Hle1 & Hmono1 & Hsame1 & Hlt1).
    repeat split.
    + lia.
    + lia.
    + auto.
    + intros Hc. specialize (Hsame Hc). subst states'.
      destruct changed1; [by specialize (Hmono eq_refl); congruence|].
      auto.
    + intros Hfr Hc. destruct (Hlt Hfr Hc) as [Hc1|Hdec].
      * destruct (Hlt1 Hfr Hc1) as [?|?]; [by left|right; lia].
      * right. lia.
Qed.

Lemma solveRoundBackward_measure function firstRound states changed' states' :
  solveRoundBackward function firstRound states = (changed', states') →
  length states' = length states
  ∧ sumExitBits states' ≤ sumExitBits states
  ∧ (changed' = false → states' = states)
  ∧ (firstRound = false → changed' = true →
     sumExitBits states' < sumExitBits states).
Proof.
  intros H. apply solveRoundBackward_fold_measure in H
    as (Hlen & Hle & _ & Hsame & Hlt).
  repeat split; auto.
  intros Hfr Hc. destruct (Hlt Hfr Hc) as [?|?]; [done|lia].
Qed.

(** Enough rounds: the loop returns. *)
Lemma solveDataflowBackwardLoop_terminates function fuel :
  ∀ (firstRound : bool) states,
    sumExitBits states + (if firstRound then 2 else 1) ≤ fuel →
    ∃ states', solveDataflowBackwardLoop function fuel firstRound states
               = Some states'.
Proof.
  induction fuel as [|fuel IH]; intros firstRound states Hfuel.
  - destruct firstRound; lia.
  - simpl.
    destruct (solveRoundBackward function firstRound states)
      as [changed states1] eqn:Hround.
    apply solveRoundBackward_measure in Hround as (Hlen & Hle & Hsame & Hlt).
    destruct changed; [|eauto].
    apply IH. destruct firstRound; [lia|].
    specialize (Hlt eq_refl eq_refl). lia.
Qed.

Lemma solveBlockBackward_shape function firstRound changed states idx
    changed' states' :
  solveBlockBackward function firstRound (changed, states) idx
  = (changed', states') →
  (states' = states
   ∧ (states !! idx = None
      ∨ firstRound = false
        ∧ ∃ st, states !! idx = Some st
                ∧ intersectEntrySets states (exitSet st)
                       (successorsOf function idx) = exitSet st))
  ∨ (∃ st, states !! idx = Some st ∧ changed' = true
           ∧ states' =
             <[idx := updateBlockBackward st
                        (intersectEntrySets states (exitSet st)
                              (successorsOf function idx))]> states).
Proof.
  intros Hstep. destruct (states !! idx) as [st|] eqn:Hst.
  - destruct (solveBlockBackward_Some function firstRound changed states idx
                st Hst) as [(Hfr & Hbits & Heq)|(Hwhy & Heq)];
      rewrite Heq in Hstep; injection Hstep as <- <-.
    + left. split; [done|]. right. eauto.
    + right. eauto.
  - rewrite (solveBlockBackward_None _ _ _ _ _ Hst) in Hstep.
    injection Hstep as <- <-. left. auto.
Qed.


(** After the blocks of [order] have been treated, the entry set of a block
    is the transfer of its exit set if it was so before, or if the block
    was treated in the first round. *)
Lemma solveRoundBackward_fold_entryEq function firstRound order :
  ∀ changed states changed' states',
    foldl (solveBlockBackward function firstRound) (changed, states) order
    = (changed', states') →
    ∀ i st', states' !! i = Some st' →
      (firstRound = true ∧ i ∈ order)
      ∨ (∃ st, states !! i = Some st ∧ entryEq st) →
      entryEq st'.
Proof.
  induction order as [|idx order IH]; intros changed states changed' states';
    cbn [foldl].
  - intros [= <- <-] i st' Hi [[_ Hin]|(st & Hst & He)].
    + by apply elem_of_nil in Hin.
    + congruence.
  - destruct (solveBlockBackward function firstRound (changed, states) idx)
      as [changed1 states1] eqn:Hstep.
    intros Hfold i st' Hi Hwhy.
    eapply IH; [exact Hfold|exact Hi|].
    apply solveRoundBackward_fold_measure in Hfold as (Hlen & _).
    assert (is_Some (states1 !! i)) as [st1 Hst1].
    { apply lookup_lt_is_Some. rewrite <- Hlen. by eapply lookup_lt_Some. }
    apply solveBlockBackward_shape in Hstep
      as [[-> Hsame]|(st & Hst & _ & ->)].
    + destruct Hwhy as [[Hfr [->|Hin]%elem_of_cons]|Hold]; [|by left|by right].
      destruct Hsame as [Hnone|[Hfalse _]]; congruence.
    + destruct (decide (i = idx)) as [->|Hne].
      * right. exists st1. split; [done|].
        rewrite list_lookup_insert_eq in Hst1 by (by eapply lookup_lt_Some).
        by injection Hst1 as <-.
      * rewrite list_lookup_insert_ne in Hst1 by done.
        destruct Hwhy as [[Hfr [->|Hin]%elem_of_cons]|(st2 & Hst2 & He)];
          [done|by left|].
        right. exists st1. split; [by rewrite list_lookup_insert_ne|].
        congruence.
Qed.

Lemma solveRoundBackward_entryEq function firstRound states changed' states' :
  solveRoundBackward function firstRound states = (changed', states') →
  (firstRound = false → ∀ i st, states !! i = Some st → entryEq st) →
  ∀ i st', states' !! i = Some st' → entryEq st'.
Proof.
  intros Hround Hold i st' Hi.
  pose proof Hround as (Hlen & _)%solveRoundBackward_measure.
  eapply solveRoundBackward_fold_entryEq; [exact Hround|exact Hi|].
  assert (i < length states) as Hlt.
  { rewrite <- Hlen. by eapply lookup_lt_Some. }
  destruct firstRound.
  - left. split; [done|]. apply elem_of_reverse, elem_of_seq. lia.
  - right. destruct (lookup_lt_is_Some_2 states i Hlt) as [st Hst]. eauto.
Qed.

(** A round which reports no change has found, for every block, that the
    intersection over the successors is the exit set. *)
Lemma solveRoundBackward_fold_unchanged function order :
  ∀ states changed' states',
    foldl (solveBlockBackward function false) (false, states) order
    = (changed', states') →
    changed' = false →
    ∀ idx st, idx ∈ order → states !! idx = Some st →
      intersectEntrySets states (exitSet st) (successorsOf function idx)
      = exitSet st.
Proof.
  induction order as [|idx order IH]; intros states changed' states';
    cbn [foldl].
  - intros _ _ i st Hin. by apply elem_of_nil in Hin.
  - destruct (solveBlockBackward function false (false, states) idx)
      as [changed1 states1] eqn:Hstep.
    intros Hfold -> i st Hin Hst.
    pose proof Hfold as (_ & _ & Hmono & _)%solveRoundBackward_fold_measure.
    destruct changed1; [by specialize (Hmono eq_refl)|].
    apply solveBlockBackward_shape in Hstep
      as [[-> Hsame]|(st1 & Hst1 & ? & _)]; [|done].
    apply elem_of_cons in Hin as [->|Hin].
    + destruct Hsame as [?|[_ (st2 & Hst2 & Hmeet)]]; congruence.
    + by eapply IH.
Qed.

Lemma solveRoundBackward_fold_first function order :
  ∀ changed states changed' states',
    foldl (solveBlockBackward function true) (changed, states) order
    = (changed', states') →
    changed' = false →
    ∀ idx, idx ∈ order → states !! idx = None.
Proof.
  induction order as [|idx order IH]; intros changed states changed' states';
    cbn [foldl].
  - intros _ _ i Hin. by apply elem_of_nil in Hin.
  - destruct (solveBlockBackward function true (changed, states) idx)
      as [changed1 states1] eqn:Hstep.
    intros Hfold -> i Hin.
    pose proof Hfold as (_ & _ & Hmono & _)%solveRoundBackward_fold_measure.
    destruct changed1; [by specialize (Hmono eq_refl)|].
    destruct (states !! idx) as [st|] eqn:Hst.
    + destruct (solveBlockBackward_Some function true changed states idx st
                  Hst) as [(Hfr & _)|(_ & Heq)]; [done|].
      rewrite Heq in Hstep. by injection Hstep.
    + rewrite (solveBlockBackward_None _ _ _ _ _ Hst) in Hstep.
      injection Hstep as _ <-.
      apply elem_of_cons in Hin as [->|Hin]; [done|].
      by eapply IH.
Qed.

Lemma solveRoundBackward_first_changed function states changed' states' :
  solveRoundBackward function true states = (changed', states') →
  changed' = false → states = [].
Proof.
  intros Hround Hc. destruct states as [|st states]; [done|].
  assert ((st :: states) !! 0 = None) as Hnone; [|done].
  eapply solveRoundBackward_fold_first; [exact Hround|exact Hc|].
  apply elem_of_reverse, elem_of_seq. simpl. lia.
Qed.

(** What holds when the loop returns: an invariant of the rounds, and the
    result is a fixed point of a round. *)
Lemma solveDataflowBackwardLoop_result function
    (Inv : bool → list BlockState → Prop) :
  (∀ firstRound states changed' states',
     Inv firstRound states →
     solveRoundBackward function firstRound states = (changed', states') →
     Inv false states') →
  ∀ fuel firstRound states states',
    Inv firstRound states →
    solveDataflowBackwardLoop function fuel firstRound states = Some states' →
    Inv false states'
    ∧ solveRoundBackward function false states' = (false, states').
Proof.
  intros Hround. induction fuel as [|fuel IH];
    intros firstRound states states' Hinv; [done|]. simpl.
  destruct (solveRoundBackward function firstRound states)
    as [changed states1] eqn:Hstep.
  pose proof (Hround _ _ _ _ Hinv Hstep) as Hinv1.
  destruct changed; [by apply IH|].
  intros [= <-]. split; [done|].
  pose proof Hstep as (_ & _ & Hsame & _)%solveRoundBackward_measure.
  specialize (Hsame eq_refl). subst states1.
  destruct firstRound; [|done].
  by rewrite (solveRoundBackward_first_changed _ _ _ _ Hstep eq_refl).
Qed.

Lemma solveRoundBackward_unchanged function states :
  solveRoundBackward function false states = (false, states) →
  ∀ idx st, states !! idx = Some st →
    intersectEntrySets states (exitSet st) (successorsOf function idx)
    = exitSet st.
Proof.
  intros Hround idx st Hst.
  eapply solveRoundBackward_fold_unchanged; [exact Hround|done| |done].
  apply elem_of_reverse, elem_of_seq. apply lookup_lt_Some in Hst. lia.
Qed.

Lemma subBits_intersectEntrySets states bits succs :
  subBits (intersectEntrySets states bits succs) bits.
Proof. intros i Hi. by apply testbit_intersectEntrySets in Hi as [? _]. Qed.

Lemma exitShrunk_refl st : exitShrunk st st.
Proof. split; [apply subBits_refl|done]. Qed.

Lemma exitShrunk_trans st1 st2 st3 :
  exitShrunk st1 st2 → exitShrunk st2 st3 → exitShrunk st1 st3.
Proof.
  intros (Hsub1 & ? & ? & ? & ?) (Hsub2 & ? & ? & ? & ?).
  split; [by eapply subBits_trans|]. repeat split; congruence.
Qed.

(** A step of a round only shrinks the exit set of a block, and it keeps
    the gen and kill sets and the marks. *)
Lemma solveBlockBackward_shrink function firstRound changed states idx
    changed' states' :
  solveBlockBackward function firstRound (changed, states) idx
  = (changed', states') →
  ∀ b st', states' !! b = Some st' →
    ∃ st, states !! b = Some st ∧ exitShrunk st st'.
Proof.
  intros Hstep b st' Hb.
  apply solveBlockBackward_shape in Hstep
    as [[-> _]|(st & Hst & _ & ->)].
  - exists st'. split; [done|apply exitShrunk_refl].
  - destruct (decide (b = idx)) as [->|Hne].
    + rewrite list_lookup_insert_eq in Hb by (by eapply lookup_lt_Some).
      injection Hb as <-. exists st. split; [done|].
      split; [apply subBits_intersectEntrySets|done].
    + rewrite list_lookup_insert_ne in Hb by done.
      exists st'. split; [done|apply exitShrunk_refl].
Qed.

Lemma solveRoundBackward_shrink function firstRound states changed' states' :
  solveRoundBackward function firstRound states = (changed', states') →
  ∀ b st', states' !! b = Some st' →
    ∃ st, states !! b = Some st ∧ exitShrunk st st'.
Proof.
  unfold solveRoundBackward.
  generalize (reverse (seq 0 (length states))) as order.
  generalize false as changed. intros changed order. revert changed states.
  induction order as [|idx order IH]; intros changed states; cbn [foldl].
  - intros [= <- <-] b st' Hb. exists st'. split; [done|apply exitShrunk_refl].
  - destruct (solveBlockBackward function firstRound (changed, states) idx)
      as [changed1 states1] eqn:Hstep.
    intros Hfold b st' Hb.
    destruct (IH _ _ Hfold b st' Hb) as (st1 & Hst1 & Hsub1).
    destruct (solveBlockBackward_shrink _ _ _ _ _ _ _ Hstep b st1 Hst1)
      as (st & Hst & Hsub).
    exists st. split; [done|]. by eapply exitShrunk_trans.
Qed.

(** [solveDataflowBackward] returns for every function and all block
    states it is run on, within [2 + sumExitBits states] rounds.  In the
    result there is a block state for every block state given; the exit
    set of a block is contained in the one given and in the entry set of
    every successor of the block, the entry set is
    [(exitSet | genSet) - killSet], and the gen sets, the kill sets and the
    reachability marks are the ones given.  The result is a fixed point:
    the intersection of the exit set of a block with the entry sets of its
    successors is the exit set. *)
Theorem solveDataflowBackward_fixed_point function states :
  ∃ states',
    solveDataflowBackward function states = Some states'
    ∧ length states' = length states
    ∧ ∀ b st', states' !! b = Some st' →
        (∃ st, states !! b = Some st ∧ exitShrunk st st')
        ∧ entrySet st'
          = N.ldiff (N.lor (exitSet st') (genSet st')) (killSet st')
        ∧ intersectEntrySets states' (exitSet st') (successorsOf function b)
          = exitSet st'
        ∧ ∀ s ss, s ∈ successorsOf function b → states' !! s = Some ss →
                  subBits (exitSet st') (entrySet ss).
Proof.
  destruct (solveDataflowBackwardLoop_terminates
              function (2 + sumExitBits states) true states)
    as [states' Hloop]; [lia|].
  exists states'. split; [exact Hloop|].
  pose (Inv := fun (fr : bool) (s : list BlockState) =>
          length s = length states
          ∧ (∀ b st', s !! b = Some st' →
               ∃ st, states !! b = Some st ∧ exitShrunk st st')
          ∧ (fr = false → ∀ i st, s !! i = Some st → entryEq st)).
  destruct (solveDataflowBackwardLoop_result function Inv) with
    (fuel := 2 + sumExitBits states) (firstRound := true)
    (states := states) (states' := states')
    as [(Hlen & Hshrink & Hentry) Hfix].
  - intros fr s c s' (Hlen & Hshrink & Hentry) Hround.
    split; [|split].
    + apply solveRoundBackward_measure in Hround as (-> & _). done.
    + intros b st' Hb.
      destruct (solveRoundBackward_shrink _ _ _ _ _ Hround b st' Hb)
        as (st1 & Hst1 & Hsub1).
      destruct (Hshrink b st1 Hst1) as (st & Hst & Hsub).
      exists st. split; [done|]. by eapply exitShrunk_trans.
    + intros _. by eapply solveRoundBackward_entryEq.
  - split; [done|]. split; [|done]. intros b st' Hb. exists st'.
    split; [done|apply exitShrunk_refl].
  - exact Hloop.
  - split; [done|]. intros b st' Hb.
    pose proof (solveRoundBackward_unchanged _ _ Hfix b st' Hb) as Hmeet.
    split; [by apply Hshrink|]. split; [by apply (Hentry eq_refl b)|].
    split; [done|]. intros s ss Hs Hss i Hi.
    rewrite <- Hmeet in Hi.
    apply testbit_intersectEntrySets in Hi as [_ Hall]. eauto.
Qed.

Lemma transfer_updateBlockBackward st bits a :
  transfer (updateBlockBackward st bits) a = transfer st a.
Proof. done. Qed.

Lemma entrySet_updateBlockBackward st bits :
  entrySet (updateBlockBackward st bits) = transfer st bits.
Proof. done. Qed.

Section GreatestBackward.

Variable function : SILFunction.
Variable X : BlockId → Bits.
Variable states0 : list BlockState.

Hypothesis consistent : flowConsistentBackward function X states0.

Lemma solveBlockBackward_below firstRound changed states idx changed'
    states' :
  length states = length states0 →
  belowStatesBackward X states0 states →
  solveBlockBackward function firstRound (changed, states) idx
  = (changed', states') →
  belowStatesBackward X states0 states'.
Proof.
  intros Hlen Hinv Hstep.
  apply solveBlockBackward_shape in Hstep
    as [[-> _]|(st & Hst & _ & ->)]; [done|].
  intros b st' Hb. destruct (decide (b = idx)) as [->|Hne].
  - rewrite list_lookup_insert_eq in Hb by (by eapply lookup_lt_Some).
    injection Hb as <-.
    destruct (Hinv idx st Hst) as (Hframe & Hentry & Hexit).
    set (bits := intersectEntrySets states (exitSet st)
                   (successorsOf function idx)).
    assert (subBits (X idx) bits) as Hbits.
    { intros i Hi. apply testbit_intersectEntrySets. split; [by apply Hentry|].
      intros p ps Hp Hps.
      destruct (Hinv p ps Hps) as ((ps0 & Hps0 & Hgen & Hkill) & _ & Hexitp).
      apply Hexitp.
      assert (transfer ps (X p) = transfer ps0 (X p)) as ->
        by (unfold transfer; by rewrite Hgen, Hkill).
      apply (consistent idx p ps0); try done.
      rewrite <- Hlen. by eapply lookup_lt_Some. }
    split; [done|]. split; [done|].
    rewrite transfer_updateBlockBackward, entrySet_updateBlockBackward.
    by apply transfer_mono.
  - rewrite list_lookup_insert_ne in Hb by done. by apply (Hinv b).
Qed.

Lemma solveRoundBackward_below firstRound states changed' states' :
  length states = length states0 →
  belowStatesBackward X states0 states →
  solveRoundBackward function firstRound states = (changed', states') →
  length states' = length states0 ∧ belowStatesBackward X states0 states'.
Proof.
  unfold solveRoundBackward. generalize (reverse (seq 0 (length states))) as order.
  generalize false as changed. intros changed order. revert changed states.
  induction order as [|idx order IH]; intros changed states Hlen Hinv;
    cbn [foldl].
  - by intros [= <- <-].
  - destruct (solveBlockBackward function firstRound (changed, states) idx)
      as [changed1 states1] eqn:Hstep.
    apply IH; [|by eapply solveBlockBackward_below].
    apply solveBlockBackward_measure in Hstep as [Hlen1 _]. congruence.
Qed.

End GreatestBackward.

(** [solveDataflowBackward] computes the greatest solution below the
    states it starts from: an assignment of bits to the blocks which is
    consistent with the backward flow (the bits of a block are in the
    transfer of the bits of each successor) and which lies below the
    initial sets (the bits in the exit sets, their transfer in the entry
    sets) lies below the solved exit sets, and its transfer below the
    solved entry sets: the solver clears no bit which such a solution
    has. *)
Theorem solveDataflowBackward_greatest function X states states' :
  solveDataflowBackward function states = Some states' →
  flowConsistentBackward function X states →
  belowStatesBackward X states states →
  ∀ b st', states' !! b = Some st' →
           subBits (X b) (exitSet st')
           ∧ subBits (transfer st' (X b)) (entrySet st').
Proof.
  intros Hsolve Hconsistent Hbelow.
  destruct (solveDataflowBackwardLoop_result function
              (fun _ s => length s = length states
                          ∧ belowStatesBackward X states s))
    with (fuel := 2 + sumExitBits states) (firstRound := true)
         (states := states) (states' := states') as [[_ Hfinal] _];
    try done.
  - intros fr s c s' [Hlen Hs] Hround.
    by eapply solveRoundBackward_below.
  - intros b st' Hb. by destruct (Hfinal b st' Hb) as (_ & ? & ?).
Qed.


(** On [branchFunction] with the seeded states, the assignment of bit 0
    to [bb1] alone is consistent with the backward flow, and bit 0 is in
    the solved exit set of [bb1]. *)
Lemma solveDataflowBackward_greatest_witness :
  ∃ states' st1,
    solveDataflowBackward branchFunction seededStates = Some states'
    ∧ states' !! 1 = Some st1
    ∧ subBits 1%N (exitSet st1).
Proof.
  pose (X := fun b : BlockId => match b with 1 => 1%N | _ => 0%N end).
  pose (states' := default [] (solveDataflowBackward branchFunction
                                 seededStates)).
  pose (st1 := default clearedState (states' !! 1)).
  vm_compute in states', st1.
  assert (solveDataflowBackward branchFunction seededStates = Some states')
    as Hsolve by (vm_compute; reflexivity).
  assert (flowConsistentBackward branchFunction X seededStates)
    as Hconsistent.
  { intros [|[|b]] s ss Hb Hs; [|by apply elem_of_nil in Hs|simpl in Hb; lia].
    intros _ i Hi. by rewrite N.bits_0 in Hi. }
  assert (belowStatesBackward X seededStates seededStates) as Hbelow.
  { intros [|[|b]] st; [| |done]; intros [= <-];
      (split; [eexists; by split|]); split; intros i Hi;
      vm_compute in Hi; try done; by rewrite N.bits_0 in Hi. }
  exists states', st1. split; [exact Hsolve|]. split; [reflexivity|].
  apply (solveDataflowBackward_greatest branchFunction X seededStates
           states' Hsolve Hconsistent Hbelow 1 st1 eq_refl).
Defined.
